(** * Async++ task lifecycle engine: a shallow embedding and its properties

    The first half of the file models the sources, the second half proves
    properties of the model.

    Sources and their modules:
      - [src/task_wait_event.h]             [WaitEvent]
      - [include/async++/aligned_alloc.h]   [AlignedArray]
      - [include/async++/task_base.h]       [Task], [Worlds], [Lifetime],
                                            [Unwrap], [Registration]
      - [include/async++/parallel_for.h]    [ParallelFor]

    Stateful C++ code is rendered by explicit state passing: a member
    function is a computation in a small monad that threads the nodes it
    can reach and either returns, throws, or has undefined behaviour.
    What a member function does to a node (calling the user callable,
    constructing a payload in place, running a destructor, publishing a
    state, handing a continuation to its scheduler) is recorded in a log
    carried by the node, each entry with the node's state right after it.

    Concurrency appears in two places.  The race between
    [add_continuation] and the terminal transition is modelled by
    interleaving the atomic steps of the threads ([Registration]).  The
    fork/join of [internal_parallel_for] is modelled by the set of
    interleavings of the calls made by the two halves ([ParallelFor]). *)

From Stdlib Require Import ZArith List Bool Arith Lia Permutation.
Import ListNotations.

(* ================================================================== *)
(** ** The wait event ([src/task_wait_event.h]) *)
(* ================================================================== *)

Module WaitEvent.
Local Open Scope Z_scope.

(** [enum wait_type] *)
Definition task_finished : Z := 1.
Definition task_available : Z := 2.

(** The C++ [int] is a 32-bit two's-complement integer; [Z.land], [Z.lor]
    and [Z.lnot] act on the infinite two's-complement representation, so
    they agree with the machine operations and never leave the range. *)
Definition int_min : Z := - 2 ^ 31.
Definition int_max : Z := 2 ^ 31 - 1.
Definition is_int (z : Z) : Prop := int_min <= z <= int_max.

(** The mutex and the condition variable only matter through
    [initialized]; the data protected by the mutex is [event_mask]. *)
Record task_wait_event := mk_event {
  event_mask : Z;
  initialized : bool
}.

(** [task_wait_event()] *)
Definition new_event : task_wait_event := mk_event 0 false.

(** [void init()] *)
Definition init (w : task_wait_event) : task_wait_event :=
  if negb (initialized w) then mk_event (event_mask w) true else w.

(** [bool try_wait(int event)]: the body runs under the lock, so it is
    one atomic step.
<<
      int result = event_mask & event;
      event_mask &= ~event;
      return result != 0;
>> *)
Definition try_wait (w : task_wait_event) (event : Z) : bool * task_wait_event :=
  let result := Z.land (event_mask w) event in
  let w' := mk_event (Z.land (event_mask w) (Z.lnot event)) (initialized w) in
  (negb (result =? 0), w').

(** [void signal(int event)] *)
Definition signal (w : task_wait_event) (event : Z) : task_wait_event :=
  mk_event (Z.lor (event_mask w) event) (initialized w).

(** [int wait()]: returns [None] where the C++ thread would block on the
    condition variable (mask still zero). *)
Definition wait (w : task_wait_event) : option (Z * task_wait_event) :=
  if event_mask w =? 0 then None
  else Some (event_mask w, mk_event 0 (initialized w)).

End WaitEvent.

(* ================================================================== *)
(** ** The aligned array ([include/async++/aligned_alloc.h]) *)
(* ================================================================== *)

Module AlignedArray.

(** What the constructor and the destructor do to the backing memory and
    to the elements, in program order. *)
Inductive array_event :=
| EvAlloc (length : nat)      (* [aligned_alloc(length * sizeof(T), Align)] *)
| EvConstruct (i : nat)       (* [new(ptr + i) T] returned normally *)
| EvDestroy (i : nat)         (* [ptr[i].~T()] *)
| EvFree                      (* [aligned_free(ptr)] *)
| EvRethrow.                  (* [LIBASYNC_RETHROW()] *)

Definition array_event_eq_dec (a b : array_event) : {a = b} + {a <> b}.
Proof. decide equality; apply Nat.eq_dec. Defined.

(** The object: [length] and whether [ptr] is non-null. *)
Record aligned_array := mk_array {
  length : nat;
  has_ptr : bool
}.

Section Ctor.
(** [throws i] tells whether [T]'s default constructor throws when it is
    run for the element at index [i]. *)
Variable throws : nat -> bool.

(** The [try] block: [for (i = 0; i < length; i++) new(ptr + i) T;].
    [todo] is [length - i].  Returns the value of [i] when the loop is left
    and whether it was left by an exception. *)
Fixpoint construct_loop (i todo : nat) : nat * bool * list array_event :=
  match todo with
  | O => (i, false, [])
  | S todo' =>
      if throws i then (i, true, [])
      else let '(i', thrown, log) := construct_loop (S i) todo' in
           (i', thrown, EvConstruct i :: log)
  end.

(** The [catch] block's loop, as written:
    [for (std::size_t j = 0; j < i; j++) ptr[i].~T();]
    The loop variable is [j]; the subscript is [i]. *)
Definition cleanup_loop (i : nat) : list array_event :=
  map (fun j => EvDestroy i) (seq 0 i).

(** [explicit aligned_array(std::size_t length)]: [inl a] is normal
    return, [inr tt] an exception leaving the constructor. *)
Definition construct (length : nat) : (aligned_array + unit) * list array_event :=
  let '(i, thrown, log) := construct_loop 0 length in
  if thrown
  then (inr tt, EvAlloc length :: log ++ cleanup_loop i ++ [EvFree; EvRethrow])
  else (inl (mk_array length true), EvAlloc length :: log).

End Ctor.

(** [~aligned_array()]:
    [for (std::size_t i = 0; i < length; i++) ptr[i].~T(); aligned_free(ptr);] *)
Definition destruct (a : aligned_array) : list array_event :=
  map EvDestroy (seq 0 (length a)) ++ [EvFree].

(** How many times [~T()] ran on the element at index [j]. *)
Definition destroyed (log : list array_event) (j : nat) : nat :=
  count_occ array_event_eq_dec log (EvDestroy j).

(** The constructor throws exactly at index [k]. *)
Definition throws_at (k : nat) : nat -> bool := fun i => i =? k.

End AlignedArray.

(* ================================================================== *)
(** ** The task node ([include/async++/task_base.h]) *)
(* ================================================================== *)

Module Task.

(** [enum class task_state] *)
Inductive task_state := pending | locked | unwrapped | completed | canceled.

Definition task_state_eqb (a b : task_state) : bool :=
  match a, b with
  | pending, pending | locked, locked | unwrapped, unwrapped
  | completed, completed | canceled, canceled => true
  | _, _ => false
  end.

(** [inline bool is_finished(task_state s)] *)
Definition is_finished (s : task_state) : bool :=
  task_state_eqb s completed || task_state_eqb s canceled.

(** A [task_ptr] names a task node. *)
Definition task_ptr := nat.

(** Modelled from the spec: [continuation_vector] (its header is not part
    of the sources at hand).  Section 4.2: [try_add] appends and returns
    true unless the list has been sealed; [flush_and_lock] seals the list
    and hands every registered continuation, once, to the function it is
    given.  Here [flush_and_lock] returns the entries for the caller to
    iterate over. *)
Record continuation_vector := mk_cv {
  items : list task_ptr;
  sealed : bool
}.

Definition empty_cv : continuation_vector := mk_cv [] false.

Definition try_add (c : task_ptr) (v : continuation_vector)
  : bool * continuation_vector :=
  if sealed v then (false, v) else (true, mk_cv (items v ++ [c]) false).

Definition flush_and_lock (v : continuation_vector)
  : list task_ptr * continuation_vector :=
  (items v, mk_cv [] true).

Section Node.
(** [R]: the [Result] type; [E]: what a [std::exception_ptr] refers to;
    [F]: the type of the stored function object ([Func]). *)
Context {R E F : Type}.

(** The anonymous union of [task_result_holder]: at any time the storage
    holds a constructed [Result], a constructed [std::exception_ptr], or
    neither (the bytes then are the scheduler pointer). *)
Inductive storage :=
| HoldsSched
| HoldsResult (v : R)
| HoldsExcept (e : E).

Definition result_valid (s : storage) : bool :=
  match s with HoldsResult _ => true | _ => false end.
Definition except_valid (s : storage) : bool :=
  match s with HoldsExcept _ => true | _ => false end.

(** What a member function does, in program order. *)
Inductive event :=
| EvInvoke                   (* the user callable is called *)
| EvSetResult (v : R)        (* [new(&result) Result(...)] *)
| EvMoveResult               (* the result is moved out through [Result&&] *)
| EvSetException (e : E)     (* [new(&except) std::exception_ptr(...)] *)
| EvDestroyFunc              (* [destroy_func()]: [get_func().~Func()] *)
| EvStore (s : task_state)   (* [state.store(s, ...)] *)
| EvSchedule (c : task_ptr)  (* [vtable->schedule(this, c)] *)
| EvDestroyResult            (* [~Result()] on the result slot *)
| EvDestroyExcept            (* [~exception_ptr()] on the exception slot *)
| EvFree.                    (* [operator delete] *)

(** The part of a node that the lifetime invariants speak about. *)
Record view := mk_view {
  v_state : task_state;
  v_store : storage;
  v_func : bool              (* is a [Func] object alive in the holder *)
}.

(** [task_func<Sched, Func, Result>] with its bases [task_result],
    [task_result_holder], [task_base] and [func_holder] flattened.  [log]
    is ghost state: each event with the view of the node right after it. *)
Record task_func := mk_task {
  state : task_state;
  continuations : continuation_vector;
  store : storage;
  func : option F;
  log : list (event * view)
}.

Definition view_of (n : task_func) : view :=
  mk_view (state n) (store n)
          (match func n with Some _ => true | None => false end).

Definition events (n : task_func) : list event := map fst (log n).
(** The node at every point of its lifetime so far. *)
Definition points (n : task_func) : list view := map snd (log n).

Definition set_state (s : task_state) (n : task_func) : task_func :=
  mk_task s (continuations n) (store n) (func n) (log n).
Definition set_continuations (c : continuation_vector) (n : task_func) : task_func :=
  mk_task (state n) c (store n) (func n) (log n).
Definition set_store (s : storage) (n : task_func) : task_func :=
  mk_task (state n) (continuations n) s (func n) (log n).
Definition set_func (f : option F) (n : task_func) : task_func :=
  mk_task (state n) (continuations n) (store n) f (log n).
Definition record (ev : event) (n : task_func) : task_func :=
  mk_task (state n) (continuations n) (store n) (func n)
          (log n ++ [(ev, view_of n)]).

(** The node after [cs] have been handed, one by one, to the schedule
    hook. *)
Definition scheduled (cs : list task_ptr) (n : task_func) : task_func :=
  mk_task (state n) (continuations n) (store n) (func n)
          (log n ++ map (fun c => (EvSchedule c, view_of n)) cs).

(** The node after its continuation list has been flushed. *)
Definition flushed (n : task_func) : task_func :=
  scheduled (items (continuations n)) (set_continuations (mk_cv [] true) n).

(** [task_func(Args&&...)]: state [pending], no continuation, the function
    object constructed by [init_func]. *)
Definition new_task (f : F) : task_func :=
  mk_task pending empty_cv HoldsSched (Some f) [].

End Node.
Arguments storage : clear implicits.
Arguments event : clear implicits.
Arguments view : clear implicits.
Arguments task_func : clear implicits.

(** *** Computations that may throw

    A member function runs in some world [W] (the nodes it can reach).  It
    returns a value, or leaves by an exception, or has undefined behaviour
    (a destructor run on storage that holds no object, a function object
    used after its destruction); the world persists in all cases.
    Undefined behaviour is not an exception: no handler catches it. *)
Inductive outcome (E A : Type) :=
| Ok (a : A)
| Exn (e : E)
| Undefined.
Arguments Ok {E A}.
Arguments Exn {E A}.
Arguments Undefined {E A}.

Definition M (E W A : Type) : Type := W -> outcome E A * W.

Definition ret {E W A} (a : A) : M E W A := fun w => (Ok a, w).
Definition throw {E W A} (e : E) : M E W A := fun w => (Exn e, w).
Definition undefined {E W A} : M E W A := fun w => (Undefined, w).
Definition bind {E W A B} (m : M E W A) (k : A -> M E W B) : M E W B :=
  fun w => match m w with
           | (Ok a, w') => k a w'
           | (Exn e, w') => (Exn e, w')
           | (Undefined, w') => (Undefined, w')
           end.
(** [LIBASYNC_TRY { m } LIBASYNC_CATCH(...) { h(std::current_exception()) }] *)
Definition try_catch {E W A} (m : M E W A) (h : E -> M E W A) : M E W A :=
  fun w => match m w with
           | (Exn e, w') => h e w'
           | r => r
           end.

Declare Scope task_scope.
Delimit Scope task_scope with task.
Notation "x <- m ;; k" := (bind m (fun x => k))
  (at level 61, m at next level, right associativity) : task_scope.
Notation "m ;; k" := (bind m (fun _ => k))
  (at level 61, right associativity) : task_scope.

(** [for (c : cs) f(c);] *)
Fixpoint for_each {E W} (cs : list task_ptr) (f : task_ptr -> M E W unit)
  : M E W unit :=
  match cs with
  | [] => ret tt
  | c :: cs' => bind (f c) (fun _ => for_each cs' f)
  end.

(** A [task_base*] seen from a world [W]: where the node lives, and what
    [c->vtable->schedule(this, c)] does in that world to a continuation
    [c] of this node (it hands [c] to [run_continuation] with [c]'s own
    scheduler). *)
Record handle (R E F W : Type) := mk_handle {
  node_of : W -> task_func R E F;
  put_node : task_func R E F -> W -> W;
  schedule : task_ptr -> M E W unit
}.
Arguments mk_handle {R E F W}.
Arguments node_of {R E F W}.
Arguments put_node {R E F W}.
Arguments schedule {R E F W}.

Section Ops.
Context {R E F W : Type}.
(** [Result]'s copy/move constructor: [Some e] when constructing a copy of
    the given value throws [e]. *)
Variable ctor_throws : R -> option E.
(** What a [Result] holds after it has been moved from. *)
Variable moved_from : R -> R.

Local Open Scope task_scope.

(** One member access: update the node and log the event. *)
Definition step (t : handle R E F W) (ev : event R E)
    (upd : task_func R E F -> task_func R E F) : M E W unit :=
  fun w => (Ok tt, put_node t (record ev (upd (node_of t w))) w).

(** [state.load(...)] *)
Definition load_state (t : handle R E F W) : M E W task_state :=
  fun w => (Ok (state (node_of t w)), w).

(** [state.store(s, ...)] *)
Definition store_state (t : handle R E F W) (s : task_state) : M E W unit :=
  step t (EvStore s) (set_state s).

(** [bool ready() const] *)
Definition ready (t : handle R E F W) : M E W bool :=
  s <- load_state t ;; ret (is_finished s).

(** [void run_continuations()]:
<<
      continuations.flush_and_lock([this](task_ptr t) {
          const task_base_vtable* vtable = t->vtable;
          vtable->schedule(this, std::move(t));
      });
>> *)
Definition run_continuations (t : handle R E F W) : M E W unit :=
  fun w =>
    let n := node_of t w in
    let '(cs, cv) := flush_and_lock (continuations n) in
    for_each cs (fun c => step t (EvSchedule c) (fun n => n) ;; schedule t c)
             (put_node t (set_continuations cv n) w).

(** [void finish()] *)
Definition finish (t : handle R E F W) : M E W unit :=
  store_state t completed ;; run_continuations t.

(** [task_state wait()]; [wait_for_task] (the blocking primitive, outside
    these sources) is a parameter: what happens in the world until the
    calling thread is woken up. *)
Definition wait (wait_for_task : M E W unit) (t : handle R E F W) : M E W task_state :=
  s <- load_state t ;;
  if negb (is_finished s)
  then wait_for_task ;; load_state t
  else ret s.

(** [void set_result(T&& t)]: [new(&result) Result(std::forward<T>(t))] *)
Definition set_result (t : handle R E F W) (v : R) : M E W unit :=
  match ctor_throws v with
  | Some e => throw e
  | None => step t (EvSetResult v) (set_store (HoldsResult v))
  end.

(** [Result&& get_result(const task<T>&)]: the caller moves the result
    out of the slot, which then holds a moved-from [Result]. *)
Definition get_result_task (t : handle R E F W) : M E W R :=
  fun w => match store (node_of t w) with
           | HoldsResult v =>
               (step t EvMoveResult (set_store (HoldsResult (moved_from v))) ;;
                ret v) w
           | _ => (Undefined, w)
           end.

(** [const Result& get_result(const shared_task<T>&)] *)
Definition get_result_shared (t : handle R E F W) : M E W R :=
  fun w => match store (node_of t w) with
           | HoldsResult v => (Ok v, w)
           | _ => (Undefined, w)
           end.

(** [void set_exception(std::exception_ptr&& except)] *)
Definition set_exception (t : handle R E F W) (e : E) : M E W unit :=
  step t (EvSetException e) (set_store (HoldsExcept e)).

(** [std::exception_ptr& get_exception()] *)
Definition get_exception (t : handle R E F W) : M E W E :=
  fun w => match store (node_of t w) with
           | HoldsExcept e => (Ok e, w)
           | _ => (Undefined, w)
           end.

(** [void cancel_base(std::exception_ptr&& except)] *)
Definition cancel_base (t : handle R E F W) (e : E) : M E W unit :=
  set_exception t e ;;
  store_state t canceled ;;
  run_continuations t.

(** [void wait_and_throw()] *)
Definition wait_and_throw (wait_for_task : M E W unit) (t : handle R E F W) : M E W unit :=
  s <- wait wait_for_task t ;;
  if task_state_eqb s canceled
  then e <- get_exception t ;; throw e
  else ret tt.

(** [Func& get_func()] *)
Definition get_func (t : handle R E F W) : M E W F :=
  fun w => match func (node_of t w) with
           | Some f => (Ok f, w)
           | None => (Undefined, w)
           end.

(** [void destroy_func()]: [get_func().~Func()] *)
Definition destroy_func (t : handle R E F W) : M E W unit :=
  fun w => match func (node_of t w) with
           | Some _ => step t EvDestroyFunc (set_func None) w
           | None => (Undefined, w)
           end.

(** [static void cancel(task_base* t, std::exception_ptr&& except)] *)
Definition cancel (t : handle R E F W) (e : E) : M E W unit :=
  destroy_func t ;;
  cancel_base t e.

(** [static void run(task_base* t)]; [exec] is [Func::operator()]. *)
Definition run (exec : F -> handle R E F W -> M E W unit) (t : handle R E F W) : M E W unit :=
  try_catch (f <- get_func t ;; exec f t)
            (fun e => cancel t e).

(** Calling the callable held by the function object; [body] is what the
    call does. *)
Definition invoke {A} (t : handle R E F W) (body : M E W A) : M E W A :=
  step t EvInvoke (fun n => n) ;; body.

(** [bool continuation_vector::try_add(task_ptr&&)] on this node's list. *)
Definition try_add_continuation (t : handle R E F W) (c : task_ptr) : M E W bool :=
  fun w =>
    let n := node_of t w in
    let '(ok, cv) := try_add c (continuations n) in
    (Ok ok, put_node t (set_continuations cv n) w).

(** [void run_continuation(Sched& sched, task_ptr&& cont)]:
    [schedule_task] is [detail::schedule_task(sched, std::move(cont))] and
    [cancel_cont] is [cont->vtable->cancel(cont.get(), ...)]. *)
Definition run_continuation (schedule_task : M E W unit)
    (cancel_cont : E -> M E W unit) : M E W unit :=
  try_catch schedule_task cancel_cont.

(** [void add_continuation(Sched& sched, task_ptr cont)]; [run_cont] is
    [run_continuation(sched, std::move(cont))]. *)
Definition add_continuation (t : handle R E F W) (run_cont : M E W unit)
    (cont : task_ptr) : M E W unit :=
  current_state <- load_state t ;;
  added <- (if negb (is_finished current_state)
            then try_add_continuation t cont
            else ret false) ;;
  if added then ret tt
  else (* [std::atomic_thread_fence(std::memory_order_acquire)] *)
       run_cont.

(** [~task_func()] *)
Definition dtor_task_func (t : handle R E F W) : M E W unit :=
  s <- load_state t ;;
  if task_state_eqb s pending then destroy_func t else ret tt.

(** [~task_result()] *)
Definition dtor_task_result (t : handle R E F W) : M E W unit :=
  s <- load_state t ;;
  if task_state_eqb s canceled
  then fun w => match store (node_of t w) with
                | HoldsExcept _ => step t EvDestroyExcept (set_store HoldsSched) w
                | _ => (Undefined, w)
                end
  else ret tt.

(** [~task_result_holder()] *)
Definition dtor_task_result_holder (t : handle R E F W) : M E W unit :=
  s <- load_state t ;;
  if task_state_eqb s completed
  then fun w => match store (node_of t w) with
                | HoldsResult _ => step t EvDestroyResult (set_store HoldsSched) w
                | _ => (Undefined, w)
                end
  else ret tt.

(** [static void destroy(task_base* t)]:
    [delete static_cast<task_func<Sched, Func, Result>*>(t)] runs the
    destructors from the most derived class down, then frees the node. *)
Definition destroy (t : handle R E F W) : M E W unit :=
  dtor_task_func t ;;
  dtor_task_result t ;;
  dtor_task_result_holder t ;;
  step t EvFree (fun n => n).

End Ops.


(** *** Execution functions *)

(** A user callable taking a [P]: what calling it on a given argument
    does, return a value or throw. *)
Definition callable (P A E : Type) : Type := P -> A + E.

Definition call {P A E W} (f : callable P A E) (p : P) : M E W A :=
  match f p with inl a => ret a | inr e => throw e end.

Section Exec.
Context {R E W : Type}.
Variable ctor_throws : R -> option E.
Variable moved_from : R -> R.
Local Open Scope task_scope.

(** [root_exec_func<Sched, Result, Func, false>::operator()(task_base* t)] *)
Definition root_exec_func (f : callable unit R E)
    (t : handle R E (callable unit R E) W) : M E W unit :=
  v <- invoke t (call f tt) ;;
  set_result ctor_throws t v ;;
  destroy_func t ;;
  finish t.

(** [unwrapped_func<Result, Child>::operator()(Child child_task)]:
    [child_shared] tells whether [Child] is a [shared_task] (its result
    is read through a const reference) or a [task] (its result is moved
    out). *)
Definition unwrapped_func {Fp Fc} (child_shared : bool)
    (parent : handle R E Fp W) (child : handle R E Fc W) : M E W unit :=
  try_catch
    (s <- load_state child ;;
     if task_state_eqb s completed
     then v <- (if child_shared then get_result_shared child
                else get_result_task moved_from child) ;;
          set_result ctor_throws parent v ;;
          finish parent
     else e <- get_exception child ;;
          cancel_base parent e)
    (fun e => cancel_base parent e).

(** [unwrapped_finish<Sched, Result, Func, Child>(parent_base, child_task)];
    [child_then] is
    [child_task.then(inline_scheduler(), unwrapped_func<Result, Child>(...))]. *)
Definition unwrapped_finish {F} (parent_base : handle R E F W)
    (child_then : M E W unit) : M E W unit :=
  store_state parent_base unwrapped ;;
  destroy_func parent_base ;;
  try_catch child_then
            (fun e => cancel_base parent_base e).

(** [root_exec_func<Sched, Result, Func, true>::operator()(task_base* t)]:
    the callable returns the child task (or throws). *)
Definition root_exec_func_unwrap (child_then : M E W unit)
    (f : callable unit unit E)
    (t : handle R E (callable unit unit E) W) : M E W unit :=
  _ <- invoke t (call f tt) ;;
  unwrapped_finish t child_then.

Section Continuation.
(** The parent task a continuation was attached to: result type [P],
    function type [Fp]; [parent_shared] tells whether the [Parent] handle
    held by the function object is a [shared_task]. *)
Context {P Fp : Type}.
Variable parent_moved_from : P -> P.
Variable parent_shared : bool.
Variable parent : handle P E Fp W.

Definition get_parent_result : M E W P :=
  if parent_shared then get_result_shared parent
  else get_result_task parent_moved_from parent.

(** The general template, used for callables that take the parent task
    itself: [continuation_exec_func<..., std::false_type, false>].
    [body f] is what calling [f] on the parent task does. *)
Definition continuation_exec_func {F} (body : F -> M E W R)
    (f : F) (t : handle R E F W) : M E W unit :=
  v <- invoke t (body f) ;;
  set_result ctor_throws t v ;;
  destroy_func t ;;
  finish t.

(** [continuation_exec_func<..., std::true_type, false>]: the callable
    takes the parent's value. *)
Definition continuation_exec_func_value (f : callable P R E)
    (t : handle R E (callable P R E) W) : M E W unit :=
  ps <- load_state parent ;;
  if task_state_eqb ps canceled
  then e <- get_exception parent ;; cancel t e
  else p <- get_parent_result ;;
       v <- invoke t (call f p) ;;
       set_result ctor_throws t v ;;
       destroy_func t ;;
       finish t.

(** [continuation_exec_func<..., fake_void, false>]: the parent is a
    [task<void>] and the callable takes no argument. *)
Definition continuation_exec_func_void (f : callable unit R E)
    (t : handle R E (callable unit R E) W) : M E W unit :=
  ps <- load_state parent ;;
  if task_state_eqb ps canceled
  then e <- get_exception parent ;; cancel t e
  else v <- invoke t (call f tt) ;;
       set_result ctor_throws t v ;;
       destroy_func t ;;
       finish t.

(** [continuation_exec_func<..., std::false_type, true>] *)
Definition continuation_exec_func_unwrap {F} (body : F -> M E W unit)
    (child_then : M E W unit) (f : F) (t : handle R E F W) : M E W unit :=
  _ <- invoke t (body f) ;;
  unwrapped_finish t child_then.

(** [continuation_exec_func<..., std::true_type, true>] *)
Definition continuation_exec_func_value_unwrap (child_then : M E W unit)
    (f : callable P unit E) (t : handle R E (callable P unit E) W)
  : M E W unit :=
  ps <- load_state parent ;;
  if task_state_eqb ps canceled
  then e <- get_exception parent ;; cancel t e
  else p <- get_parent_result ;;
       _ <- invoke t (call f p) ;;
       unwrapped_finish t child_then.

(** [continuation_exec_func<..., fake_void, true>] *)
Definition continuation_exec_func_void_unwrap (child_then : M E W unit)
    (f : callable unit unit E) (t : handle R E (callable unit unit E) W)
  : M E W unit :=
  ps <- load_state parent ;;
  if task_state_eqb ps canceled
  then e <- get_exception parent ;; cancel t e
  else _ <- invoke t (call f tt) ;;
       unwrapped_finish t child_then.

End Continuation.
End Exec.

Section RootOutcome.
Context {R E : Type}.

(** The node after a root task's callable returned [v]. *)
Definition completed_with (v : R) (n : task_func R E (callable unit R E)) : task_func R E (callable unit R E) :=
  flushed (record (EvStore completed) (set_state completed
    (record EvDestroyFunc (set_func None
      (record (EvSetResult v) (set_store (HoldsResult v)
        (record EvInvoke n))))))).

End RootOutcome.

(** [k] successive reads of the result through a shared handle, each
    preceded by [wait_and_throw] as in [shared_task::get()]. *)
Fixpoint shared_gets {R E F W} (wait_for_task : M E W unit)
    (t : handle R E F W) (k : nat) : M E W (list R) :=
  match k with
  | O => ret []
  | S k' =>
      bind (wait_and_throw wait_for_task t) (fun _ =>
      bind (get_result_shared t) (fun v =>
      bind (shared_gets wait_for_task t k') (fun vs => ret (v :: vs))))
  end.

End Task.

(* ================================================================== *)
(** ** Worlds *)
(* ================================================================== *)

Module Worlds.
Import Task.

(** A handle is a lens onto its node: what is put is what is read, a
    second put overrides the first, and putting back what was read
    changes nothing. *)
Record lens_ok {R E F W} (t : handle R E F W) : Prop := {
  get_put : forall n w, node_of t (put_node t n w) = n;
  put_put : forall n n' w, put_node t n (put_node t n' w) = put_node t n w;
  put_get : forall w, put_node t (node_of t w) w = w
}.

(** It is inert when scheduling a continuation of the node does nothing
    inside the world. *)
Definition inert {R E F W} (t : handle R E F W) : Prop :=
  forall c w, schedule t c w = (Ok tt, w).

(** A node on its own.  Its continuations live elsewhere: handing one to
    its scheduler leaves this node as it is, and what remains of the call
    is the [EvSchedule] entry that [run_continuations] logs. *)
Definition solo {R E F} : handle R E F (task_func R E F) :=
  mk_handle (fun n => n) (fun n _ => n) (fun _ => ret tt).

(** Two nodes: the task under study (second component, [self]) and the
    other task it reads from (first component, [peer]): for a continuation
    the parent it was attached to, for an unwrapping task the child whose
    outcome it takes over. *)
Definition peer {P R E Fp F}
  : handle P E Fp (task_func P E Fp * task_func R E F) :=
  mk_handle fst (fun n w => (n, snd w)) (fun _ => ret tt).

Definition self {P R E Fp F}
  : handle R E F (task_func P E Fp * task_func R E F) :=
  mk_handle snd (fun n w => (fst w, n)) (fun _ => ret tt).

End Worlds.

(* ================================================================== *)
(** ** The life of a task node *)
(* ================================================================== *)

Module Lifetime.
Import Task Worlds.

Section Invariants.
Context {R E : Type}.

(** I1 and I2 as equivalences: the result slot holds a [Result] iff the
    state is [completed], the exception slot holds an exception iff the
    state is [canceled]. *)
Definition slots_match_state (p : view R E) : bool :=
  Bool.eqb (result_valid (v_store p)) (task_state_eqb (v_state p) completed)
  && Bool.eqb (except_valid (v_store p)) (task_state_eqb (v_state p) canceled).

(** The direction from the state to the slot only. *)
Definition state_implies_slot (p : view R E) : bool :=
  implb (task_state_eqb (v_state p) completed) (result_valid (v_store p))
  && implb (task_state_eqb (v_state p) canceled) (except_valid (v_store p)).

Definition is_destroy_func (ev : event R E) : bool :=
  match ev with EvDestroyFunc => true | _ => false end.
(** How many of the events [l] satisfy [p]. *)
Definition count (p : event R E -> bool) (l : list (event R E)) : nat :=
  length (filter p l).

(** [state_implies_slot] as a proposition. *)
Definition weak (p : view R E) : Prop := state_implies_slot p = true.

(** What holds of a node between two member calls. *)
Record node_inv {F} (n : task_func R E F) : Prop := {
  inv_points : Forall (fun p => state_implies_slot p = true) (points n);
  inv_rest : slots_match_state (view_of n) = true;
  inv_func : v_func (view_of n) = task_state_eqb (state n) pending;
  inv_destroyed :
    count is_destroy_func (events n)
    = if task_state_eqb (state n) pending then 0 else 1
}.

(** The order of C5 as the specification words it: exception stored,
    function destroyed, state published, continuations drained. *)
Definition cancel_in_stated_order {F} (n : task_func R E F) (e : E) : Prop :=
  events (snd (cancel solo e n))
  = events n ++ [EvSetException e; EvDestroyFunc; EvStore canceled]
      ++ map EvSchedule (items (continuations n)).

(** The events of [destroy] on a node in state [s], destructor by
    destructor: [~task_func], [~task_result], [~task_result_holder], then
    [operator delete]. *)
Definition destructor_events (s : task_state) : list (event R E) :=
  (if task_state_eqb s pending then [EvDestroyFunc] else [])
  ++ (if task_state_eqb s canceled then [EvDestroyExcept] else [])
  ++ (if task_state_eqb s completed then [EvDestroyResult] else [])
  ++ [EvFree].

(** C7 as stated: at every point of the node's life so far, the slots
    match the state in both directions. *)
Definition slots_match_at_every_point {F} (n : task_func R E F) : Prop :=
  Forall (fun p => slots_match_state p = true) (points n).

End Invariants.

Section Life.
Context {R E : Type}.
Variable ctor_throws : R -> option E.
Variable moved_from : R -> R.

(** What [child_task.then(inline_scheduler(), unwrapped_func(...))] does
    to the unwrapping task at the time of the call: nothing when the
    forwarding continuation is registered, or an exception out of [then]
    (the forwarding itself is the step [life_forward]). *)
Definition then_outcome {W} (r : option E) : M E W unit :=
  match r with None => ret tt | Some e => throw e end.

(** The nodes a [task_func] can be, from construction on, under the
    calls the runtime makes on it: every execution function run once on a
    pending node, [cancel] on a pending node, the forwarding of a child's
    outcome to an unwrapped node, registrations of continuations at any
    time, and reads of the result once completed. *)
Inductive life : forall {F : Type}, task_func R E F -> Prop :=
| life_new F (f : F) :
    life (new_task f)
| life_add_continuation F (n : task_func R E F) c :
    life n ->
    life (snd (add_continuation solo (ret tt) c n))
| life_cancel F (n : task_func R E F) e :
    life n -> state n = pending ->
    life (snd (cancel solo e n))
| life_root (n : task_func R E (callable unit R E)) :
    life n -> state n = pending ->
    life (snd (run (root_exec_func ctor_throws) solo n))
| life_root_unwrap (n : task_func R E (callable unit unit E)) r :
    life n -> state n = pending ->
    life (snd (run (root_exec_func_unwrap (then_outcome r)) solo n))
| life_continuation P (n : task_func R E (callable P R E)) (p : P) :
    life n -> state n = pending ->
    life (snd (run (continuation_exec_func ctor_throws (fun f => call f p))
                   solo n))
| life_continuation_value P Fp (pm : P -> P) sh
    (p : task_func P E Fp) (n : task_func R E (callable P R E)) :
    life n -> state n = pending ->
    is_finished (state p) = true ->
    slots_match_state (view_of p) = true ->
    life (snd (snd (run (continuation_exec_func_value ctor_throws pm sh peer)
                        self (p, n))))
| life_continuation_void P Fp
    (p : task_func P E Fp) (n : task_func R E (callable unit R E)) :
    life n -> state n = pending ->
    is_finished (state p) = true ->
    slots_match_state (view_of p) = true ->
    life (snd (snd (run (continuation_exec_func_void ctor_throws peer)
                        self (p, n))))
| life_continuation_unwrap P (n : task_func R E (callable P unit E)) (p : P) r :
    life n -> state n = pending ->
    life (snd (run (continuation_exec_func_unwrap (fun f => call f p)
                      (then_outcome r)) solo n))
| life_continuation_value_unwrap P Fp (pm : P -> P) sh
    (p : task_func P E Fp) (n : task_func R E (callable P unit E)) r :
    life n -> state n = pending ->
    is_finished (state p) = true ->
    slots_match_state (view_of p) = true ->
    life (snd (snd (run (continuation_exec_func_value_unwrap pm sh peer
                           (then_outcome r))
                        self (p, n))))
| life_continuation_void_unwrap P Fp
    (p : task_func P E Fp) (n : task_func R E (callable unit unit E)) r :
    life n -> state n = pending ->
    is_finished (state p) = true ->
    slots_match_state (view_of p) = true ->
    life (snd (snd (run (continuation_exec_func_void_unwrap peer
                           (then_outcome r))
                        self (p, n))))
| life_forward F Fc sh (child : task_func R E Fc) (n : task_func R E F) :
    life n -> state n = unwrapped ->
    is_finished (state child) = true ->
    slots_match_state (view_of child) = true ->
    life (snd (snd (unwrapped_func ctor_throws moved_from sh self peer
                      (child, n))))
| life_move_result F (n : task_func R E F) :
    life n -> state n = completed ->
    life (snd (get_result_task moved_from solo n)).

End Life.

End Lifetime.

(* ================================================================== *)
(** ** Task unwrapping: parent, child and forwarding continuation *)
(* ================================================================== *)

Module Unwrap.
Import Task.
Local Open Scope task_scope.

Section World.
(** [R]: the result type shared by the unwrapping task and its child;
    [Fp], [Fc]: their function types. *)
Context {R E Fp Fc : Type}.

(** The function object of the forwarding continuation: an
    [unwrapped_func] (it holds the [task_ptr] of the parent) wrapped in a
    [continuation_exec_func] (it holds the child task handle). *)
Inductive forwarding_func := Forwarding.

(** The three nodes involved.  [forwarder] is the node that [then]
    allocates for the forwarding continuation; its result type is
    [fake_void]. *)
Record world := mk_world {
  parent : task_func R E Fp;
  child : task_func R E Fc;
  forwarder : task_func unit E forwarding_func
}.

(** [Result]'s move/copy constructor when the child's result is
    forwarded into the parent's slot, and what a moved-from child result
    holds. *)
Variable ctor_throws : R -> option E.
Variable moved_from : R -> R.
(** Whether [Child] is a [shared_task]. *)
Variable child_shared : bool.
(** The address of the forwarding continuation node. *)
Variable forwarder_ptr : task_ptr.
(** [Some e] when allocating the forwarding continuation in [then]
    throws [e]. *)
Variable alloc_throws : option E.

(** The parent's own continuations are outside this world. *)
Definition parent_h : handle R E Fp world :=
  mk_handle parent (fun n w => mk_world n (child w) (forwarder w))
            (fun _ => ret tt).

(** The child as [unwrapped_func] uses it: state, result and exception
    are read, its continuations play no part. *)
Definition child_payload : handle R E Fc world :=
  mk_handle child (fun n w => mk_world (parent w) n (forwarder w))
            (fun _ => ret tt).

(** Nothing is ever registered on the forwarding continuation: the task
    returned by [then] is dropped by [unwrapped_finish]. *)
Definition forwarder_h : handle unit E forwarding_func world :=
  mk_handle forwarder (fun n w => mk_world (parent w) (child w) n)
            (fun _ => ret tt).

(** [run] of the forwarding continuation: the general
    [continuation_exec_func] whose callable is the [unwrapped_func]. *)
Definition run_forwarder : M E world unit :=
  run (continuation_exec_func (fun _ => None)
         (fun _ => unwrapped_func ctor_throws moved_from child_shared
                     parent_h child_payload))
      forwarder_h.

(** Modelled from the spec: [inline_scheduler] (section 6: a trivial
    scheduler that runs the task synchronously on the caller), so
    [schedule_task(inline_scheduler(), t)] is [t->vtable->run(t)]. *)
Definition schedule_task_inline (run_task : M E world unit) : M E world unit :=
  run_task.

(** [task_func<inline_scheduler, ...>::schedule(parent, t)] for the
    forwarding continuation:
    [parent->run_continuation(sched, std::move(t))] with [t]'s scheduler. *)
Definition schedule_forwarder : M E world unit :=
  run_continuation (schedule_task_inline run_forwarder)
                   (fun e => cancel forwarder_h e).

(** The child with the schedule hook of its continuations: the
    forwarding continuation runs inline; the others are outside this
    world. *)
Definition child_h : handle R E Fc world :=
  mk_handle child (fun n w => mk_world (parent w) n (forwarder w))
            (fun c => if Nat.eqb c forwarder_ptr then schedule_forwarder
                      else ret tt).

(** Modelled from the spec: [child_task.then(inline_scheduler(), f)]
    with [f] an [unwrapped_func] ([task.h] is not part of the sources at
    hand).  Section 4.3: it registers an internal continuation on the
    child; registration is [add_continuation] (section 4.2).  The
    continuation node is allocated first, which may throw. *)
Definition child_then : M E world unit :=
  match alloc_throws with
  | Some e => throw e
  | None =>
      (fun w => (Ok tt, mk_world (parent w) (child w) (new_task Forwarding))) ;;
      add_continuation child_h schedule_forwarder forwarder_ptr
  end.

(** The world after [unwrapped_finish] was called while the child was
    not finished: the parent is [unwrapped] with its function destroyed,
    the forwarding continuation is allocated and registered last on the
    child. *)
Definition registered (w : world) : world :=
  mk_world
    (record EvDestroyFunc (set_func None
       (record (EvStore unwrapped) (set_state unwrapped (parent w)))))
    (set_continuations
       (mk_cv (items (continuations (child w)) ++ [forwarder_ptr]) false)
       (child w))
    (new_task Forwarding).

(** The outcome the parent is to take over from a child that finished
    with [o]: the child's value, unless moving it into the parent's slot
    throws; the child's exception. *)
Definition forwarded (o : R + E) : task_state * storage R E :=
  match o with
  | inl v => match ctor_throws v with
             | None => (completed, HoldsResult v)
             | Some e' => (canceled, HoldsExcept e')
             end
  | inr e => (canceled, HoldsExcept e)
  end.

(** The member calls that forwarding makes on the parent. *)
Definition forwarding_events (o : R + E) : list (event R E) :=
  match o with
  | inl v => match ctor_throws v with
             | None => [EvSetResult v; EvStore completed]
             | Some e' => [EvSetException e'; EvStore canceled]
             end
  | inr e => [EvSetException e; EvStore canceled]
  end.

(** A child that finished with [o]. *)
Definition holds_outcome (o : R + E) (n : task_func R E Fc) : Prop :=
  match o with
  | inl v => state n = completed /\ store n = HoldsResult v
  | inr e => state n = canceled /\ store n = HoldsExcept e
  end.

(** The last calls of any path on which the child, about to finish with
    [o], publishes its outcome: [finish()] once the result is in its
    slot, [cancel_base(e)] otherwise. *)
Definition child_finishes (o : R + E) : M E world unit :=
  match o with
  | inl v => step child_h (EvSetResult v) (set_store (HoldsResult v)) ;;
             finish child_h
  | inr e => cancel_base child_h e
  end.

End World.

End Unwrap.

(* ================================================================== *)
(** ** The partitioner driver ([include/async++/parallel_for.h]) *)
(* ================================================================== *)

Module ParallelFor.

(** The partitioner concept as [internal_parallel_for] uses it: a range
    that can be iterated ([begin()]/[end()]) and split.  [split p] is the
    pair of the partitioner returned by [p.split()] and of [p] after the
    call (the call narrows [p] itself to what was not split off). *)
Class Partitioner (P T : Type) := {
  elements : P -> list T;
  split : P -> P * P
}.

(** What a partitioner owes its callers: splitting neither loses nor
    duplicates an element, and a split that hands out something keeps
    something. *)
Class PartitionerLaws (P T : Type) `{Partitioner P T} : Prop := {
  split_elements : forall p,
    Permutation (elements (fst (split p)) ++ elements (snd (split p)))
                (elements p);
  split_proper : forall p,
    elements (fst (split p)) <> [] -> elements (snd (split p)) <> []
}.

Section Driver.
Context {P T : Type} `{Partitioner P T}.

(** [subpart.begin() == subpart.end()] *)
Definition is_empty (p : P) : bool :=
  match elements p with [] => true | _ => false end.

(** [internal_parallel_for(sched, partitioner, func)], as the list of the
    elements [func] is applied to, in order, under the schedule in which
    the locally spawned task is run by the spawning thread when it joins
    ([t.get()]).  Recursion is bounded by [fuel]. *)
Fixpoint internal_parallel_for (fuel : nat) (partitioner : P) : option (list T) :=
  match fuel with
  | O => None
  | S fuel' =>
      let '(subpart, partitioner') := split partitioner in
      if is_empty subpart
      then (* [for (auto&& i: partitioner) func(i);] *)
           Some (elements partitioner')
      else match internal_parallel_for fuel' partitioner',
                 internal_parallel_for fuel' subpart with
           | Some inline, Some spawned => Some (inline ++ spawned)
           | _, _ => None
           end
  end.

(** The calls of two tasks running in parallel, merged in some order. *)
Inductive interleaving : list T -> list T -> list T -> Prop :=
| interleaving_nil : interleaving [] [] []
| interleaving_left x l1 l2 l :
    interleaving l1 l2 l -> interleaving (x :: l1) l2 (x :: l)
| interleaving_right x l1 l2 l :
    interleaving l1 l2 l -> interleaving l1 (x :: l2) (x :: l).

(** [visits p tr]: [tr] is a sequence of applications of [func] that a
    call of [internal_parallel_for] on [p] can produce, whatever the
    scheduler does with the spawned tasks.  The join before returning
    makes every call of the spawned half part of [tr]. *)
Inductive visits : P -> list T -> Prop :=
| visits_inline p :
    is_empty (fst (split p)) = true ->
    visits p (elements (snd (split p)))
| visits_fork p spawned inline tr :
    is_empty (fst (split p)) = false ->
    visits (fst (split p)) spawned ->
    visits (snd (split p)) inline ->
    interleaving spawned inline tr ->
    visits p tr.

End Driver.

(** An instance of the concept: an integer range [[lo, hi)] halved down
    to a grain size.  [split] hands out the upper half and keeps the
    lower one; at or below the grain size it hands out the empty range at
    [hi]. *)
Record range_partitioner := mk_range {
  lo : nat;
  hi : nat;
  grain : nat
}.

Definition range_split (p : range_partitioner)
  : range_partitioner * range_partitioner :=
  let length := hi p - lo p in
  if length <=? grain p
  then (mk_range (hi p) (hi p) (grain p), p)
  else let mid := lo p + (length + 1) / 2 in
       (mk_range mid (hi p) (grain p), mk_range (lo p) mid (grain p)).

#[export] Instance range_is_partitioner : Partitioner range_partitioner nat := {
  elements p := seq (lo p) (hi p - lo p);
  split := range_split
}.

End ParallelFor.
(* ================================================================== *)
(** ** The tasks spawned by the partitioner driver *)
(* ================================================================== *)

Module ParallelForCost.
Import ParallelFor.

Section Spawns.
Context {P T : Type} `{Partitioner P T}.

(** [internal_parallel_for(sched, partitioner, func)], as the number of
    calls of [async::local_spawn] it makes, the recursive calls
    included.  Recursion is bounded by [fuel]. *)
Fixpoint spawned_tasks (fuel : nat) (partitioner : P) : option nat :=
  match fuel with
  | O => None
  | S fuel' =>
      let '(subpart, partitioner') := split partitioner in
      if is_empty subpart
      then Some 0
      else match spawned_tasks fuel' partitioner',
                 spawned_tasks fuel' subpart with
           | Some inline, Some spawned => Some (1 + inline + spawned)
           | _, _ => None
           end
  end.

End Spawns.

End ParallelForCost.

(* ================================================================== *)
(** ** Registration racing with finish ([task_base::add_continuation]
       against [task_base::finish] / [task_result::cancel_base]) *)
(* ================================================================== *)

Module Registration.
Import Task.

(** Where a thread calling [add_continuation(sched, cont)] stands. *)
Inductive registrant_pc :=
| AtLoad        (* before [state.load(std::memory_order_relaxed)] *)
| AtTryAdd      (* state seen unfinished: before [continuations.try_add] *)
| AtRunInline   (* before the fence and [run_continuation(sched, cont)] *)
| Registered    (* returned after [try_add] succeeded *)
| RanInline.    (* returned after running the continuation directly *)

(** Where the thread publishing the terminal state stands: [finish()] or
    [cancel_base()] once the payload is in its slot. *)
Inductive finisher_pc :=
| AtStore                          (* before [state.store(terminal, release)] *)
| AtFlush                          (* before [flush_and_lock] seals the list *)
| Flushing (todo : list task_ptr)  (* calling the lambda on the entries *)
| Finished.

(** Who handed a continuation to its scheduler. *)
Inductive invoker := ByFlush | ByRegistrant.

(** The task as the threads share it, and the threads. *)
Record config := mk_config {
  shared_state : task_state;
  shared_list : continuation_vector;
  finisher : finisher_pc;
  registrants : list (task_ptr * registrant_pc);
  invoked : list (invoker * task_ptr)
}.

(** Which thread takes the next atomic step.  A relaxed load may return
    the initial value [pending] although the terminal state has been
    stored ([stale]). *)
Inductive choice :=
| Finisher
| Registrant (i : nat) (stale : bool).

Fixpoint update {A} (l : list A) (i : nat) (a : A) : list A :=
  match l, i with
  | [], _ => []
  | _ :: l', O => a :: l'
  | x :: l', S i' => x :: update l' i' a
  end.

Section Steps.
(** The state the finisher publishes: [completed] or [canceled]. *)
Variable terminal : task_state.

(** One step of the finisher:
<<
      state.store(terminal, std::memory_order_release);
      continuations.flush_and_lock([this](task_ptr t) {
          t->vtable->schedule(this, std::move(t)); });
>> *)
Definition finisher_step (c : config) : option config :=
  match finisher c with
  | AtStore =>
      Some (mk_config terminal (shared_list c) AtFlush
                      (registrants c) (invoked c))
  | AtFlush =>
      let '(todo, cv) := flush_and_lock (shared_list c) in
      Some (mk_config (shared_state c) cv (Flushing todo)
                      (registrants c) (invoked c))
  | Flushing (t :: todo) =>
      Some (mk_config (shared_state c) (shared_list c) (Flushing todo)
                      (registrants c) (invoked c ++ [(ByFlush, t)]))
  | Flushing [] =>
      Some (mk_config (shared_state c) (shared_list c) Finished
                      (registrants c) (invoked c))
  | Finished => None
  end.

(** One step of the [i]-th registrant:
<<
      task_state current_state = state.load(std::memory_order_relaxed);
      if (!is_finished(current_state)) {
          if (continuations.try_add(std::move(cont)))
              return;
      }
      std::atomic_thread_fence(std::memory_order_acquire);
      run_continuation(sched, std::move(cont));
>> *)
Definition registrant_step (i : nat) (stale : bool) (c : config) : option config :=
  match nth_error (registrants c) i with
  | None => None
  | Some (cont, pc) =>
      match pc with
      | AtLoad =>
          let current_state := if stale then pending else shared_state c in
          let pc' := if negb (is_finished current_state)
                     then AtTryAdd else AtRunInline in
          Some (mk_config (shared_state c) (shared_list c) (finisher c)
                          (update (registrants c) i (cont, pc')) (invoked c))
      | AtTryAdd =>
          let '(added, cv) := try_add cont (shared_list c) in
          let pc' := if added then Registered else AtRunInline in
          Some (mk_config (shared_state c) cv (finisher c)
                          (update (registrants c) i (cont, pc')) (invoked c))
      | AtRunInline =>
          Some (mk_config (shared_state c) (shared_list c) (finisher c)
                          (update (registrants c) i (cont, RanInline))
                          (invoked c ++ [(ByRegistrant, cont)]))
      | Registered | RanInline => None
      end
  end.

Definition take_step (ch : choice) (c : config) : option config :=
  match ch with
  | Finisher => finisher_step c
  | Registrant i stale => registrant_step i stale c
  end.

(** An interleaving: the choices in order; a thread that has returned
    takes no step. *)
Fixpoint interleave (sched : list choice) (c : config) : config :=
  match sched with
  | [] => c
  | ch :: sched' =>
      match take_step ch c with
      | Some c' => interleave sched' c'
      | None => interleave sched' c
      end
  end.

End Steps.

(** A pending task with no continuation yet, about to finish, and the
    threads registering the continuations [conts]. *)
Definition initial (conts : list task_ptr) : config :=
  mk_config pending empty_cv AtStore
            (map (fun cont => (cont, AtLoad)) conts) [].

Definition returned (pc : registrant_pc) : bool :=
  match pc with Registered | RanInline => true | _ => false end.

(** Every thread has returned. *)
Definition quiescent (c : config) : bool :=
  match finisher c with Finished => true | _ => false end
  && forallb (fun r => returned (snd r)) (registrants c).

Definition invoker_eq_dec (a b : invoker) : {a = b} + {a <> b}.
Proof. decide equality. Defined.

Definition invocation_eq_dec (a b : invoker * task_ptr) : {a = b} + {a <> b}.
Proof. decide equality; [apply Nat.eq_dec | apply invoker_eq_dec]. Defined.

(** How many times [cont] was handed to its scheduler, by whom. *)
Definition invocations (by_whom : invoker) (cont : task_ptr) (c : config) : nat :=
  count_occ invocation_eq_dec (invoked c) (by_whom, cont).

(** The entries the finisher has taken out of the list and not yet
    handed over. *)
Definition todo_of (f : finisher_pc) : list task_ptr :=
  match f with Flushing todo => todo | _ => [] end.

(** Whether the finisher has sealed the list. *)
Definition has_flushed (f : finisher_pc) : bool :=
  match f with Flushing _ | Finished => true | _ => false end.

(** How many times [cont] is in the hands of the finisher's side: in the
    list, taken out of it, or handed over by the flush. *)
Definition held (cont : task_ptr) (c : config) : nat :=
  count_occ Nat.eq_dec (items (shared_list c)) cont
  + count_occ Nat.eq_dec (todo_of (finisher c)) cont
  + invocations ByFlush cont c.

(** The atomic steps a thread still has to take, at most. *)
Definition registrant_steps (pc : registrant_pc) : nat :=
  match pc with
  | AtLoad => 3 | AtTryAdd => 2 | AtRunInline => 1
  | Registered | RanInline => 0
  end.

Definition finisher_steps (c : config) : nat :=
  match finisher c with
  | AtStore => 3 + length (items (shared_list c))
  | AtFlush => 2 + length (items (shared_list c))
  | Flushing todo => 1 + length todo
  | Finished => 0
  end.

Definition steps_left (c : config) : nat :=
  finisher_steps c
  + list_sum (map (fun r => registrant_steps (snd r)) (registrants c)).

(** What holds of a registrant in a configuration: its continuation is
    held by the finisher's side exactly when it registered, and was run
    inline exactly when the registrant did so. *)
Definition registrant_ok (c : config) (r : task_ptr * registrant_pc) : Prop :=
  held (fst r) c = (match snd r with Registered => 1 | _ => 0 end)
  /\ invocations ByRegistrant (fst r) c
     = (match snd r with RanInline => 1 | _ => 0 end).

(** The invariant of the race. *)
Record inv (c : config) : Prop := {
  inv_distinct : NoDup (map fst (registrants c));
  inv_registrants : Forall (registrant_ok c) (registrants c);
  inv_strangers : forall cont, ~ In cont (map fst (registrants c)) ->
      held cont c = 0 /\ invocations ByRegistrant cont c = 0;
  inv_sealed : sealed (shared_list c) = has_flushed (finisher c);
  inv_emptied : sealed (shared_list c) = true -> items (shared_list c) = []
}.

End Registration.

(* ================================================================== *)
(** ** Moving aligned arrays ([include/async++/aligned_alloc.h]) *)
(* ================================================================== *)

Module AlignedMoves.

(** An [aligned_array] object with the identity of its block: [length]
    and [ptr] ([None] is [nullptr], [Some p] the block number [p]). *)
Record owned_array := mk_owned {
  own_length : nat;
  own_ptr : option nat
}.

(** [aligned_array()] and [aligned_array(std::nullptr_t)] *)
Definition null_array : owned_array := mk_owned 0 None.

(** What the destructor does, with the pointer it does it through. *)
Inductive mem_event :=
| MDestroy (ptr : option nat) (i : nat)   (* [ptr[i].~T()] *)
| MFree (ptr : option nat).               (* [aligned_free(ptr)] *)

(** [~aligned_array()] *)
Definition destroy_array (a : owned_array) : list mem_event :=
  map (MDestroy (own_ptr a)) (seq 0 (own_length a)) ++ [MFree (own_ptr a)].

(** The objects of a program, named by their position; the sizes of the
    blocks allocated so far (block [p] has [nth p sizes 0] elements); and
    what the destructors have done so far. *)
Record store := mk_store {
  vars : list owned_array;
  sizes : list nat;
  mlog : list mem_event
}.

Definition empty_store : store := mk_store [] [] [].

(** [aligned_array a(n);] with no constructor throwing: a new object
    owning a new block. *)
Definition new_array (n : nat) (s : store) : store :=
  mk_store (vars s ++ [mk_owned n (Some (length (sizes s)))])
           (sizes s ++ [n]) (mlog s).

(** [aligned_array b(std::move(a));] with [a] the object at [j]:
<<
      : length(other.length), ptr(other.ptr)
      { other.ptr = nullptr; other.length = 0; }
>> *)
Definition move_construct (j : nat) (s : store) : store :=
  match nth_error (vars s) j with
  | None => s
  | Some other =>
      mk_store (Registration.update (vars s) j null_array
                  ++ [mk_owned (own_length other) (own_ptr other)])
               (sizes s) (mlog s)
  end.

(** [a = std::move(b);] with [a] the object at [i] and [b] the one at
    [j], which may be the same object:
<<
      aligned_array(std::move( *this));
      std::swap(ptr, other.ptr);
      std::swap(length, other.length);
>>
    The temporary of the first statement takes over what [*this] holds
    and is destroyed at the end of that statement. *)
Definition move_assign (i j : nat) (s : store) : store :=
  match nth_error (vars s) i with
  | None => s
  | Some this =>
      let emptied := Registration.update (vars s) i null_array in
      match nth_error emptied j with
      | None => s
      | Some other =>
          mk_store (Registration.update
                      (Registration.update emptied i other) j null_array)
                   (sizes s)
                   (mlog s ++ destroy_array this)
      end
  end.

(** [a = nullptr;]: [return *this = aligned_array();].  The empty
    temporary on the right is destroyed after the assignment. *)
Definition assign_null (i : nat) (s : store) : store :=
  match nth_error (vars s) i with
  | None => s
  | Some this =>
      mk_store (Registration.update (vars s) i null_array)
               (sizes s)
               (mlog s ++ destroy_array this ++ destroy_array null_array)
  end.

(** The statements of a program over arrays. *)
Inductive statement :=
| New (n : nat)
| MoveConstruct (j : nat)
| MoveAssign (i j : nat)
| AssignNull (i : nat).

Definition exec (st : statement) (s : store) : store :=
  match st with
  | New n => new_array n s
  | MoveConstruct j => move_construct j s
  | MoveAssign i j => move_assign i j s
  | AssignNull i => assign_null i s
  end.

(** A whole program: its statements in order, then every object goes
    out of scope, the last declared first. *)
Definition run_program (prog : list statement) : store :=
  let s := fold_left (fun s st => exec st s) prog empty_store in
  mk_store [] (sizes s) (mlog s ++ flat_map destroy_array (rev (vars s))).

Definition mem_event_eq_dec (a b : mem_event) : {a = b} + {a <> b}.
Proof. repeat decide equality. Defined.

(** How many times block [p] was freed, and how many times the element
    [i] of block [p] was destroyed. *)
Definition freed (p : nat) (l : list mem_event) : nat :=
  count_occ mem_event_eq_dec l (MFree (Some p)).
Definition destroyed_at (p i : nat) (l : list mem_event) : nat :=
  count_occ mem_event_eq_dec l (MDestroy (Some p) i).

(** *** Ownership *)

(** Whether [a] is the pointer to block [p], as a number. *)
Definition points_to (a : option nat) (p : nat) : nat :=
  match a with Some q => if q =? p then 1 else 0 | None => 0 end.

(** How many objects own block [p]. *)
Definition owners (p : nat) (l : list owned_array) : nat :=
  list_sum (map (fun x => points_to (own_ptr x) p) l).

(** An object either points to an allocated block and has its length, or
    is null and has length zero. *)
Definition valid (sizes : list nat) (x : owned_array) : Prop :=
  match own_ptr x with
  | Some p => nth_error sizes p = Some (own_length x)
  | None => own_length x = 0
  end.

Record ok (s : store) : Prop := {
  ok_valid : Forall (valid (sizes s)) (vars s);
  ok_owner : forall p,
    owners p (vars s) + freed p (mlog s)
    = if p <? length (sizes s) then 1 else 0;
  ok_elems : forall p i,
    destroyed_at p i (mlog s)
    = if i <? nth p (sizes s) 0 then freed p (mlog s) else 0;
  ok_null : forall i,
    count_occ mem_event_eq_dec (mlog s) (MDestroy None i) = 0
}.

(** Two arrays, of three and of two elements. *)
Definition two_arrays : store := new_array 2 (new_array 3 empty_store).

End AlignedMoves.
(* ================================================================== *)
(** ** Outcomes and the protocol of a task node *)
(* ================================================================== *)

Module Protocol.
Import Task Worlds Lifetime.
Local Open Scope task_scope.

Section Outcomes.
Context {R E : Type}.
Variable ctor_throws : R -> option E.

(** What a task ends with when its callable ends with [r]: the value
    returned, unless constructing it in the result slot throws; the
    exception thrown. *)
Definition stored_outcome (r : R + E) : R + E :=
  match r with
  | inl v => match ctor_throws v with None => inl v | Some e => inr e end
  | inr e => inr e
  end.

(** What a value continuation with callable [g] ends with when its
    parent ended with [o]. *)
Definition continued {P} (g : callable P R E) (o : P + E) : R + E :=
  match o with
  | inl v => stored_outcome (g v)
  | inr e => inr e
  end.

(** What [get()] does on a task that ended with [o]. *)
Definition observed (o : R + E) : outcome E R :=
  match o with inl v => Ok v | inr e => Exn e end.

(** The node after [cancel(t, e)]. *)
Definition canceled_with {F} (e : E) (n : task_func R E F) : task_func R E F :=
  flushed (record (EvStore canceled) (set_state canceled
    (record (EvSetException e) (set_store (HoldsExcept e)
      (record EvDestroyFunc (set_func None n)))))).

(** [get()] through a shared handle: [wait_and_throw] then
    [get_result]. *)
Definition shared_get {F W} (wait_for_task : M E W unit)
    (t : handle R E F W) : M E W R :=
  wait_and_throw wait_for_task t ;; get_result_shared t.

Definition is_invoke (ev : event R E) : bool :=
  match ev with EvInvoke => true | _ => false end.
Definition is_schedule (c : task_ptr) (ev : event R E) : bool :=
  match ev with EvSchedule c' => Nat.eqb c' c | _ => false end.

End Outcomes.

Section FailingScheduler.
(** A task ([P], [Fp]) and one of its continuations ([R], [F]), at
    address [cont_ptr], whose scheduler does [sched] when handed a task. *)
Context {P R E Fp F : Type}.
Variable cont_ptr : task_ptr.
Variable sched : M E (task_func P E Fp * task_func R E F) unit.

(** [task_func<Sched, ...>::schedule(parent, t)] for the continuation at
    [cont_ptr]: [parent->run_continuation(sched, std::move(t))]; the
    other continuations are outside this world. *)
Definition parent_of_cont
  : handle P E Fp (task_func P E Fp * task_func R E F) :=
  mk_handle fst (fun n w => (n, snd w))
    (fun c => if Nat.eqb c cont_ptr
              then run_continuation sched (fun e => cancel self e)
              else ret tt).

End FailingScheduler.

Section Shapes.
Context {R E : Type}.

(** The member calls that make up the protocol of a node, without their
    arguments.  Scheduling a continuation and moving the result out are
    not part of it. *)
Inductive kind :=
| KInvoke | KSetResult | KSetException | KDestroyFunc
| KStore (s : task_state).

Definition kind_of (ev : event R E) : list kind :=
  match ev with
  | EvInvoke => [KInvoke]
  | EvSetResult _ => [KSetResult]
  | EvSetException _ => [KSetException]
  | EvDestroyFunc => [KDestroyFunc]
  | EvStore s => [KStore s]
  | _ => []
  end.

Definition kinds (l : list (event R E)) : list kind := flat_map kind_of l.

(** The protocols a node can have gone through, with the state each
    leaves the node in. *)
Definition lives : list (list kind * task_state) :=
  [ ([], pending);
    ([KDestroyFunc; KSetException; KStore canceled], canceled);
    ([KInvoke; KSetResult; KDestroyFunc; KStore completed], completed);
    ([KInvoke; KDestroyFunc; KSetException; KStore canceled], canceled);
    ([KInvoke; KStore unwrapped; KDestroyFunc], unwrapped);
    ([KInvoke; KStore unwrapped; KDestroyFunc;
      KSetResult; KStore completed], completed);
    ([KInvoke; KStore unwrapped; KDestroyFunc;
      KSetException; KStore canceled], canceled) ].

(** The continuation list is sealed exactly when the task is finished,
    and a sealed list is empty. *)
Definition list_matches_state (cv : continuation_vector) (s : task_state)
  : Prop :=
  sealed cv = is_finished s /\ (sealed cv = true -> items cv = []).

Record shape {F} (n : task_func R E F) : Prop := {
  shape_life : In (kinds (events n), state n) lives;
  shape_list : list_matches_state (continuations n) (state n)
}.

End Shapes.
Arguments kind : clear implicits.

End Protocol.

(* ================================================================== *)
(** ** Scenarios *)
(* ================================================================== *)

Module Scenarios.
Import Task Worlds Unwrap ParallelFor Registration.

(** A task with two registered continuations, canceled with exception 7. *)
Definition cancel_sample : task_func nat nat unit :=
  mk_task pending (mk_cv [11; 12] false) HoldsSched (Some tt) [].

(** Scenario 3 of the specification: the parent was canceled with
    exception 5; a value continuation with two continuations of its own. *)
Definition canceled_parent : task_func nat nat (callable unit nat nat) :=
  mk_task canceled (mk_cv [] true) (HoldsExcept 5) None [].
Definition value_cont : task_func nat nat (callable nat nat nat) :=
  mk_task pending (mk_cv [21; 22] false) HoldsSched (Some (fun x => inl (x + 2))) [].

(** Scenario 2 of the specification: a parent completed with 1 and a
    value continuation adding 2. *)
Definition completed_parent : task_func nat nat (callable unit nat nat) :=
  mk_task completed (mk_cv [] true) (HoldsResult 1) None [].
Definition adding_cont : task_func nat nat (callable nat nat nat) :=
  new_task (fun x => inl (x + 2)).

(** Scenario 4 of the specification: a continuation taking the parent
    task itself, which returns 7 whatever the parent's state. *)
Definition recovering_cont
  : task_func nat nat (callable task_state nat nat) :=
  new_task (fun _ => inl 7).

(** Scenario 1 of the specification: a root task returning 42, with one
    continuation registered before it runs. *)
Definition root_42 : task_func nat nat (callable unit nat nat) :=
  mk_task pending (mk_cv [31] false) HoldsSched (Some (fun _ => inl 42)) [].

(** A root task returning 1, not run yet. *)
Definition root_1 : task_func nat nat (callable unit nat nat) :=
  new_task (fun _ => inl 1).

(** A root task returning 42, after [run]. *)
Definition ran_42 : task_func nat nat (callable unit nat nat) :=
  snd (Task.run (root_exec_func (fun _ => None)) solo
         (new_task (fun _ => inl 42))).

(** A node destroyed while still pending, and one destroyed after it was
    canceled. *)
Definition never_ran : task_func nat nat (callable unit nat nat) :=
  new_task (fun _ => inl 42).

(** The parent ([f] returns the child task) has one continuation 41; the
    child, a root task, has completed with 9 in the first world and is
    still pending, with one continuation 42, in the second. *)
Definition unwrapping_parent : task_func nat nat (callable unit unit nat) :=
  mk_task pending (mk_cv [41] false) HoldsSched (Some (fun _ => inl tt)) [].
Definition child_done : task_func nat nat (callable unit nat nat) :=
  mk_task completed (mk_cv [] true) (HoldsResult 9) None [].
Definition child_pending : task_func nat nat (callable unit nat nat) :=
  mk_task pending (mk_cv [42] false) HoldsSched (Some (fun _ => inl 9)) [].

(** The range [[0, 5)] with grain size 1. *)
Definition range_0_5 : range_partitioner := mk_range 0 5 1.

(** The range [[3, 7)] with grain size 2. *)
Definition range_3_7 : range_partitioner := mk_range 3 7 2.

(** Three continuations 1, 2, 3; the first registrant registers before
    the terminal store, the second loads the state after it, the third
    loads a stale [pending] and finds the list sealed. *)
Definition race : list choice :=
  [Registrant 0 false; Registrant 0 false; Registrant 2 true;
   Finisher; Registrant 1 false; Finisher; Registrant 2 false;
   Finisher; Registrant 1 false; Finisher; Registrant 2 false].

(** The task has completed and handed over continuation 4; the thread
    registering continuation 5 has not started. *)
Definition sealed_config : config :=
  mk_config completed (mk_cv [] true) Finished [(5, AtLoad)] [(ByFlush, 4)].

End Scenarios.
(* ================================================================== *)
(** ** Properties of the wait event *)
(* ================================================================== *)

Module WaitEventFacts.
Import WaitEvent.
Local Open Scope Z_scope.

Lemma is_int_bits (z : Z) :
  is_int z <-> (forall i, 31 <= i -> Z.testbit z i = Z.testbit z 31).
Proof.
  unfold is_int, int_min, int_max. split.
  - intros Hz i Hi.
    destruct (Z.neg_nonneg_cases z) as [Hneg | Hpos].
    + (* negative: all bits from 31 on are set *)
      assert (Hb : forall j, 31 <= j -> Z.testbit z j = true).
      { intros j Hj.
        replace z with (Z.lnot (Z.lnot z)) by apply Z.lnot_involutive.
        rewrite Z.lnot_spec by lia.
        rewrite Z.bits_above_log2; [reflexivity| |].
        - unfold Z.lnot. lia.
        - unfold Z.lnot.
          destruct (Z.eq_dec z (-1)) as [->|Hne]; [simpl; lia|].
          apply Z.lt_le_trans with 31; [|lia].
          apply Z.log2_lt_pow2; [unfold Z.pred; lia|]. unfold Z.pred. lia. }
      rewrite (Hb i Hi), (Hb 31); [reflexivity | lia].
    + assert (Hb : forall j, 31 <= j -> Z.testbit z j = false).
      { intros j Hj.
        destruct (Z.eq_dec z 0) as [->|Hne]; [apply Z.bits_0|].
        apply Z.bits_above_log2; [lia|].
        apply Z.lt_le_trans with 31; [|lia].
        apply Z.log2_lt_pow2; lia. }
      rewrite (Hb i Hi), (Hb 31); [reflexivity | lia].
  - intros Hb.
    destruct (Z.testbit z 31) eqn:H31.
    + (* sign bit set: z is negative and at least -2^31 *)
      assert (Hn : Z.lnot z < 2 ^ 31).
      { destruct (Z.eq_dec (Z.lnot z) 0) as [->|Hne]; [lia|].
        destruct (Z.neg_nonneg_cases (Z.lnot z)) as [Hneg | Hpos]; [lia|].
        apply Z.log2_lt_pow2; [lia|].
        destruct (Z.lt_ge_cases (Z.log2 (Z.lnot z)) 31) as [Hlt|Hge]; [exact Hlt|].
        exfalso.
        pose proof (Z.bit_log2 (Z.lnot z) ltac:(lia)) as Hl.
        rewrite Z.lnot_spec in Hl by (apply Z.log2_nonneg).
        rewrite (Hb _ Hge) in Hl. discriminate. }
      assert (Hneg : z < 0).
      { destruct (Z.neg_nonneg_cases z) as [Hneg | Hpos]; [exact Hneg|].
        exfalso.
        destruct (Z.eq_dec z 0) as [->|Hne]; [rewrite Z.bits_0 in H31; discriminate|].
        pose proof (Z.bit_log2 z ltac:(lia)) as Hl.
        destruct (Z.lt_ge_cases (Z.log2 z) 31) as [Hlt|Hge].
        - assert (Z.testbit z 31 = false) by (apply Z.bits_above_log2; lia).
          congruence.
        - assert (Hx : Z.testbit z (Z.succ (Z.log2 z)) = false)
            by (apply Z.bits_above_log2; lia).
          rewrite Hb in Hx by lia. congruence. }
      unfold Z.lnot in Hn. lia.
    + assert (Hpos : 0 <= z).
      { destruct (Z.neg_nonneg_cases z) as [Hneg | Hpos]; [|exact Hpos].
        exfalso.
        assert (Hx : exists k, 31 <= k /\ Z.testbit z k = true).
        { exists (Z.max 31 (Z.succ (Z.log2 (Z.lnot z)))). split; [lia|].
          replace z with (Z.lnot (Z.lnot z)) at 1 by apply Z.lnot_involutive.
          rewrite Z.lnot_spec by lia.
          destruct (Z.eq_dec (Z.lnot z) 0) as [->|Hne];
            [rewrite Z.bits_0; reflexivity|].
          rewrite Z.bits_above_log2; [reflexivity| |lia].
          unfold Z.lnot. lia. }
        destruct Hx as (k & Hk & Hbit). rewrite Hb in Hbit by lia. congruence. }
      split; [lia|].
      destruct (Z.eq_dec z 0) as [->|Hne]; [lia|].
      assert (z < 2 ^ 31); [|lia].
      apply Z.log2_lt_pow2; [lia|].
      destruct (Z.lt_ge_cases (Z.log2 z) 31) as [Hlt|Hge]; [exact Hlt|].
      exfalso.
      pose proof (Z.bit_log2 z ltac:(lia)) as Hl.
      rewrite (Hb _ Hge) in Hl. congruence.
Qed.

(** The machine operations of [try_wait] and [signal] stay within [int]. *)
Lemma land_is_int a b : is_int a -> is_int b -> is_int (Z.land a b).
Proof.
  rewrite !is_int_bits. intros Ha Hb i Hi.
  rewrite !Z.land_spec, (Ha i Hi), (Hb i Hi). reflexivity.
Qed.

Lemma lnot_is_int a : is_int a -> is_int (Z.lnot a).
Proof.
  rewrite !is_int_bits. intros Ha i Hi.
  rewrite !Z.lnot_spec by lia. rewrite (Ha i Hi). reflexivity.
Qed.

Lemma lor_is_int a b : is_int a -> is_int b -> is_int (Z.lor a b).
Proof.
  rewrite !is_int_bits. intros Ha Hb i Hi.
  rewrite !Z.lor_spec, (Ha i Hi), (Hb i Hi). reflexivity.
Qed.

Lemma try_wait_in_range w e :
  is_int (event_mask w) -> is_int e ->
  is_int (event_mask (snd (try_wait w e))).
Proof.
  intros Hm He. simpl. apply land_is_int; [exact Hm | apply lnot_is_int, He].
Qed.

(** C8. For every wait-event state with mask [m] and every requested bit
    set [e], [try_wait e] returns true iff [(m & e) != 0]; after the call
    the mask is [m & ~e], that is: each bit of [e] is cleared and each bit
    outside [e] keeps the value it had in [m], so pending bits outside [e]
    are not lost.  The mutex/condvar initialisation flag is untouched. *)
Theorem try_wait_peeks_and_clears (w : task_wait_event) (e : Z) :
  let m := event_mask w in
  let r := fst (try_wait w e) in
  let w' := snd (try_wait w e) in
  (r = true <-> Z.land m e <> 0)
  /\ event_mask w' = Z.land m (Z.lnot e)
  /\ (forall i, 0 <= i ->
        Z.testbit (event_mask w') i
        = if Z.testbit e i then false else Z.testbit m i)
  /\ initialized w' = initialized w.
Proof.
  cbn zeta. unfold try_wait. cbn [fst snd event_mask initialized].
  repeat split.
  - intros H. apply negb_true_iff in H. apply Z.eqb_neq in H. exact H.
  - intros H. apply negb_true_iff. apply Z.eqb_neq. exact H.
  - intros i Hi. rewrite Z.land_spec, Z.lnot_spec by lia.
    destruct (Z.testbit e i), (Z.testbit (event_mask w) i); reflexivity.
Qed.

(** Both event kinds pending, asking for [task_finished] only: the call
    succeeds and [task_available] is still pending afterwards. *)
Example try_wait_keeps_other_bit :
  try_wait (mk_event 3 true) task_finished = (true, mk_event task_available true).
Proof. reflexivity. Qed.

Example try_wait_miss :
  try_wait (mk_event 2 true) task_finished = (false, mk_event 2 true).
Proof. reflexivity. Qed.

End WaitEventFacts.

(* ================================================================== *)
(** ** Properties of the aligned array *)
(* ================================================================== *)

Module AlignedArrayFacts.
Import AlignedArray.

Lemma construct_loop_throws_at k :
  forall todo i, i <= k -> k < i + todo ->
    construct_loop (throws_at k) i todo
    = (k, true, map EvConstruct (seq i (k - i))).
Proof.
  induction todo as [|todo IH]; intros i Hik Hk; [lia|].
  simpl. unfold throws_at at 1.
  destruct (Nat.eqb_spec i k) as [->|Hne].
  - rewrite Nat.sub_diag. reflexivity.
  - rewrite IH by lia.
    replace (k - i) with (S (k - S i)) by lia. reflexivity.
Qed.

Lemma cleanup_loop_repeat i : cleanup_loop i = repeat (EvDestroy i) i.
Proof.
  unfold cleanup_loop. generalize (EvDestroy i) as x. generalize 0 as s.
  generalize i as n. induction n as [|n IH]; intros s x; simpl; [reflexivity|].
  f_equal. apply IH.
Qed.

(** The whole trace of a construction that fails at index [k < n]. *)
Lemma construct_throws_at_trace n k :
  k < n ->
  construct (throws_at k) n
  = (inr tt,
     EvAlloc n :: map EvConstruct (seq 0 k)
       ++ repeat (EvDestroy k) k ++ [EvFree; EvRethrow]).
Proof.
  intros Hk. unfold construct.
  rewrite construct_loop_throws_at by lia.
  rewrite Nat.sub_0_r, cleanup_loop_repeat. reflexivity.
Qed.

Lemma destroyed_app l1 l2 j :
  destroyed (l1 ++ l2) j = destroyed l1 j + destroyed l2 j.
Proof. unfold destroyed. apply count_occ_app. Qed.

Lemma destroyed_constructs s n j :
  destroyed (map EvConstruct (seq s n)) j = 0.
Proof.
  unfold destroyed. apply count_occ_not_In.
  intros Hin. apply in_map_iff in Hin. destruct Hin as (x & Hx & _). discriminate.
Qed.

Lemma destroyed_repeat k n j :
  destroyed (repeat (EvDestroy k) n) j = if j =? k then n else 0.
Proof.
  unfold destroyed.
  destruct (Nat.eqb_spec j k) as [->|Hne].
  - apply count_occ_repeat_eq. reflexivity.
  - apply count_occ_repeat_neq. congruence.
Qed.

(** What the catch block destroys: when the constructor of element [k]
    throws, [~T()] runs [k] times on the element at index [k] (the one
    whose construction failed) and on no other element. *)
Lemma construct_throws_at_destroyed n k j :
  k < n ->
  destroyed (snd (construct (throws_at k) n)) j = if j =? k then k else 0.
Proof.
  intros Hk. rewrite construct_throws_at_trace by exact Hk.
  cbn [snd]. change (EvAlloc n :: ?l) with ([EvAlloc n] ++ l).
  rewrite !destroyed_app, destroyed_constructs, destroyed_repeat.
  unfold destroyed. simpl. lia.
Qed.

(** C10 (the code departs from the claim).  Length 2, the constructor of
    element 1 throws: element 0 was constructed and is never destroyed,
    while [~T()] runs on element 1, which was never constructed.  The
    memory is freed and the exception rethrown as claimed. *)
Theorem construct_cleanup_wrong_index :
  construct (throws_at 1) 2
    = (inr tt, [EvAlloc 2; EvConstruct 0; EvDestroy 1; EvFree; EvRethrow])
  /\ destroyed (snd (construct (throws_at 1) 2)) 0 = 0
  /\ destroyed (snd (construct (throws_at 1) 2)) 1 = 1.
Proof. repeat split. Qed.

(** The sibling path: the destructor of a fully built array destroys each
    element exactly once, subscripting with its loop variable. *)
Lemma destroyed_seq s n j :
  destroyed (map EvDestroy (seq s n)) j
  = if (s <=? j) && (j <? s + n) then 1 else 0.
Proof.
  unfold destroyed. revert s. induction n as [|n IH]; intros s.
  - simpl. destruct (Nat.leb_spec s j), (Nat.ltb_spec j (s + 0));
      simpl; try reflexivity; lia.
  - cbn [seq map count_occ].
    destruct (array_event_eq_dec (EvDestroy s) (EvDestroy j)) as [Heq|Hne];
      rewrite IH.
    + injection Heq as ->.
      destruct (Nat.leb_spec (S j) j), (Nat.leb_spec j j),
        (Nat.ltb_spec j (S j + n)), (Nat.ltb_spec j (j + S n));
        simpl; try reflexivity; lia.
    + assert (s <> j) by congruence.
      destruct (Nat.leb_spec (S s) j), (Nat.leb_spec s j),
        (Nat.ltb_spec j (S s + n)), (Nat.ltb_spec j (s + S n));
        simpl; try reflexivity; lia.
Qed.

Lemma destruct_each_once a j :
  destroyed (destruct a) j = if j <? length a then 1 else 0.
Proof.
  unfold destruct. rewrite destroyed_app, destroyed_seq.
  replace (destroyed [EvFree] j) with 0 by reflexivity.
  simpl. rewrite Nat.add_0_r. reflexivity.
Qed.

End AlignedArrayFacts.


(* ================================================================== *)
(** ** Properties of a task node *)
(* ================================================================== *)

Module TaskFacts.
Import Task Worlds Lifetime Scenarios.
Local Open Scope task_scope.

Lemma task_state_eqb_spec a b : reflect (a = b) (task_state_eqb a b).
Proof. destruct a, b; constructor; congruence. Qed.

Lemma solo_lens {R E F} : lens_ok (@solo R E F).
Proof. split; reflexivity. Qed.
Lemma solo_inert {R E F} : inert (@solo R E F).
Proof. intros c w. reflexivity. Qed.
Lemma peer_lens {P R E Fp F} : lens_ok (@peer P R E Fp F).
Proof. split; try reflexivity. intros [p c]. reflexivity. Qed.
Lemma self_lens {P R E Fp F} : lens_ok (@self P R E Fp F).
Proof. split; try reflexivity. intros [p c]. reflexivity. Qed.
Lemma self_inert {P R E Fp F} : inert (@self P R E Fp F).
Proof. intros c w. reflexivity. Qed.

Section Local.
Context {R E F W : Type}.
Variable t : handle R E F W.
Hypothesis Hlens : lens_ok t.
Hypothesis Hinert : inert t.

Lemma scheduled_nil (n : task_func R E F) : scheduled [] n = n.
Proof. unfold scheduled. simpl. rewrite app_nil_r. destruct n; reflexivity. Qed.

Lemma scheduled_cons c cs (n : task_func R E F) :
  scheduled cs (record (EvSchedule c) n) = scheduled (c :: cs) n.
Proof.
  unfold scheduled, record. destruct n as [s cv st f l]. cbn.
  rewrite <- app_assoc. reflexivity.
Qed.

Lemma for_each_schedule cs : forall w,
  for_each cs (fun c => step t (EvSchedule c) (fun n => n) ;; schedule t c) w
  = (Ok tt, put_node t (scheduled cs (node_of t w)) w).
Proof.
  induction cs as [|c cs IH]; intros w.
  - simpl. rewrite scheduled_nil, (put_get _ Hlens). reflexivity.
  - cbn [for_each]. unfold bind at 1. unfold bind at 1. unfold step at 1.
    rewrite Hinert, IH, (get_put _ Hlens), (put_put _ Hlens), scheduled_cons.
    reflexivity.
Qed.

Lemma run_continuations_eq w :
  run_continuations t w = (Ok tt, put_node t (flushed (node_of t w)) w).
Proof.
  unfold run_continuations, flush_and_lock.
  rewrite for_each_schedule, (get_put _ Hlens), (put_put _ Hlens).
  reflexivity.
Qed.

Lemma step_eq ev upd w :
  step t ev upd w = (Ok tt, put_node t (record ev (upd (node_of t w))) w).
Proof. reflexivity. Qed.

Lemma finish_eq w :
  finish t w
  = (Ok tt, put_node t (flushed (record (EvStore completed)
                                        (set_state completed (node_of t w)))) w).
Proof.
  unfold finish, bind, store_state. rewrite step_eq, run_continuations_eq.
  rewrite (get_put _ Hlens), (put_put _ Hlens). reflexivity.
Qed.

Lemma cancel_base_eq e w :
  cancel_base t e w
  = (Ok tt,
     put_node t
       (flushed (record (EvStore canceled)
          (set_state canceled
             (record (EvSetException e)
                (set_store (HoldsExcept e) (node_of t w)))))) w).
Proof.
  unfold cancel_base, bind, set_exception, store_state.
  rewrite !step_eq, run_continuations_eq.
  rewrite !(get_put _ Hlens), !(put_put _ Hlens). reflexivity.
Qed.

Lemma destroy_func_eq w f :
  func (node_of t w) = Some f ->
  destroy_func t w
  = (Ok tt, put_node t (record EvDestroyFunc (set_func None (node_of t w))) w).
Proof. intros Hf. unfold destroy_func. rewrite Hf. reflexivity. Qed.

Lemma cancel_eq e w f :
  func (node_of t w) = Some f ->
  cancel t e w
  = (Ok tt,
     put_node t
       (flushed (record (EvStore canceled)
          (set_state canceled
             (record (EvSetException e)
                (set_store (HoldsExcept e)
                   (record EvDestroyFunc (set_func None (node_of t w)))))))) w).
Proof.
  intros Hf. unfold cancel, bind. rewrite (destroy_func_eq _ f Hf), cancel_base_eq.
  rewrite !(get_put _ Hlens), !(put_put _ Hlens). reflexivity.
Qed.

End Local.

(** *** Reading the log *)

Section Log.
Context {R E F : Type}.
Implicit Types n : task_func R E F.

Lemma events_record ev n : events (record ev n) = events n ++ [ev].
Proof. unfold events, record. cbn. rewrite map_app. reflexivity. Qed.

Lemma events_scheduled cs n :
  events (scheduled cs n) = events n ++ map EvSchedule cs.
Proof.
  unfold events, scheduled. cbn. rewrite map_app, map_map. reflexivity.
Qed.

Lemma events_flushed n :
  events (flushed n) = events n ++ map EvSchedule (items (continuations n)).
Proof. unfold flushed. rewrite events_scheduled. reflexivity. Qed.

Lemma events_set_state s n : events (set_state s n) = events n.
Proof. reflexivity. Qed.
Lemma events_set_store s n : events (set_store s n) = events n.
Proof. reflexivity. Qed.
Lemma events_set_func f n : events (set_func f n) = events n.
Proof. reflexivity. Qed.
Lemma events_set_continuations c n : events (set_continuations c n) = events n.
Proof. reflexivity. Qed.
Lemma points_set_state s n : points (set_state s n) = points n.
Proof. reflexivity. Qed.
Lemma points_set_store s n : points (set_store s n) = points n.
Proof. reflexivity. Qed.
Lemma points_set_func f n : points (set_func f n) = points n.
Proof. reflexivity. Qed.
Lemma points_set_continuations c n : points (set_continuations c n) = points n.
Proof. reflexivity. Qed.

Lemma points_record ev n : points (record ev n) = points n ++ [view_of n].
Proof. unfold points, record. cbn. rewrite map_app. reflexivity. Qed.

Lemma points_scheduled cs n :
  points (scheduled cs n) = points n ++ map (fun _ => view_of n) cs.
Proof.
  unfold points, scheduled. cbn. rewrite map_app, map_map. reflexivity.
Qed.

Lemma points_flushed n :
  points (flushed n)
  = points n ++ map (fun _ => view_of n) (items (continuations n)).
Proof. unfold flushed. rewrite points_scheduled. reflexivity. Qed.

End Log.

Create Rewrite HintDb task_log.
#[export] Hint Rewrite @events_record @events_flushed @events_scheduled
  @events_set_state @events_set_store @events_set_func @events_set_continuations
  @points_record @points_flushed @points_scheduled
  @points_set_state @points_set_store @points_set_func @points_set_continuations
  : task_log.

(** Normalise the fields and the log of a node built from updates. *)
Ltac node_simpl :=
  repeat (autorewrite with task_log;
          cbn [state store func continuations items sealed node_of put_node solo
               set_state set_store set_func set_continuations record
               flushed scheduled]);
  rewrite <- ?app_assoc; cbn [app].

(** *** The cancel hook *)

Section Cancel.
Context {R E : Type}.
Variable ctor_throws : R -> option E.

(** What [cancel] does to a node whose function object is alive. *)
Lemma cancel_solo {F} (n : task_func R E F) (f : F) (e : E) :
  func n = Some f ->
  exists n',
    cancel solo e n = (Ok tt, n')
    /\ events n' = events n ++ [EvDestroyFunc; EvSetException e; EvStore canceled]
                     ++ map EvSchedule (items (continuations n))
    /\ state n' = canceled /\ store n' = HoldsExcept e /\ func n' = None
    /\ continuations n' = mk_cv [] true.
Proof.
  intros Hf. eexists. split.
  - apply (cancel_eq solo solo_lens solo_inert e n f Hf).
  - node_simpl. repeat split.
Qed.

(** [run] on a root task whose callable throws [e]. *)
Lemma run_root_throws (n : task_func R E (callable unit R E)) f e :
  func n = Some f -> f tt = inr e ->
  exists n',
    run (root_exec_func ctor_throws) solo n = (Ok tt, n')
    /\ events n' = events n
         ++ [EvInvoke; EvDestroyFunc; EvSetException e; EvStore canceled]
         ++ map EvSchedule (items (continuations n))
    /\ state n' = canceled /\ store n' = HoldsExcept e /\ func n' = None
    /\ continuations n' = mk_cv [] true.
Proof.
  intros Hf He.
  unfold run, try_catch, bind at 1, get_func. cbn [node_of solo]. rewrite Hf.
  unfold root_exec_func, bind at 1, invoke, bind at 1, step at 1, call.
  rewrite He. cbn [throw put_node node_of solo].
  destruct (cancel_solo (record EvInvoke n) f e Hf)
    as (n' & Hrun & Hev & Hst & Hsto & Hfu & Hcv).
  exists n'. rewrite Hrun. split; [reflexivity|].
  rewrite Hev, events_record, <- app_assoc. repeat split; assumption.
Qed.

(** C5 (as amended).  For every function-bearing task canceled with [e],
    the cancel hook first destroys the captured function object, then
    stores [e] in the exception slot, then publishes state [canceled],
    then drains the continuation list; the same holds when [e] escapes
    the user callable during [run], after the call itself. *)
Theorem cancel_destroys_then_stores {F} (n : task_func R E F) (f : F) (e : E) :
  func n = Some f ->
  (exists n',
     cancel solo e n = (Ok tt, n')
     /\ events n' = events n
          ++ [EvDestroyFunc; EvSetException e; EvStore canceled]
          ++ map EvSchedule (items (continuations n))
     /\ state n' = canceled /\ store n' = HoldsExcept e /\ func n' = None
     /\ continuations n' = mk_cv [] true)
  /\ (forall (g : callable unit R E) (m : task_func R E (callable unit R E)),
        func m = Some g -> g tt = inr e ->
        exists m',
          run (root_exec_func ctor_throws) solo m = (Ok tt, m')
          /\ events m' = events m
               ++ [EvInvoke; EvDestroyFunc; EvSetException e; EvStore canceled]
               ++ map EvSchedule (items (continuations m))
          /\ state m' = canceled /\ store m' = HoldsExcept e).
Proof.
  intros Hf. split.
  - exact (cancel_solo n f e Hf).
  - intros g m Hg He.
    destruct (run_root_throws m g e Hg He) as (m' & H1 & H2 & H3 & H4 & _).
    exists m'. repeat split; assumption.
Qed.

End Cancel.

Lemma cancel_destroys_then_stores_witness :
  func cancel_sample = Some tt
  /\ exists n', cancel solo 7 cancel_sample = (Ok tt, n')
       /\ events n' = [EvDestroyFunc; EvSetException 7; EvStore canceled;
                       EvSchedule 11; EvSchedule 12].
Proof.
  split; [reflexivity|].
  destruct (cancel_destroys_then_stores (fun _ => None) cancel_sample tt 7 eq_refl)
    as [(n' & Hrun & Hev & _) _].
  exists n'. split; [exact Hrun | exact Hev].
Defined.

(** C5 as stated fails: the function object is destroyed before the
    exception is stored, not after. *)
Lemma cancel_not_in_stated_order : ~ cancel_in_stated_order cancel_sample 7.
Proof. unfold cancel_in_stated_order. cbv. discriminate. Qed.

(** *** Value continuations of a canceled parent *)

Section ValueContinuation.
Context {P R E Fp : Type}.
Variable ctor_throws : R -> option E.
Variable parent_moved_from : P -> P.
Variable parent_shared : bool.

Let W : Type := (task_func P E Fp * task_func R E (callable P R E))%type.

(** C4.  For every value-style continuation whose parent is in state
    [canceled] (with exception [e]) when the continuation runs, the user
    callable is not invoked: the continuation destroys its function
    object, copies [e] into its own exception slot, publishes [canceled]
    and drains its own continuations.  The parent is left as it was. *)
Theorem value_continuation_of_canceled_parent
    (p : task_func P E Fp) (c : task_func R E (callable P R E))
    (f : callable P R E) (e : E) :
  state p = canceled -> store p = HoldsExcept e -> func c = Some f ->
  exists c' tail,
    run (continuation_exec_func_value ctor_throws parent_moved_from
           parent_shared peer) self (p, c)
    = (Ok tt, (p, c'))
    /\ events c' = events c ++ tail
    /\ tail = [EvDestroyFunc; EvSetException e; EvStore canceled]
                ++ map EvSchedule (items (continuations c))
    /\ ~ In EvInvoke tail
    /\ state c' = canceled /\ store c' = HoldsExcept e
    /\ func c' = None /\ continuations c' = mk_cv [] true.
Proof.
  intros Hs He Hf.
  eexists. eexists. split; [|split; [|split; [reflexivity|]]].
  - unfold run, try_catch, bind at 1, get_func. cbn [node_of self snd].
    rewrite Hf. unfold continuation_exec_func_value, bind at 1, load_state.
    cbn [node_of peer fst]. rewrite Hs. cbn [task_state_eqb].
    unfold bind at 1, get_exception. cbn [node_of peer fst]. rewrite He.
    rewrite (cancel_eq self self_lens self_inert e (p, c) f Hf).
    cbn [put_node self fst node_of snd]. reflexivity.
  - node_simpl. reflexivity.
  - split; [|node_simpl; repeat split].
    intros Hin. apply in_app_or in Hin. destruct Hin as [Hin|Hin].
    + simpl in Hin. intuition discriminate.
    + apply in_map_iff in Hin. destruct Hin as (x & Hx & _). discriminate.
Qed.

End ValueContinuation.

Lemma value_continuation_of_canceled_parent_witness :
  exists c',
    run (continuation_exec_func_value (fun _ => None) (fun x => x) false peer)
        self (canceled_parent, value_cont)
    = (Ok tt, (canceled_parent, c'))
    /\ events c' = [EvDestroyFunc; EvSetException 5; EvStore canceled;
                    EvSchedule 21; EvSchedule 22].
Proof.
  destruct (value_continuation_of_canceled_parent (fun _ => None) (fun x => x) false
              canceled_parent value_cont (fun x => inl (x + 2)) 5
              eq_refl eq_refl eq_refl)
    as (c' & tail & Hrun & Hev & Htail & _).
  exists c'. split; [exact Hrun|]. rewrite Hev, Htail. reflexivity.
Defined.

Example value_continuation_of_completed_parent :
  let w := snd (run (continuation_exec_func_value (fun _ => None) (fun x => x)
                       true peer) self (completed_parent, adding_cont)) in
  state (snd w) = completed /\ store (snd w) = HoldsResult 3
  /\ events (snd w)
     = [EvInvoke; EvSetResult 3; EvDestroyFunc; EvStore completed].
Proof. repeat split. Qed.

Example task_continuation_of_canceled_parent :
  let n := snd (run (continuation_exec_func (fun _ => None)
                       (fun f => call f (state canceled_parent)))
                    solo recovering_cont) in
  state n = completed /\ store n = HoldsResult 7
  /\ events n = [EvInvoke; EvSetResult 7; EvDestroyFunc; EvStore completed].
Proof. repeat split. Qed.

(** *** Root tasks *)

Section Root.
Context {R E : Type}.
Variable ctor_throws : R -> option E.
Variable moved_from : R -> R.
Implicit Types n : task_func R E (callable unit R E).

Lemma run_root_returns n f v :
  func n = Some f -> f tt = inl v -> ctor_throws v = None ->
  run (root_exec_func ctor_throws) solo n = (Ok tt, completed_with v n).
Proof.
  intros Hf Hv Hc.
  unfold run, try_catch, bind at 1, get_func. cbn [node_of solo]. rewrite Hf.
  unfold root_exec_func, bind at 1, invoke, bind at 1, step at 1, call.
  rewrite Hv. cbn [ret put_node node_of solo].
  unfold bind at 1, set_result. rewrite Hc. unfold step at 1.
  cbn [put_node node_of solo].
  unfold bind at 1.
  rewrite (destroy_func_eq solo _ f) by (cbn; exact Hf).
  rewrite (finish_eq solo solo_lens solo_inert).
  reflexivity.
Qed.

Lemma wait_finished (wft : M E (task_func R E (callable unit R E)) unit) n :
  is_finished (state n) = true ->
  wait wft solo n = (Ok (state n), n).
Proof.
  intros Hfin. unfold wait, bind, load_state. cbn [node_of solo].
  rewrite Hfin. reflexivity.
Qed.

Lemma shared_gets_completed wft n v k :
  state n = completed -> store n = HoldsResult v ->
  shared_gets wft solo k n = (Ok (repeat v k), n).
Proof.
  intros Hs Hr. induction k as [|k IH]; [reflexivity|].
  cbn [shared_gets]. unfold bind at 1, wait_and_throw, bind at 1.
  rewrite wait_finished by (rewrite Hs; reflexivity).
  rewrite Hs. cbn [task_state_eqb ret].
  unfold bind at 1, get_result_shared. cbn [node_of solo]. rewrite Hr.
  unfold bind. rewrite IH. reflexivity.
Qed.

(** C2.  For every root task whose callable returns [v] without
    throwing (and whose result can be move-constructed), [run] calls the
    callable, constructs [v] in the result slot, destroys the callable,
    publishes [completed] and drains the continuations.  Afterwards
    [wait_and_throw] returns at once, whatever the blocking primitive is,
    and reading the result through an exclusive handle yields [v] and
    leaves a moved-from result in the slot, while reading it through a
    shared handle yields [v] at every one of any number of calls and
    leaves the node as it is. *)
Theorem root_task_round_trip n f v :
  func n = Some f -> f tt = inl v -> ctor_throws v = None ->
  exists n',
    run (root_exec_func ctor_throws) solo n = (Ok tt, n')
    /\ events n' = events n
         ++ [EvInvoke; EvSetResult v; EvDestroyFunc; EvStore completed]
         ++ map EvSchedule (items (continuations n))
    /\ state n' = completed /\ store n' = HoldsResult v /\ func n' = None
    /\ (forall wft,
          bind (wait_and_throw wft solo) (fun _ => get_result_task moved_from solo) n'
          = (Ok v, record EvMoveResult (set_store (HoldsResult (moved_from v)) n')))
    /\ (forall wft k, shared_gets wft solo k n' = (Ok (repeat v k), n')).
Proof.
  intros Hf Hv Hc. exists (completed_with v n).
  split; [apply (run_root_returns n f v); assumption|].
  split; [unfold completed_with; node_simpl; reflexivity|].
  split; [reflexivity|]. split; [reflexivity|]. split; [reflexivity|].
  split.
  - intros wft. unfold bind at 1, wait_and_throw, bind at 1.
    rewrite wait_finished by reflexivity.
    reflexivity.
  - intros wft k. apply shared_gets_completed; reflexivity.
Qed.

(** When the move constructor of the result throws, the task is canceled
    with that exception instead. *)
Lemma run_root_ctor_throws n f v e :
  func n = Some f -> f tt = inl v -> ctor_throws v = Some e ->
  exists n',
    run (root_exec_func ctor_throws) solo n = (Ok tt, n')
    /\ events n' = events n
         ++ [EvInvoke; EvDestroyFunc; EvSetException e; EvStore canceled]
         ++ map EvSchedule (items (continuations n))
    /\ state n' = canceled /\ store n' = HoldsExcept e /\ func n' = None.
Proof.
  intros Hf Hv Hc.
  unfold run, try_catch, bind at 1, get_func. cbn [node_of solo]. rewrite Hf.
  unfold root_exec_func, bind at 1, invoke, bind at 1, step at 1, call.
  rewrite Hv. cbn [ret put_node node_of solo].
  unfold bind at 1, set_result. rewrite Hc. cbn [throw].
  destruct (cancel_solo (record EvInvoke n) f e Hf)
    as (n' & Hrun & Hev & Hst & Hsto & Hfu & _).
  exists n'. rewrite Hrun. split; [reflexivity|].
  rewrite Hev, events_record, <- app_assoc. repeat split; assumption.
Qed.

End Root.

Lemma root_task_round_trip_witness :
  exists n',
    run (root_exec_func (fun _ => None)) solo root_42 = (Ok tt, n')
    /\ events n' = [EvInvoke; EvSetResult 42; EvDestroyFunc; EvStore completed;
                    EvSchedule 31]
    /\ fst (bind (wait_and_throw (ret tt) solo)
                 (fun _ => get_result_task (fun _ => 0) solo) n') = Ok 42
    /\ fst (shared_gets (ret tt) solo 3 n') = Ok [42; 42; 42].
Proof.
  destruct (root_task_round_trip (fun _ => None) (fun _ => 0) root_42
              (fun _ => inl 42) 42 eq_refl eq_refl eq_refl)
    as (n' & Hrun & Hev & _ & _ & _ & Hex & Hsh).
  exists n'. split; [exact Hrun|]. split; [exact Hev|].
  rewrite Hex, Hsh. split; reflexivity.
Defined.

End TaskFacts.

(* ================================================================== *)
(** ** Invariants over the life of a task node *)
(* ================================================================== *)

Module LifetimeFacts.
Import Task Worlds Lifetime Scenarios TaskFacts.
Local Open Scope task_scope.

Section Counting.
Context {R E : Type}.
Implicit Types (l : list (event R E)) (p : event R E -> bool).

Lemma count_app p l1 l2 : count p (l1 ++ l2) = count p l1 + count p l2.
Proof. unfold count. rewrite filter_app, length_app. reflexivity. Qed.

Lemma count_schedules p cs :
  (forall c, p (EvSchedule c) = false) -> count p (map EvSchedule cs) = 0.
Proof.
  intros Hp. unfold count. induction cs as [|c cs IH]; [reflexivity|].
  cbn [map filter]. rewrite Hp. exact IH.
Qed.

Lemma Forall_const {A B} (Q : B -> Prop) (b : B) (l : list A) :
  Q b -> Forall Q (map (fun _ => b) l).
Proof. intros Hb. induction l; constructor; assumption. Qed.

End Counting.

Section Invariant.
Context {R E : Type}.

Lemma inv_new {F} (f : F) : node_inv (new_task (R:=R) (E:=E) f).
Proof. split; try reflexivity. constructor. Qed.

(** A pending node satisfying the invariant: its function is alive and
    its storage holds neither a result nor an exception. *)
Lemma inv_pending {F} (n : task_func R E F) :
  node_inv n -> state n = pending ->
  exists cv f l, n = mk_task pending cv HoldsSched (Some f) l.
Proof.
  intros [_ Hr Hf _] Hs. destruct n as [s cv st fo l]. cbn in *. subst s.
  destruct fo as [f|]; [|discriminate].
  destruct st; try discriminate. eauto.
Qed.


(** Draining, whatever form the loop body has been reduced to. *)
Lemma for_each_drain {F W} (t : handle R E F W) (Hl : lens_ok t) cs
    (g : task_ptr -> M E W unit) :
  (forall c w, g c w = (Ok tt, put_node t (record (EvSchedule c) (node_of t w)) w)) ->
  forall w, for_each cs g w = (Ok tt, put_node t (scheduled cs (node_of t w)) w).
Proof.
  intros Hg. induction cs as [|c cs IH]; intros w.
  - cbn. rewrite scheduled_nil, (put_get _ Hl). reflexivity.
  - cbn [for_each]. unfold bind. rewrite Hg, IH.
    rewrite (get_put _ Hl), (put_put _ Hl), scheduled_cons. reflexivity.
Qed.

Lemma points_mk {F} s cv st (fo : option F) (l : list (event R E * view R E)) :
  points (mk_task s cv st fo l) = map snd l.
Proof. reflexivity. Qed.
Lemma events_mk {F} s cv st (fo : option F) (l : list (event R E * view R E)) :
  events (mk_task s cv st fo l) = map fst l.
Proof. reflexivity. Qed.


Lemma inv_unwrapped {F} (n : task_func R E F) :
  node_inv n -> state n = unwrapped ->
  exists cv l, n = mk_task unwrapped cv HoldsSched None l.
Proof.
  intros [_ Hr Hf _] Hs. destruct n as [s cv st fo l]. cbn in *. subst s.
  destruct fo as [f|]; [discriminate|].
  destruct st; try discriminate. eauto.
Qed.

Lemma inv_completed {F} (n : task_func R E F) :
  node_inv n -> state n = completed ->
  exists cv v l, n = mk_task completed cv (HoldsResult v) None l.
Proof.
  intros [_ Hr Hf _] Hs. destruct n as [s cv st fo l]. cbn in *. subst s.
  destruct fo as [f|]; [discriminate|].
  destruct st; try discriminate. eauto.
Qed.

(** A finished task whose slots match its state. *)
Lemma finished_cases {P F} (p : task_func P E F) :
  is_finished (state p) = true -> slots_match_state (view_of p) = true ->
  (exists cv v fo l, p = mk_task completed cv (HoldsResult v) fo l)
  \/ (exists cv e fo l, p = mk_task canceled cv (HoldsExcept e) fo l).
Proof.
  intros Hfin Hm. destruct p as [s cv st fo l]. cbn in *.
  destruct s; try discriminate; destruct st; try discriminate;
    destruct fo; try discriminate; eauto 10.
Qed.

Lemma weak_schedules (v : view R E) cs :
  weak v ->
  Forall weak (map snd (map (fun c : task_ptr => (EvSchedule (R:=R) (E:=E) c, v)) cs)).
Proof.
  intros Hv. rewrite map_map. cbn [snd]. apply Forall_const. exact Hv.
Qed.

Lemma no_destroy_in_schedules (v : view R E) cs :
  filter is_destroy_func
    (map fst (map (fun c : task_ptr => (EvSchedule (R:=R) (E:=E) c, v)) cs)) = [].
Proof.
  rewrite map_map. cbn [fst]. induction cs as [|c cs IH]; [reflexivity|exact IH].
Qed.

(** The invariant carries over to a node whose log extends that of a
    node satisfying it, provided the new entries and the new fields fit. *)
Lemma inv_extend {F F'} (n : task_func R E F) s cv st (fo : option F') ext :
  Forall weak (points n) ->
  Forall weak (map snd ext) ->
  slots_match_state
    (mk_view s st (match fo with Some _ => true | None => false end)) = true ->
  (match fo with Some _ => true | None => false end) = task_state_eqb s pending ->
  count is_destroy_func (events n) + length (filter is_destroy_func (map fst ext))
  = (if task_state_eqb s pending then 0 else 1) ->
  node_inv (mk_task s cv st fo (log n ++ ext)).
Proof.
  intros Hp He Hr Hf Hc. split.
  - unfold points. cbn [log]. rewrite map_app. apply Forall_app. split; assumption.
  - exact Hr.
  - exact Hf.
  - unfold events. cbn [log state]. rewrite map_app.
    change (map fst (log n)) with (events n). rewrite count_app. exact Hc.
Qed.

End Invariant.

(** Symbolic execution of a member call on an explicit node. *)
Ltac exec_ops :=
  cbv [ret throw undefined bind try_catch
       step load_state store_state ready run_continuations flush_and_lock
       finish wait set_result get_result_task get_result_shared
       set_exception get_exception cancel_base wait_and_throw get_func
       destroy_func cancel run invoke try_add_continuation try_add
       run_continuation add_continuation
       dtor_task_func dtor_task_result dtor_task_result_holder destroy
       call root_exec_func unwrapped_func unwrapped_finish
       root_exec_func_unwrap get_parent_result continuation_exec_func
       continuation_exec_func_value continuation_exec_func_void
       continuation_exec_func_unwrap continuation_exec_func_value_unwrap
       continuation_exec_func_void_unwrap then_outcome
       node_of put_node schedule solo self peer
       state store func continuations log items sealed fst snd
       set_state set_store set_func set_continuations record view_of
       scheduled task_state_eqb is_finished negb orb].
Ltac exec_solo :=
  exec_ops;
  repeat (rewrite (for_each_drain solo solo_lens) by (intros; reflexivity);
          exec_ops).
Ltac exec_self :=
  exec_ops;
  repeat (rewrite (for_each_drain self self_lens) by (intros; reflexivity);
          exec_ops).

(** Discharge the side conditions of [inv_extend] on an explicit log
    extension ending in the entries of a drain. *)
Ltac weak_entries :=
  cbn [map snd];
  repeat first
    [ apply Forall_nil
    | apply weak_schedules; reflexivity
    | apply Forall_cons; [reflexivity|] ].
Ltac count_entries H :=
  cbn [map fst filter is_destroy_func length];
  rewrite ?no_destroy_in_schedules; cbn [length];
  rewrite H; reflexivity.
Ltac extend_from n H Hd :=
  cbv [scheduled record set_state set_store set_func set_continuations
       state continuations store func log view_of snd fst];
  rewrite <- ?app_assoc; cbn [app];
  apply (inv_extend n);
  [ exact H | weak_entries | reflexivity | reflexivity | count_entries Hd ].

Section Preservation.
Context {R E : Type}.
Variable ctor_throws : R -> option E.
Variable moved_from : R -> R.

Lemma inv_set_continuations {F} (n : task_func R E F) cv :
  node_inv n -> node_inv (set_continuations cv n).
Proof. intros [H1 H2 H3 H4]. split; assumption. Qed.

Lemma inv_add_continuation {F} (n : task_func R E F) c :
  node_inv n -> node_inv (snd (add_continuation solo (ret tt) c n)).
Proof.
  intros Hinv. destruct n as [s cv st fo l]. destruct cv as [its sl].
  exec_ops.
  destruct s, sl; cbn [fst snd]; try exact Hinv;
    exact (inv_set_continuations _ _ Hinv).
Qed.

Ltac start_pending n Hinv Hs cv f l Hp Hd :=
  destruct (inv_pending n Hinv Hs) as (cv & f & l & ->);
  destruct Hinv as [Hp _ _ Hd].
Ltac finished_peer p Hfin Hm :=
  let cv := fresh "pcv" in let v := fresh "pv" in let e := fresh "pe" in
  let fo := fresh "pfo" in let l := fresh "pl" in
  destruct (finished_cases p Hfin Hm)
    as [(cv & v & fo & l & ->)|(cv & e & fo & l & ->)].

(** Every node in the life of a task satisfies the invariant. *)
Lemma life_inv {F} (n : task_func R E F) :
  life ctor_throws moved_from n -> node_inv n.
Proof.
  induction 1 as
    [ F f
    | F n c Hl IH
    | F n e Hl IH Hs
    | n Hl IH Hs
    | n r Hl IH Hs
    | P n p Hl IH Hs
    | P Fp pm sh p n Hl IH Hs Hfin Hm
    | P Fp p n Hl IH Hs Hfin Hm
    | P n p r Hl IH Hs
    | P Fp pm sh p n r Hl IH Hs Hfin Hm
    | P Fp p n r Hl IH Hs Hfin Hm
    | F Fc sh child n Hl IH Hs Hfin Hm
    | F n Hl IH Hs ].
  - apply inv_new.
  - apply inv_add_continuation, IH.
  - start_pending n IH Hs cv f l Hp Hd. exec_solo.
    extend_from (mk_task (R:=R) (E:=E) pending cv HoldsSched (Some f) l) Hp Hd.
  - start_pending n IH Hs cv f l Hp Hd. exec_solo.
    destruct (f tt) as [v|e]; [destruct (ctor_throws v) as [e|]|];
      exec_solo;
      extend_from (mk_task (R:=R) (E:=E) pending cv HoldsSched (Some f) l) Hp Hd.
  - start_pending n IH Hs cv f l Hp Hd. exec_solo.
    destruct (f tt) as [[]|e]; [destruct r as [e|]|];
      exec_solo;
      extend_from (mk_task (R:=R) (E:=E) pending cv HoldsSched (Some f) l) Hp Hd.
  - start_pending n IH Hs cv f l Hp Hd. exec_solo.
    destruct (f p) as [v|e]; [destruct (ctor_throws v) as [e|]|];
      exec_solo;
      extend_from (mk_task (R:=R) (E:=E) pending cv HoldsSched (Some f) l) Hp Hd.
  - start_pending n IH Hs cv f l Hp Hd. finished_peer p Hfin Hm.
    + exec_self. destruct sh; exec_self;
        (destruct (f pv) as [v|e]; [destruct (ctor_throws v) as [e|]|]);
        exec_self;
        extend_from (mk_task (R:=R) (E:=E) pending cv HoldsSched (Some f) l) Hp Hd.
    + exec_self.
      extend_from (mk_task (R:=R) (E:=E) pending cv HoldsSched (Some f) l) Hp Hd.
  - start_pending n IH Hs cv f l Hp Hd. finished_peer p Hfin Hm.
    + exec_self.
      destruct (f tt) as [v|e]; [destruct (ctor_throws v) as [e|]|];
        exec_self;
        extend_from (mk_task (R:=R) (E:=E) pending cv HoldsSched (Some f) l) Hp Hd.
    + exec_self.
      extend_from (mk_task (R:=R) (E:=E) pending cv HoldsSched (Some f) l) Hp Hd.
  - start_pending n IH Hs cv f l Hp Hd. exec_solo.
    destruct (f p) as [[]|e]; [destruct r as [e|]|];
      exec_solo;
      extend_from (mk_task (R:=R) (E:=E) pending cv HoldsSched (Some f) l) Hp Hd.
  - start_pending n IH Hs cv f l Hp Hd. finished_peer p Hfin Hm.
    + exec_self. destruct sh; exec_self;
        (destruct (f pv) as [[]|e]; [destruct r as [e|]|]);
        exec_self;
        extend_from (mk_task (R:=R) (E:=E) pending cv HoldsSched (Some f) l) Hp Hd.
    + exec_self.
      extend_from (mk_task (R:=R) (E:=E) pending cv HoldsSched (Some f) l) Hp Hd.
  - start_pending n IH Hs cv f l Hp Hd. finished_peer p Hfin Hm.
    + exec_self.
      destruct (f tt) as [[]|e]; [destruct r as [e|]|];
        exec_self;
        extend_from (mk_task (R:=R) (E:=E) pending cv HoldsSched (Some f) l) Hp Hd.
    + exec_self.
      extend_from (mk_task (R:=R) (E:=E) pending cv HoldsSched (Some f) l) Hp Hd.
  - destruct (inv_unwrapped n IH Hs) as (cv & l & ->).
    destruct IH as [Hp _ _ Hd]. finished_peer child Hfin Hm.
    + exec_self. destruct sh; exec_self;
        (destruct (ctor_throws pv) as [e|]); exec_self;
        extend_from (mk_task (R:=R) (E:=E) (F:=F) unwrapped cv HoldsSched None l) Hp Hd.
    + exec_self.
      extend_from (mk_task (R:=R) (E:=E) (F:=F) unwrapped cv HoldsSched None l) Hp Hd.
  - destruct (inv_completed n IH Hs) as (cv & v & l & ->).
    destruct IH as [Hp _ _ Hd]. exec_solo.
    extend_from (mk_task (R:=R) (E:=E) (F:=F) completed cv (HoldsResult v) None l) Hp Hd.
Qed.


(** [destroy] on a node satisfying the invariant has defined behaviour
    and runs the destructors that the state selects. *)
Lemma destroy_trace {F} (n : task_func R E F) :
  node_inv n ->
  exists n',
    destroy solo n = (Ok tt, n')
    /\ events n' = events n ++ destructor_events (state n).
Proof.
  intros [_ Hr Hf _]. destruct n as [s cv st fo l].
  cbn in Hr, Hf.
  destruct s; destruct st; try discriminate Hr;
    destruct fo; try discriminate Hf;
    eexists; (split; [exec_solo; reflexivity|]);
    cbv [events log destructor_events task_state_eqb state];
    rewrite ?map_app, <- ?app_assoc; reflexivity.
Qed.

(** C7 (as amended).  For every task node, at every point of its life
    the state decides the slot: state [completed] implies that the result
    slot holds a result and state [canceled] implies that the exception
    slot holds an exception.  Between two member calls the converse holds
    too (the slots match the state in both directions).  The destructors
    run the result destructor exactly when the state is [completed] and
    the exception destructor exactly when it is [canceled]. *)
Theorem state_decides_slot {F} (n : task_func R E F) :
  life ctor_throws moved_from n ->
  Forall (fun p => state_implies_slot p = true) (points n)
  /\ slots_match_state (view_of n) = true
  /\ exists n',
       destroy solo n = (Ok tt, n')
       /\ events n' = events n ++ destructor_events (state n)
       /\ (In EvDestroyResult (destructor_events (R:=R) (E:=E) (state n))
            <-> state n = completed)
       /\ (In EvDestroyExcept (destructor_events (R:=R) (E:=E) (state n))
            <-> state n = canceled).
Proof.
  intros Hl. pose proof (life_inv n Hl) as Hinv.
  split; [apply Hinv|]. split; [apply Hinv|].
  destruct (destroy_trace n Hinv) as (n' & Hrun & Hev).
  exists n'. split; [exact Hrun|]. split; [exact Hev|].
  split; (split; [|intros ->; cbn; auto]);
    destruct (state n); cbn; intros Hin; intuition discriminate.
Qed.

(** C9.  For every [task_func] node the captured function object is
    destroyed exactly once over the node's life: it is alive exactly
    while the state is [pending]; the run, cancel and unwrap paths that
    take the node out of [pending] have destroyed it once; the destructor
    destroys it iff the state is still [pending], so that after [destroy]
    the function has been destroyed once, never twice. *)
Theorem function_destroyed_once {F} (n : task_func R E F) :
  life ctor_throws moved_from n ->
  (v_func (view_of n) = true <-> state n = pending)
  /\ count is_destroy_func (events n)
      = (if task_state_eqb (state n) pending then 0 else 1)
  /\ exists n',
       destroy solo n = (Ok tt, n')
       /\ events n' = events n ++ destructor_events (state n)
       /\ (In EvDestroyFunc (destructor_events (R:=R) (E:=E) (state n))
            <-> state n = pending)
       /\ count is_destroy_func (events n') = 1.
Proof.
  intros Hl. pose proof (life_inv n Hl) as Hinv.
  split.
  { rewrite (inv_func n Hinv).
    destruct (task_state_eqb_spec (state n) pending); intuition congruence. }
  split; [apply Hinv|].
  destruct (destroy_trace n Hinv) as (n' & Hrun & Hev).
  exists n'. split; [exact Hrun|]. split; [exact Hev|]. split.
  - split; [|intros ->; cbn; auto].
    destruct (state n); cbn; intros Hin; intuition discriminate.
  - rewrite Hev, count_app, (inv_destroyed n Hinv).
    destruct (state n); reflexivity.
Qed.

End Preservation.

Lemma life_ran_42 : life (fun _ => None) (fun x => x) ran_42.
Proof. apply life_root; [apply life_new | reflexivity]. Qed.

(** C7 as stated fails: right after [set_result] the result slot holds
    42 while the state is still [pending]. *)
Lemma result_valid_before_completed :
  life (fun _ => None) (fun x => x) ran_42
  /\ In (mk_view pending (HoldsResult 42) true) (points ran_42)
  /\ ~ slots_match_at_every_point ran_42.
Proof.
  split; [exact life_ran_42|]. split; [cbv; auto|].
  unfold slots_match_at_every_point. cbv. intros H.
  inversion H as [|? ? _ H1]; subst. inversion H1 as [|? ? Hbad _]. discriminate.
Qed.

Lemma state_decides_slot_witness :
  slots_match_state (view_of ran_42) = true
  /\ exists n', destroy solo ran_42 = (Ok tt, n')
       /\ events n' = events ran_42 ++ [EvDestroyResult; EvFree].
Proof.
  destruct (state_decides_slot (fun _ => None) (fun x => x) ran_42 life_ran_42)
    as (_ & Hm & n' & Hrun & Hev & _).
  split; [exact Hm|]. exists n'. split; [exact Hrun | exact Hev].
Defined.

Lemma function_destroyed_once_witness :
  exists n', destroy solo never_ran = (Ok tt, n')
    /\ count is_destroy_func (events n') = 1.
Proof.
  destruct (function_destroyed_once (fun _ => None) (fun x => x) never_ran
              (life_new _ _ _ _))
    as (_ & _ & n' & Hrun & _ & _ & Hc).
  exists n'. split; [exact Hrun | exact Hc].
Defined.

Example destroy_after_run :
  events (snd (destroy solo ran_42))
  = [EvInvoke; EvSetResult 42; EvDestroyFunc; EvStore completed;
     EvDestroyResult; EvFree].
Proof. reflexivity. Qed.

Example destroy_never_ran :
  events (snd (destroy solo never_ran)) = [EvDestroyFunc; EvFree].
Proof. reflexivity. Qed.

End LifetimeFacts.

(* ================================================================== *)
(** ** Unwrapping takes over the child's outcome *)
(* ================================================================== *)

Module UnwrapFacts.
Import Task Worlds Lifetime Scenarios TaskFacts LifetimeFacts Unwrap.
Local Open Scope task_scope.

Section Loops.
Context {E W : Type}.

Lemma for_each_nil (g : task_ptr -> M E W unit) w : for_each [] g w = (Ok tt, w).
Proof. reflexivity. Qed.

Lemma for_each_app cs1 cs2 (g : task_ptr -> M E W unit) w :
  for_each (cs1 ++ cs2) g w
  = match for_each cs1 g w with
    | (Ok _, w') => for_each cs2 g w'
    | (Exn e, w') => (Exn e, w')
    | (Undefined, w') => (Undefined, w')
    end.
Proof.
  revert w. induction cs1 as [|c cs1 IH]; intros w; [reflexivity|].
  cbn [app for_each]. unfold bind.
  destruct (g c w) as [[[]|e|] w']; try reflexivity. apply IH.
Qed.

Lemma for_each_one c (g : task_ptr -> M E W unit) w :
  for_each [c] g w = g c w.
Proof.
  cbn [for_each]. unfold bind, ret.
  destruct (g c w) as [[[]|e|] w']; reflexivity.
Qed.

End Loops.

Section Drain.
Context {R E F W : Type}.

(** Draining the continuations for which the loop body only logs. *)
Lemma for_each_drain_in (t : handle R E F W) (Hl : lens_ok t) cs
    (g : task_ptr -> M E W unit) :
  (forall c, In c cs -> forall w,
     g c w = (Ok tt, put_node t (record (EvSchedule c) (node_of t w)) w)) ->
  forall w, for_each cs g w = (Ok tt, put_node t (scheduled cs (node_of t w)) w).
Proof.
  induction cs as [|c cs IH]; intros Hg w.
  - cbn. rewrite scheduled_nil, (put_get _ Hl). reflexivity.
  - cbn [for_each]. unfold bind. rewrite Hg by (left; reflexivity).
    rewrite IH by (intros; apply Hg; right; assumption).
    rewrite (get_put _ Hl), (put_put _ Hl), scheduled_cons. reflexivity.
Qed.

End Drain.

Section Handles.
Context {R E Fp Fc : Type}.

Lemma parent_lens : lens_ok (@parent_h R E Fp Fc).
Proof. split; try reflexivity. intros []; reflexivity. Qed.

Lemma child_lens fwd (s : M E (@world R E Fp Fc) unit) :
  lens_ok (mk_handle child (fun n w => mk_world (parent w) n (forwarder w))
             (fun c => if Nat.eqb c fwd then s else ret tt)).
Proof. split; try reflexivity. intros []; reflexivity. Qed.

Lemma forwarder_lens : lens_ok (@forwarder_h R E Fp Fc).
Proof. split; try reflexivity. intros []; reflexivity. Qed.

End Handles.

Ltac exec_world_ops :=
  exec_ops;
  cbv [parent_h child_h child_payload forwarder_h parent child forwarder
       run_forwarder schedule_forwarder schedule_task_inline child_then
       child_finishes new_task empty_cv
       node_of put_node schedule
       state store func continuations log items sealed];
  exec_ops.
Ltac exec_world :=
  exec_world_ops;
  repeat (first
    [ rewrite for_each_nil
    | rewrite (for_each_drain parent_h parent_lens) by (intros; reflexivity) ];
    exec_world_ops).

Section Forwarding.
Context {R E Fp Fc : Type}.
Variable ctor_throws : R -> option E.
Variable moved_from : R -> R.
Variable child_shared : bool.
Variable forwarder_ptr : task_ptr.

Let then_ok : M E (@world R E Fp Fc) unit :=
  child_then ctor_throws moved_from child_shared forwarder_ptr None.

Ltac read_events :=
  cbv [events log parent forwarding_events];
  rewrite ?map_app, ?map_map, <- ?app_assoc;
  try match goal with H : ctor_throws _ = _ |- _ => rewrite H end;
  reflexivity.

(** The child has finished before [unwrapped_finish] is called: [then]
    finds it finished and the forwarding continuation runs inline, inside
    the parent's own [run]. *)
Lemma unwrap_immediate (w : @world R E Fp Fc) f o :
  func (parent w) = Some f ->
  holds_outcome o (child w) ->
  exists w',
    unwrapped_finish parent_h then_ok w = (Ok tt, w')
    /\ (state (parent w'), store (parent w')) = forwarded ctor_throws o
    /\ func (parent w') = None
    /\ continuations (parent w') = mk_cv [] true
    /\ events (parent w')
       = events (parent w) ++ [EvStore unwrapped; EvDestroyFunc]
           ++ forwarding_events ctor_throws o
           ++ map EvSchedule (items (continuations (parent w))).
Proof.
  intros Hf Ho.
  destruct w as [[ps [pits psl] pst pfo pl] [cs ccv cst cfo cl] fw].
  cbn in Hf. subst pfo.
  destruct o as [v|e]; cbn in Ho; destruct Ho as [Hcs Hcst]; cbn in Hcs, Hcst;
    subst cs cst; unfold then_ok, forwarded; destruct child_shared;
    try (destruct (ctor_throws v) as [e'|] eqn:Hctor);
    exec_world;
    try match goal with H : ctor_throws _ = _ |- _ => rewrite H end;
    exec_world;
    (eexists; split; [reflexivity|]); repeat split; read_events.
Qed.

Lemma unwrap_registers (w : @world R E Fp Fc) f :
  func (parent w) = Some f ->
  is_finished (state (child w)) = false ->
  sealed (continuations (child w)) = false ->
  unwrapped_finish parent_h then_ok w = (Ok tt, registered forwarder_ptr w).
Proof.
  intros Hf Hfin Hsl.
  destruct w as [[ps [pits psl] pst pfo pl] [cs [cits csl] cst cfo cl] fw].
  cbn in Hf, Hfin, Hsl. subst pfo csl. unfold then_ok.
  destruct cs; try discriminate Hfin; exec_world; reflexivity.
Qed.

Ltac deferred_branch sh :=
  exec_world; rewrite for_each_app;
  rewrite (for_each_drain_in
             (child_h ctor_throws moved_from sh forwarder_ptr)
             (child_lens _ _))
    by (intros c Hin w; exec_world_ops;
        match goal with H : forall c, In c _ -> _ = false |- _ =>
          rewrite (H c Hin) end;
        reflexivity);
  exec_world; rewrite for_each_one, Nat.eqb_refl;
  exec_world;
  try match goal with H : ctor_throws _ = _ |- _ => rewrite H end;
  exec_world;
  (eexists; split; [reflexivity|]); repeat split; read_events.

(** The child finishes with the forwarding continuation registered last
    in its list: its drain runs the forwarding continuation inline. *)
Lemma unwrap_deferred (w1 : @world R E Fp Fc) cits o :
  forwarder w1 = new_task Forwarding ->
  continuations (child w1) = mk_cv (cits ++ [forwarder_ptr]) false ->
  ~ In forwarder_ptr cits ->
  exists w2,
    child_finishes ctor_throws moved_from child_shared forwarder_ptr o w1
    = (Ok tt, w2)
    /\ (state (parent w2), store (parent w2)) = forwarded ctor_throws o
    /\ func (parent w2) = func (parent w1)
    /\ continuations (parent w2) = mk_cv [] true
    /\ events (parent w2)
       = events (parent w1) ++ forwarding_events ctor_throws o
           ++ map EvSchedule (items (continuations (parent w1)))
    /\ holds_outcome (match o with
                      | inl v => inl (if child_shared then v else moved_from v)
                      | inr e => inr e
                      end) (child w2).
Proof.
  intros Hfw Hcv Hfresh.
  destruct w1 as [[ps [pits psl] pst pfo pl] [cs ccv cst cfo cl] fw].
  cbn in Hfw, Hcv. subst fw ccv. unfold forwarded.
  assert (Hother : forall c, In c cits -> Nat.eqb c forwarder_ptr = false).
  { intros c Hin. apply Nat.eqb_neq. intros ->. contradiction. }
  destruct o as [v|e]; destruct child_shared;
    [ destruct (ctor_throws v) as [e'|] eqn:Hctor; deferred_branch true
    | destruct (ctor_throws v) as [e'|] eqn:Hctor; deferred_branch false
    | deferred_branch true
    | deferred_branch false ].
Qed.

(** C3.  For every unwrapping task whose callable has returned a child
    task, and whose forwarding continuation can be allocated,
    [unwrapped_finish] moves the parent to [unwrapped], destroys its
    callable and registers the forwarding continuation on the child with
    the inline scheduler, so that the parent ends in the child's outcome:
    - when the child has already finished with outcome [o], the
      forwarding continuation runs inline at once and the parent ends in
      that outcome before [unwrapped_finish] returns;
    - when the child has not finished, the parent stays [unwrapped], its
      continuations unflushed, and the forwarding continuation is in the
      child's list; when the child then finishes with outcome [o], its
      drain runs the forwarding continuation and the parent ends in that
      outcome and drains its own continuations.
    The outcome taken over is: completed with [v] when the child
    completed with [v] (canceled with the exception thrown, when moving
    [v] into the parent's slot throws), canceled with [e] when the child
    was canceled with [e]. *)
Theorem unwrap_takes_child_outcome (w : @world R E Fp Fc) f o :
  func (parent w) = Some f ->
  (holds_outcome o (child w) ->
   exists w',
     unwrapped_finish parent_h then_ok w = (Ok tt, w')
     /\ (state (parent w'), store (parent w')) = forwarded ctor_throws o
     /\ func (parent w') = None
     /\ events (parent w')
        = events (parent w) ++ [EvStore unwrapped; EvDestroyFunc]
            ++ forwarding_events ctor_throws o
            ++ map EvSchedule (items (continuations (parent w))))
  /\ (is_finished (state (child w)) = false ->
      sealed (continuations (child w)) = false ->
      ~ In forwarder_ptr (items (continuations (child w))) ->
      exists w1 w2,
        unwrapped_finish parent_h then_ok w = (Ok tt, w1)
        /\ state (parent w1) = unwrapped /\ func (parent w1) = None
        /\ continuations (parent w1) = continuations (parent w)
        /\ events (parent w1)
           = events (parent w) ++ [EvStore unwrapped; EvDestroyFunc]
        /\ items (continuations (child w1))
           = items (continuations (child w)) ++ [forwarder_ptr]
        /\ child_finishes ctor_throws moved_from child_shared forwarder_ptr o w1
           = (Ok tt, w2)
        /\ (state (parent w2), store (parent w2)) = forwarded ctor_throws o
        /\ func (parent w2) = None
        /\ events (parent w2)
           = events (parent w1) ++ forwarding_events ctor_throws o
               ++ map EvSchedule (items (continuations (parent w)))).
Proof.
  intros Hf. split.
  - intros Ho.
    destruct (unwrap_immediate w f o Hf Ho)
      as (w' & Hrun & Hout & Hfu & _ & Hev).
    exists w'. repeat split; assumption.
  - intros Hfin Hsl Hfresh.
    pose proof (unwrap_registers w f Hf Hfin Hsl) as Hrun.
    destruct (unwrap_deferred (registered forwarder_ptr w)
                (items (continuations (child w))) o eq_refl eq_refl Hfresh)
      as (w2 & Hfwd & Hout & Hfu & _ & Hev & _).
    exists (registered forwarder_ptr w), w2.
    split; [exact Hrun|]. split; [reflexivity|]. split; [reflexivity|].
    split; [reflexivity|].
    split; [unfold registered; cbn [parent]; node_simpl; reflexivity|].
    split; [reflexivity|]. split; [exact Hfwd|]. split; [exact Hout|].
    split; [exact Hfu|]. exact Hev.
Qed.

(** When [then] throws instead, the parent is canceled with that
    exception, through [cancel_base]. *)
Lemma unwrap_then_throws (w : @world R E Fp Fc) f e :
  func (parent w) = Some f ->
  exists w',
    unwrapped_finish parent_h
      (child_then ctor_throws moved_from child_shared forwarder_ptr (Some e)) w
    = (Ok tt, w')
    /\ state (parent w') = canceled /\ store (parent w') = HoldsExcept e
    /\ events (parent w')
       = events (parent w)
           ++ [EvStore unwrapped; EvDestroyFunc;
               EvSetException e; EvStore canceled]
           ++ map EvSchedule (items (continuations (parent w))).
Proof.
  intros Hf.
  destruct w as [[ps [pits psl] pst pfo pl] c fw]. cbn in Hf. subst pfo.
  exec_world.
  eexists; split; [reflexivity|]; repeat split; read_events.
Qed.

End Forwarding.


(** [run] of an unwrapping root task: the callable is called, then
    [unwrapped_finish] takes over (it handles every exception itself). *)
Lemma root_unwrap_calls_unwrapped_finish {R E Fc}
    (m : M E (@world R E (callable unit unit E) Fc) unit)
    (w : @world R E (callable unit unit E) Fc) f :
  func (parent w) = Some f -> f tt = inl tt ->
  (forall w0 e w', unwrapped_finish parent_h m w0 <> (Exn e, w')) ->
  run (root_exec_func_unwrap m) parent_h w
  = unwrapped_finish parent_h m
      (mk_world (record EvInvoke (parent w)) (child w) (forwarder w)).
Proof.
  intros Hf Hcall Hm.
  destruct w as [[ps pcv pst pfo pl] c fw]. cbn in Hf. subst pfo.
  unfold run, root_exec_func_unwrap, invoke, call, get_func, try_catch, bind,
    step.
  cbn [node_of parent_h parent func]. rewrite Hcall.
  cbn [ret put_node parent_h parent child forwarder].
  match goal with |- context [unwrapped_finish parent_h m ?x] =>
    destruct (unwrapped_finish parent_h m x) as [[[]|e|] w'] eqn:Hrun end;
    try reflexivity.
  exfalso. exact (Hm _ _ _ Hrun).
Qed.

Lemma unwrap_takes_child_outcome_witness :
  (exists w',
     unwrapped_finish parent_h
       (child_then (fun _ => None) (fun _ => 0) false 100 None)
       (mk_world unwrapping_parent child_done (new_task Forwarding))
     = (Ok tt, w')
     /\ (state (parent w'), store (parent w')) = (completed, HoldsResult 9))
  /\ (exists w1 w2,
        unwrapped_finish parent_h
          (child_then (fun _ => None) (fun _ => 0) false 100 None)
          (mk_world unwrapping_parent child_pending (new_task Forwarding))
        = (Ok tt, w1)
        /\ state (parent w1) = unwrapped
        /\ child_finishes (fun _ => None) (fun _ => 0) false 100 (inl 9) w1
           = (Ok tt, w2)
        /\ (state (parent w2), store (parent w2)) = (completed, HoldsResult 9)
        /\ events (parent w2)
           = [EvStore unwrapped; EvDestroyFunc; EvSetResult 9;
              EvStore completed; EvSchedule 41]).
Proof.
  split.
  - destruct (unwrap_takes_child_outcome (fun _ => None) (fun _ => 0) false 100
                (mk_world unwrapping_parent child_done (new_task Forwarding))
                (fun _ => inl tt) (inl 9) eq_refl)
      as [Hnow _].
    destruct (Hnow (conj eq_refl eq_refl)) as (w' & Hrun & Hout & _).
    exists w'. split; [exact Hrun | exact Hout].
  - destruct (unwrap_takes_child_outcome (fun _ => None) (fun _ => 0) false 100
                (mk_world unwrapping_parent child_pending (new_task Forwarding))
                (fun _ => inl tt) (inl 9) eq_refl)
      as [_ Hlater].
    destruct (Hlater eq_refl eq_refl)
      as (w1 & w2 & Hrun & Hst & _ & _ & Hev1 & _ & Hfin & Hout & _ & Hev2).
    { cbn. intros [H|[]]. discriminate. }
    exists w1, w2. split; [exact Hrun|]. split; [exact Hst|].
    split; [exact Hfin|]. split; [exact Hout|].
    rewrite Hev2, Hev1. reflexivity.
Defined.

End UnwrapFacts.

(* ================================================================== *)
(** ** The partitioner driver visits every element once *)
(* ================================================================== *)

Module ParallelForFacts.
Import ParallelFor Scenarios.

Section Visits.
Context {P T : Type} `{PartitionerLaws P T}.

Lemma interleaving_perm (l1 l2 l : list T) :
  interleaving l1 l2 l -> Permutation l (l1 ++ l2).
Proof.
  induction 1 as [|x l1 l2 l _ IH|x l1 l2 l _ IH].
  - constructor.
  - cbn. constructor. exact IH.
  - rewrite IH. apply Permutation_middle.
Qed.

Lemma interleaving_app (l1 l2 : list T) : interleaving l1 l2 (l2 ++ l1).
Proof.
  induction l2 as [|x l2 IH].
  - cbn. induction l1; constructor; assumption.
  - cbn. constructor. exact IH.
Qed.

Lemma is_empty_true (p : P) : is_empty p = true <-> elements p = [].
Proof. unfold is_empty. destruct (elements p); split; congruence. Qed.

Lemma is_empty_false (p : P) : is_empty p = false <-> elements p <> [].
Proof. unfold is_empty. destruct (elements p); split; congruence. Qed.

(** No element is skipped and none is visited twice. *)
Lemma visits_perm (p : P) tr : visits p tr -> Permutation tr (elements p).
Proof.
  induction 1 as [p He|p sp inl tr He _ IH1 _ IH2 Hi].
  - apply is_empty_true in He.
    rewrite <- (split_elements p), He. reflexivity.
  - rewrite (interleaving_perm _ _ _ Hi), IH1, IH2. apply split_elements.
Qed.

(** Both halves of a proper split are smaller. *)
Lemma split_smaller (p : P) :
  is_empty (fst (split p)) = false ->
  length (elements (fst (split p))) < length (elements p)
  /\ length (elements (snd (split p))) < length (elements p).
Proof.
  intros He. apply is_empty_false in He.
  pose proof (split_proper p He) as Hr.
  pose proof (Permutation_length (split_elements p)) as Hl.
  rewrite length_app in Hl.
  destruct (elements (fst (split p))); [congruence|].
  destruct (elements (snd (split p))); [congruence|].
  cbn in *. lia.
Qed.

(** The driver returns: fuel above the number of elements is enough, and
    what it returns is one of the possible sequences of visits. *)
Lemma internal_parallel_for_returns fuel : forall p : P,
  length (elements p) < fuel ->
  exists tr, internal_parallel_for fuel p = Some tr /\ visits p tr.
Proof.
  induction fuel as [|fuel IH]; intros p Hf; [lia|].
  cbn [internal_parallel_for].
  destruct (split p) as [sub rest] eqn:Hs.
  destruct (is_empty sub) eqn:He.
  - exists (elements rest). split; [reflexivity|].
    replace rest with (snd (split p)) by (rewrite Hs; reflexivity).
    constructor. rewrite Hs. exact He.
  - assert (He' : is_empty (fst (split p)) = false) by (rewrite Hs; exact He).
    destruct (split_smaller p He') as [H1 H2]. rewrite Hs in H1, H2. cbn in H1, H2.
    destruct (IH rest ltac:(lia)) as (inl & Hrun2 & Hv2).
    destruct (IH sub ltac:(lia)) as (sp & Hrun1 & Hv1).
    rewrite Hrun2, Hrun1. exists (inl ++ sp). split; [reflexivity|].
    apply visits_fork with (spawned := sp) (inline := inl).
    + exact He'.
    + rewrite Hs. exact Hv1.
    + rewrite Hs. exact Hv2.
    + apply interleaving_app.
Qed.

End Visits.

(** The range partitioner abides by the laws. *)
#[export] Instance range_laws : PartitionerLaws range_partitioner nat.
Proof.
  split.
  - intros [l h g].
    unfold split, elements, range_is_partitioner, range_split.
    cbn [lo hi grain].
    destruct (Nat.leb_spec (h - l) g) as [Hle|Hgt];
      cbn [fst snd lo hi grain].
    + rewrite Nat.sub_diag. reflexivity.
    + set (half := (h - l + 1) / 2).
      assert (Hhalf : half <= h - l).
      { unfold half. apply Nat.Div0.div_le_upper_bound. lia. }
      rewrite Permutation_app_comm.
      replace (l + half - l) with half by lia.
      replace (h - (l + half)) with (h - l - half) by lia.
      rewrite <- seq_app.
      replace (half + (h - l - half)) with (h - l) by lia. reflexivity.
  - intros [l h g].
    unfold split, elements, range_is_partitioner, range_split.
    cbn [lo hi grain].
    destruct (Nat.leb_spec (h - l) g) as [Hle|Hgt];
      cbn [fst snd lo hi grain].
    + rewrite Nat.sub_diag. cbn. congruence.
    + intros _.
      assert (Hhalf : 1 <= (h - l + 1) / 2).
      { apply Nat.div_le_lower_bound; lia. }
      replace (l + (h - l + 1) / 2 - l) with ((h - l + 1) / 2) by lia.
      destruct ((h - l + 1) / 2); [lia|]. cbn. congruence.
Qed.

Section Range.
Context {P : Type} `{PartitionerLaws P nat}.

(** C6.  For every range [[0, N)] handed to [internal_parallel_for] by a
    partitioner, the driver returns, and every sequence of applications
    of [func] it can produce contains each element of [[0, N)] exactly
    once and nothing else.  The sequences are those of the code: when
    [split] yields an empty sub-partition, the elements of the remaining
    partition in order, in the current thread; otherwise an interleaving
    of the visits of the spawned half and of those of the inline half,
    complete when the driver returns. *)
Theorem parallel_for_visits_each_once (p : P) (N : nat) :
  elements p = seq 0 N ->
  (exists tr, internal_parallel_for (S N) p = Some tr /\ visits p tr)
  /\ (forall tr, visits p tr ->
        forall i, count_occ Nat.eq_dec tr i = if i <? N then 1 else 0)
  /\ (forall tr, visits p tr <->
        (is_empty (fst (split p)) = true /\ tr = elements (snd (split p)))
        \/ (is_empty (fst (split p)) = false
            /\ exists spawned inline,
                 visits (fst (split p)) spawned
                 /\ visits (snd (split p)) inline
                 /\ interleaving spawned inline tr)).
Proof.
  intros Hp. split; [|split].
  - apply internal_parallel_for_returns. rewrite Hp, length_seq. lia.
  - intros tr Hv i.
    pose proof (visits_perm p tr Hv) as Hperm.
    rewrite (proj1 (Permutation_count_occ Nat.eq_dec _ _) Hperm i), Hp.
    destruct (Nat.ltb_spec i N) as [Hlt|Hge].
    + apply NoDup_count_occ'; [apply seq_NoDup | apply in_seq; lia].
    + apply count_occ_not_In. rewrite in_seq. lia.
  - intros tr. split.
    + intros Hv. inversion Hv; subst; [left|right]; eauto 10.
    + intros [[He ->]|(He & sp & inl & H1 & H2 & Hi)].
      * constructor. exact He.
      * econstructor; eassumption.
Qed.

End Range.

Lemma parallel_for_visits_each_once_witness :
  elements range_0_5 = seq 0 5
  /\ internal_parallel_for 6 range_0_5 = Some [0; 1; 2; 3; 4]
  /\ forall tr, visits range_0_5 tr ->
       forall i, count_occ Nat.eq_dec tr i = if i <? 5 then 1 else 0.
Proof.
  split; [reflexivity|]. split; [reflexivity|].
  exact (proj1 (proj2 (parallel_for_visits_each_once range_0_5 5 eq_refl))).
Defined.

End ParallelForFacts.

(* ================================================================== *)
(** ** Every registered continuation is scheduled exactly once *)
(* ================================================================== *)

Module RegistrationFacts.
Import Task Registration Scenarios.

(** [task_ptr] is [nat]: let [lia] see it. *)
Ltac ptr_lia := unfold task_ptr in *; lia.

Section Lists.
Context {A : Type}.

Lemma update_split (l : list A) i a x :
  nth_error l i = Some x ->
  l = firstn i l ++ x :: skipn (S i) l
  /\ update l i a = firstn i l ++ a :: skipn (S i) l.
Proof.
  revert i. induction l as [|y l IH]; intros [|i] Hn; try discriminate.
  - injection Hn as ->. split; reflexivity.
  - destruct (IH i Hn) as [Hl Hu]. cbn [firstn update app].
    change (skipn (S (S i)) (y :: l)) with (skipn (S i) l).
    rewrite Hu. split; [f_equal; exact Hl | reflexivity].
Qed.

End Lists.

Lemma invocations_app by_whom cont st cv f rs l1 l2 :
  invocations by_whom cont (mk_config st cv f rs (l1 ++ l2))
  = invocations by_whom cont (mk_config st cv f rs l1)
    + count_occ invocation_eq_dec l2 (by_whom, cont).
Proof. unfold invocations. cbn. apply count_occ_app. Qed.

Lemma inv_initial conts : NoDup conts -> inv (initial conts).
Proof.
  intros Hnd. split; cbn.
  - rewrite map_map. cbn. rewrite map_id. exact Hnd.
  - apply Forall_forall. intros [cont pc] Hin.
    apply in_map_iff in Hin. destruct Hin as (x & Hx & _).
    injection Hx as <- <-. split; reflexivity.
  - intros cont _. split; reflexivity.
  - reflexivity.
  - discriminate.
Qed.

(** A step that changes the counters of [cont] only keeps the other
    registrants as they are. *)
Lemma ok_others cont c c' (l : list (task_ptr * registrant_pc)) :
  (forall k, k <> cont ->
     held k c' = held k c
     /\ invocations ByRegistrant k c' = invocations ByRegistrant k c) ->
  (forall r, In r l -> fst r <> cont) ->
  Forall (registrant_ok c) l -> Forall (registrant_ok c') l.
Proof.
  intros Hsame Hne Hok. apply Forall_forall. intros r Hin.
  rewrite Forall_forall in Hok. specialize (Hok r Hin).
  destruct (Hsame (fst r) (Hne r Hin)) as [Hh Hi].
  unfold registrant_ok in *. rewrite Hh, Hi. exact Hok.
Qed.

Lemma ok_same c c' (l : list (task_ptr * registrant_pc)) :
  (forall k, held k c' = held k c
             /\ invocations ByRegistrant k c' = invocations ByRegistrant k c) ->
  Forall (registrant_ok c) l -> Forall (registrant_ok c') l.
Proof.
  intros Hsame Hok. apply Forall_forall. intros r Hin.
  rewrite Forall_forall in Hok. specialize (Hok r Hin).
  destruct (Hsame (fst r)) as [Hh Hi].
  unfold registrant_ok in *. rewrite Hh, Hi. exact Hok.
Qed.

(** In a list of registrants with distinct continuations, the others
    than the one at a given place have other continuations. *)
Lemma distinct_others (l1 l2 : list (task_ptr * registrant_pc)) cont pc :
  NoDup (map fst (l1 ++ (cont, pc) :: l2)) ->
  forall r, In r (l1 ++ l2) -> fst r <> cont.
Proof.
  rewrite map_app. cbn. intros Hnd r Hin Heq.
  apply NoDup_remove_2 in Hnd. apply Hnd.
  rewrite <- map_app, <- Heq. apply in_map. exact Hin.
Qed.

Lemma count_occ_snoc_other (l : list task_ptr) x k :
  k <> x -> count_occ Nat.eq_dec (l ++ [x]) k = count_occ Nat.eq_dec l k.
Proof.
  intros Hne. rewrite count_occ_app. cbn [count_occ].
  destruct (Nat.eq_dec x k); [congruence | ptr_lia].
Qed.

Lemma count_occ_snoc_same (l : list task_ptr) x :
  count_occ Nat.eq_dec (l ++ [x]) x = S (count_occ Nat.eq_dec l x).
Proof.
  rewrite count_occ_app. cbn [count_occ].
  destruct (Nat.eq_dec x x); [ptr_lia | congruence].
Qed.

Section Preservation.
Variable terminal : task_state.

Ltac fields :=
  cbn [shared_state shared_list finisher registrants invoked items sealed
       has_flushed todo_of] in *.

Lemma finisher_step_inv c c' :
  inv c -> finisher_step terminal c = Some c' -> inv c'.
Proof.
  intros [Hd Hr Hs Hse Hem] Hstep.
  destruct c as [st [its sl] f rs iv]. unfold finisher_step in Hstep.
  fields. destruct f as [| |[|t todo]|]; cbn [flush_and_lock] in Hstep;
    inversion Hstep; subst c'; clear Hstep.
  - (* the store *)
    split; fields.
    + exact Hd.
    + eapply ok_same; [|exact Hr]. intros k. split; reflexivity.
    + exact Hs.
    + exact Hse.
    + exact Hem.
  - (* the list is sealed and emptied *)
    assert (Hsame : forall k,
      held k (mk_config st (mk_cv [] true) (Flushing its) rs iv)
      = held k (mk_config st (mk_cv its sl) AtFlush rs iv)).
    { intros k. unfold held, invocations. fields. cbn [count_occ]. ptr_lia. }
    split; fields.
    + exact Hd.
    + eapply ok_same; [|exact Hr]. intros k. split; [apply Hsame | reflexivity].
    + intros k Hk. rewrite Hsame. apply Hs, Hk.
    + reflexivity.
    + reflexivity.
  - (* the last entry has been handed over *)
    split; fields.
    + exact Hd.
    + eapply ok_same; [|exact Hr]. intros k. split; reflexivity.
    + exact Hs.
    + exact Hse.
    + exact Hem.
  - (* one entry is handed over *)
    assert (Hsame : forall k,
      held k (mk_config st (mk_cv its sl) (Flushing todo) rs (iv ++ [(ByFlush, t)]))
      = held k (mk_config st (mk_cv its sl) (Flushing (t :: todo)) rs iv)
      /\ invocations ByRegistrant k
           (mk_config st (mk_cv its sl) (Flushing todo) rs (iv ++ [(ByFlush, t)]))
         = invocations ByRegistrant k
             (mk_config st (mk_cv its sl) (Flushing (t :: todo)) rs iv)).
    { intros k. unfold held. rewrite !invocations_app.
      unfold invocations. fields. cbn [count_occ].
      destruct (invocation_eq_dec (ByFlush, t) (ByFlush, k)) as [Heq|Hne];
        destruct (invocation_eq_dec (ByFlush, t) (ByRegistrant, k)) as [Hx|_];
        try discriminate Hx;
        destruct (Nat.eq_dec t k) as [->|Hnk];
        try congruence; split; ptr_lia. }
    split; fields.
    + exact Hd.
    + eapply ok_same; [|exact Hr]. exact Hsame.
    + intros k Hk. destruct (Hsame k) as [-> ->]. apply Hs, Hk.
    + exact Hse.
    + exact Hem.
Qed.

Lemma map_fst_update (rs : list (task_ptr * registrant_pc)) i cont pc pc' :
  nth_error rs i = Some (cont, pc) ->
  map fst (update rs i (cont, pc')) = map fst rs.
Proof.
  intros Hn. destruct (update_split rs i (cont, pc') _ Hn) as [Hl ->].
  rewrite Hl at 3. rewrite !map_app. reflexivity.
Qed.

(** Rebuilding the invariant after the registrant of [cont] has taken a
    step. *)
Lemma inv_registrant_update c c' l1 l2 cont pc pc' :
  registrants c = l1 ++ (cont, pc) :: l2 ->
  registrants c' = l1 ++ (cont, pc') :: l2 ->
  inv c ->
  (forall k, k <> cont ->
     held k c' = held k c
     /\ invocations ByRegistrant k c' = invocations ByRegistrant k c) ->
  registrant_ok c' (cont, pc') ->
  sealed (shared_list c') = has_flushed (finisher c') ->
  (sealed (shared_list c') = true -> items (shared_list c') = []) ->
  inv c'.
Proof.
  intros Hrs Hrs' [Hd Hr Hs _ _] Hsame Hok Hse Hem.
  rewrite Hrs in Hd, Hr, Hs.
  assert (Hfst : map fst (l1 ++ (cont, pc') :: l2)
                 = map fst (l1 ++ (cont, pc) :: l2))
    by (rewrite !map_app; reflexivity).
  split; rewrite ?Hrs'.
  - rewrite Hfst. exact Hd.
  - pose proof (distinct_others l1 l2 cont pc Hd) as Hne.
    apply Forall_app in Hr. destruct Hr as [Hr1 Hr2].
    apply Forall_cons_iff in Hr2. destruct Hr2 as [_ Hr2].
    apply Forall_app. split; [|constructor; [exact Hok|]].
    + eapply ok_others; [exact Hsame| |exact Hr1].
      intros r Hin. apply Hne, in_or_app. left. exact Hin.
    + eapply ok_others; [exact Hsame| |exact Hr2].
      intros r Hin. apply Hne, in_or_app. right. exact Hin.
  - intros k Hk. rewrite Hfst in Hk.
    assert (Hkc : k <> cont).
    { intros ->. apply Hk. rewrite map_app. apply in_or_app. right. left.
      reflexivity. }
    destruct (Hsame k Hkc) as [-> ->]. apply Hs, Hk.
  - exact Hse.
  - exact Hem.
Qed.

Lemma registrant_step_inv i stale c c' :
  inv c -> registrant_step i stale c = Some c' -> inv c'.
Proof.
  intros Hinv Hstep.
  pose proof Hinv as [Hd Hr Hs Hse Hem].
  destruct c as [st [its sl] f rs iv]. unfold registrant_step in Hstep.
  fields. destruct (nth_error rs i) as [[cont pc]|] eqn:Hn; [|discriminate].
  assert (Hl : rs = firstn i rs ++ (cont, pc) :: skipn (S i) rs)
    by (apply (update_split rs i (cont, pc) _ Hn)).
  assert (Hup : forall pc', update rs i (cont, pc')
                            = firstn i rs ++ (cont, pc') :: skipn (S i) rs)
    by (intros pc'; apply (update_split rs i (cont, pc') _ Hn)).
  assert (Hme : registrant_ok (mk_config st (mk_cv its sl) f rs iv) (cont, pc)).
  { rewrite Forall_forall in Hr. apply Hr. apply nth_error_In with i. exact Hn. }
  destruct Hme as [Hheld Hinl]. cbn [fst snd] in Hheld, Hinl.
  destruct pc; try discriminate Hstep.
  - (* the relaxed load *)
    inversion Hstep; subst c'; clear Hstep.
    eapply (inv_registrant_update (mk_config st (mk_cv its _) f rs iv));
      [exact Hl | cbn [registrants]; apply Hup | exact Hinv | | | exact Hse
      | exact Hem].
    + intros k _. split; reflexivity.
    + split; cbn [fst snd].
      * transitivity (held cont (mk_config st (mk_cv its sl) f rs iv));
          [reflexivity|]. rewrite Hheld.
        destruct (negb _); reflexivity.
      * transitivity (invocations ByRegistrant cont
                        (mk_config st (mk_cv its sl) f rs iv));
          [reflexivity|]. rewrite Hinl.
        destruct (negb _); reflexivity.
  - (* [try_add] *)
    unfold try_add in Hstep. cbn [sealed items] in Hstep. destruct sl.
    + (* sealed: refused *)
      inversion Hstep; subst c'; clear Hstep.
      eapply (inv_registrant_update (mk_config st (mk_cv its _) f rs iv));
        [exact Hl | cbn [registrants]; apply Hup | exact Hinv | | | exact Hse
        | exact Hem].
      * intros k _. split; reflexivity.
      * split; [exact Hheld | exact Hinl].
    + (* appended *)
      inversion Hstep; subst c'; clear Hstep.
      eapply (inv_registrant_update (mk_config st (mk_cv its _) f rs iv));
        [exact Hl | cbn [registrants]; apply Hup | exact Hinv | | | exact Hse
        | discriminate ].
      * intros k Hk. split; [|reflexivity].
        unfold held, invocations in *. fields.
        rewrite (count_occ_snoc_other its cont k Hk). reflexivity.
      * split; cbn [fst snd]; [|exact Hinl].
        unfold held, invocations in *. fields.
        rewrite count_occ_snoc_same. ptr_lia.
  - (* the continuation is run directly *)
    inversion Hstep; subst c'; clear Hstep.
    eapply (inv_registrant_update (mk_config st (mk_cv its _) f rs iv));
      [exact Hl | cbn [registrants]; apply Hup | exact Hinv | | | exact Hse
      | exact Hem].
    + intros k Hk. unfold held. rewrite !invocations_app.
      unfold invocations. fields. cbn [count_occ].
      destruct (invocation_eq_dec (ByRegistrant, cont) (ByFlush, k)) as [Hx|_];
        [discriminate Hx|].
      destruct (invocation_eq_dec (ByRegistrant, cont) (ByRegistrant, k))
        as [Hx|_]; [congruence|].
      split; ptr_lia.
    + split; cbn [fst snd].
      * unfold held in *. rewrite invocations_app.
        unfold invocations in *. fields. cbn [count_occ].
        destruct (invocation_eq_dec (ByRegistrant, cont) (ByFlush, cont))
          as [Hx|_]; [discriminate Hx|]. ptr_lia.
      * rewrite invocations_app. unfold invocations in *. fields.
        cbn [count_occ].
        destruct (invocation_eq_dec (ByRegistrant, cont) (ByRegistrant, cont))
          as [_|Hx]; [ptr_lia | congruence].
Qed.

Lemma step_inv ch c c' : inv c -> take_step terminal ch c = Some c' -> inv c'.
Proof.
  destruct ch as [|i stale]; cbn [take_step].
  - apply finisher_step_inv.
  - apply registrant_step_inv.
Qed.

Lemma interleave_inv sched : forall c, inv c -> inv (interleave terminal sched c).
Proof.
  induction sched as [|ch sched IH]; intros c Hinv; [exact Hinv|].
  cbn [interleave]. destruct (take_step terminal ch c) as [c'|] eqn:Hstep.
  - apply IH. exact (step_inv ch c c' Hinv Hstep).
  - apply IH, Hinv.
Qed.


(** The registrants keep their continuations. *)
Lemma step_conts ch c c' :
  take_step terminal ch c = Some c' ->
  map fst (registrants c') = map fst (registrants c).
Proof.
  destruct ch as [|i stale]; cbn [take_step].
  - unfold finisher_step. destruct (finisher c) as [| |[|t todo]|];
      cbn [flush_and_lock]; intros Hs; inversion Hs; reflexivity.
  - unfold registrant_step.
    destruct (nth_error (registrants c) i) as [[cont pc]|] eqn:Hn;
      [|discriminate].
    destruct pc; try discriminate;
      try (destruct (try_add cont (shared_list c)) as [added cv]);
      intros Hs; inversion Hs; cbn [registrants];
      apply (map_fst_update _ _ _ _ _ Hn).
Qed.

Lemma interleave_conts sched : forall c,
  map fst (registrants (interleave terminal sched c)) = map fst (registrants c).
Proof.
  induction sched as [|ch sched IH]; intros c; [reflexivity|].
  cbn [interleave]. destruct (take_step terminal ch c) as [c'|] eqn:Hstep; [|apply IH].
  rewrite IH. exact (step_conts ch c c' Hstep).
Qed.

(** Nothing is handed to its scheduler twice. *)
Lemma inv_at_most_once c cont :
  inv c -> invocations ByFlush cont c + invocations ByRegistrant cont c <= 1.
Proof.
  intros [Hd Hr Hs _ _].
  destruct (in_dec Nat.eq_dec cont (map fst (registrants c))) as [Hin|Hout].
  - apply in_map_iff in Hin. destruct Hin as ([k pc] & Hk & Hin).
    cbn in Hk. subst k. rewrite Forall_forall in Hr.
    destruct (Hr _ Hin) as [Hh Hi]. cbn [fst snd] in Hh, Hi.
    unfold held in Hh. destruct pc; ptr_lia.
  - destruct (Hs cont Hout) as [Hh Hi]. unfold held in Hh. ptr_lia.
Qed.

(** Once every thread has returned, each registrant's continuation has
    been handed over once: by the flush if it registered, by the
    registrant otherwise. *)
Lemma inv_quiescent c cont pc :
  inv c -> quiescent c = true -> In (cont, pc) (registrants c) ->
  (pc = Registered
   /\ invocations ByFlush cont c = 1 /\ invocations ByRegistrant cont c = 0)
  \/ (pc = RanInline
      /\ invocations ByFlush cont c = 0 /\ invocations ByRegistrant cont c = 1).
Proof.
  intros [Hd Hr Hs Hse Hem] Hq Hin.
  unfold quiescent in Hq. apply andb_true_iff in Hq. destruct Hq as [Hf Hret].
  destruct (finisher c) eqn:Hfin; try discriminate Hf.
  cbn [has_flushed] in Hse. specialize (Hem Hse).
  rewrite forallb_forall in Hret. specialize (Hret _ Hin). cbn [snd] in Hret.
  rewrite Forall_forall in Hr. destruct (Hr _ Hin) as [Hh Hi].
  cbn [fst snd] in Hh, Hi. unfold held in Hh. rewrite Hem, Hfin in Hh.
  cbn [todo_of count_occ] in Hh.
  destruct pc; try discriminate Hret; [left|right]; repeat split;
    try assumption; ptr_lia.
Qed.

Lemma list_sum_middle {A} (g : A -> nat) l1 x l2 :
  list_sum (map g (l1 ++ x :: l2))
  = list_sum (map g l1) + g x + list_sum (map g l2).
Proof.
  rewrite map_app, list_sum_app. cbn [map].
  change (list_sum (g x :: map g l2)) with (g x + list_sum (map g l2)). lia.
Qed.

(** Every step brings the threads closer to having returned. *)
Lemma step_decreases ch c c' :
  take_step terminal ch c = Some c' -> steps_left c' < steps_left c.
Proof.
  destruct c as [st [its sl] f rs iv].
  destruct ch as [|i stale]; cbn [take_step].
  - unfold finisher_step, steps_left, finisher_steps. fields.
    destruct f as [| |[|t todo]|]; cbn [flush_and_lock];
      intros Hs; inversion Hs; fields; cbn [length]; lia.
  - unfold registrant_step. fields.
    destruct (nth_error rs i) as [[cont pc]|] eqn:Hn; [|discriminate].
    destruct (update_split rs i (cont, pc) _ Hn) as [Hl _].
    assert (Hup : forall pc', update rs i (cont, pc')
                              = firstn i rs ++ (cont, pc') :: skipn (S i) rs)
      by (intros pc'; apply (update_split rs i (cont, pc') _ Hn)).
    revert Hl Hup. generalize (firstn i rs) (skipn (S i) rs).
    intros l1 l2 Hl Hup.
    unfold steps_left, finisher_steps.
    destruct pc; try discriminate.
    + intros Hs; inversion Hs; fields. rewrite Hup, Hl.
      rewrite !list_sum_middle. cbn [snd].
      destruct (negb _); cbn [registrant_steps]; lia.
    + unfold try_add. fields. destruct sl;
        intros Hs; inversion Hs; fields; rewrite Hup, Hl;
        rewrite !list_sum_middle; cbn [snd registrant_steps];
        rewrite ?length_app; cbn [length]; destruct f; lia.
    + intros Hs; inversion Hs; fields. rewrite Hup, Hl.
      rewrite !list_sum_middle. cbn [snd registrant_steps]. lia.
Qed.

(** While a thread has not returned, some thread can take a step. *)
Lemma progress c :
  quiescent c = false -> exists ch c', take_step terminal ch c = Some c'.
Proof.
  intros Hq. unfold quiescent in Hq. apply andb_false_iff in Hq.
  destruct Hq as [Hf|Hr].
  - exists Finisher. cbn [take_step]. unfold finisher_step.
    destruct (finisher c) as [| |[|t todo]|]; try discriminate Hf;
      cbn [flush_and_lock]; eauto.
  - assert (Hex : exists r, In r (registrants c) /\ returned (snd r) = false).
    { clear - Hr. induction (registrants c) as [|r l IH]; [discriminate|].
      cbn in Hr. apply andb_false_iff in Hr. destruct Hr as [Hr|Hr].
      - exists r. split; [left; reflexivity | exact Hr].
      - destruct (IH Hr) as (r' & Hin & Hret). exists r'.
        split; [right; exact Hin | exact Hret]. }
    destruct Hex as ([cont pc] & Hin & Hret). cbn [snd] in Hret.
    apply In_nth_error in Hin. destruct Hin as (i & Hn).
    exists (Registrant i false). cbn [take_step]. unfold registrant_step.
    rewrite Hn. destruct pc; try discriminate Hret; eauto.
    destruct (try_add cont (shared_list c)) as [added cv]. eauto.
Qed.

End Preservation.

(** *** Agreement with the sequential definitions

    A thread running alone through the steps above does what the member
    function it executes does in [Task]. *)

Section Agreement.
Context {R E F : Type}.
Variable terminal : task_state.

(** [add_continuation] run without interference. *)
Lemma registrant_alone_agrees (n : task_func R E F) f cont :
  let c := interleave terminal
             [Registrant 0 false; Registrant 0 false; Registrant 0 false]
             (mk_config (Task.state n) (Task.continuations n) f
                        [(cont, AtLoad)] []) in
  let n' := snd (add_continuation Worlds.solo
                   (Task.step Worlds.solo (EvSchedule cont) (fun n => n))
                   cont n) in
  shared_list c = Task.continuations n'
  /\ events n' = events n ++ map (fun i => EvSchedule (snd i)) (invoked c)
  /\ returned (snd (nth 0 (registrants c) (cont, AtLoad))) = true.
Proof.
  destruct n as [s [its sl] st fo l].
  destruct s, sl; cbn; rewrite ?app_nil_r; repeat split;
    unfold events; cbn; rewrite ?map_app; reflexivity.
Qed.

Lemma interleave_step ch sched c c' :
  take_step terminal ch c = Some c' ->
  interleave terminal (ch :: sched) c = interleave terminal sched c'.
Proof. intros Hs. cbn [interleave]. rewrite Hs. reflexivity. Qed.

Lemma flushing_alone st cv rs : forall todo iv,
  interleave terminal (repeat Finisher (S (length todo)))
      (mk_config st cv (Flushing todo) rs iv)
  = mk_config st cv Finished rs (iv ++ map (pair ByFlush) todo).
Proof.
  induction todo as [|t todo IH]; intros iv.
  - cbn. rewrite app_nil_r. reflexivity.
  - change (repeat Finisher (S (length (t :: todo))))
      with (Finisher :: repeat Finisher (S (length todo))).
    rewrite (interleave_step Finisher _ _
               (mk_config st cv (Flushing todo) rs (iv ++ [(ByFlush, t)])))
      by reflexivity.
    rewrite IH, <- app_assoc. reflexivity.
Qed.

(** [finish()] (or the end of [cancel_base]) run without interference:
    the terminal state is stored, the list sealed and emptied, and every
    entry handed over once, as [run_continuations] does. *)
Lemma finisher_alone_agrees (n : task_func R E F) rs :
  let c := interleave terminal
             (repeat Finisher (3 + length (items (Task.continuations n))))
             (mk_config (Task.state n) (Task.continuations n) AtStore rs []) in
  let n' := snd (Task.store_state Worlds.solo terminal n) in
  let n'' := snd (run_continuations Worlds.solo n') in
  shared_state c = Task.state n''
  /\ shared_list c = Task.continuations n''
  /\ events n'' = events n ++ [EvStore terminal]
                    ++ map (fun i => EvSchedule (snd i)) (invoked c)
  /\ quiescent (mk_config (shared_state c) (shared_list c) (finisher c) [] (invoked c))
     = true.
Proof.
  destruct n as [s [its sl] st fo l].
  cbn [Task.state Task.continuations items].
  change (repeat Finisher (3 + length its))
    with (Finisher :: Finisher :: repeat Finisher (S (length its))).
  rewrite (interleave_step Finisher _ _
             (mk_config terminal (mk_cv its sl) AtFlush rs [])) by reflexivity.
  rewrite (interleave_step Finisher _ _
             (mk_config terminal (mk_cv [] true) (Flushing its) rs []))
    by reflexivity.
  rewrite flushing_alone. cbn [shared_state shared_list finisher invoked app].
  rewrite (TaskFacts.run_continuations_eq Worlds.solo TaskFacts.solo_lens
             TaskFacts.solo_inert).
  cbn [snd Worlds.solo put_node node_of Task.store_state Task.step].
  repeat split.
  unfold flushed. rewrite TaskFacts.events_scheduled.
  cbn [Task.continuations set_continuations Task.record set_state items].
  rewrite TaskFacts.events_set_continuations, TaskFacts.events_record,
    TaskFacts.events_set_state, map_map, <- app_assoc.
  reflexivity.
Qed.

End Agreement.

(** C1.  For every task and every set of continuations passed to
    [add_continuation] by threads racing with the thread that publishes
    the terminal state and flushes, under every interleaving of their
    atomic steps (and whatever the relaxed loads return):
    - at no time has a continuation been handed to its scheduler twice;
    - while some thread has not returned, some thread can take a step,
      and every step strictly decreases the number of steps left, so
      every interleaving ends with all threads returned;
    - once all threads have returned, every continuation has been handed
      to its scheduler exactly once: by the flush exactly when its
      [try_add] succeeded, by the registrant itself (inline) exactly when
      it did not register. *)
Theorem continuation_scheduled_exactly_once
    (terminal : task_state) (conts : list task_ptr) (sched : list choice) :
  NoDup conts ->
  let c := interleave terminal sched (initial conts) in
  (forall cont,
     invocations ByFlush cont c + invocations ByRegistrant cont c <= 1)
  /\ (quiescent c = false ->
      exists ch c', take_step terminal ch c = Some c'
                    /\ steps_left c' < steps_left c)
  /\ (quiescent c = true ->
      forall cont, In cont conts ->
        invocations ByFlush cont c + invocations ByRegistrant cont c = 1
        /\ (In (cont, Registered) (registrants c)
            <-> invocations ByFlush cont c = 1)
        /\ (In (cont, RanInline) (registrants c)
            <-> invocations ByRegistrant cont c = 1)).
Proof.
  intros Hnd c.
  assert (Hinv : inv c) by (apply interleave_inv, inv_initial, Hnd).
  assert (Hconts : map fst (registrants c) = conts).
  { unfold c. rewrite interleave_conts. cbn. rewrite map_map. cbn. apply map_id. }
  split; [|split].
  - intros cont. apply inv_at_most_once, Hinv.
  - intros Hq. destruct (progress terminal c Hq) as (ch & c' & Hstep).
    exists ch, c'. split; [exact Hstep|].
    exact (step_decreases terminal ch c c' Hstep).
  - intros Hq cont Hin. rewrite <- Hconts in Hin.
    apply in_map_iff in Hin. destruct Hin as ([k pc] & Hk & Hin).
    cbn in Hk. subst k.
    assert (Huniq : forall pc', In (cont, pc') (registrants c) -> pc' = pc).
    { intros pc' Hin'. destruct Hinv as [Hd _ _ _ _].
      clear - Hd Hin Hin'. induction (registrants c) as [|[k q] l IH];
        [contradiction|].
      cbn in Hd. inversion Hd as [|? ? Hnotin Hd']; subst.
      destruct Hin as [Hin|Hin], Hin' as [Hin'|Hin'].
      - congruence.
      - injection Hin as -> ->. exfalso. apply Hnotin.
        apply (in_map fst) in Hin'. exact Hin'.
      - injection Hin' as -> ->. exfalso. apply Hnotin.
        apply (in_map fst) in Hin. exact Hin.
      - apply IH; assumption. }
    destruct (inv_quiescent c cont pc Hinv Hq Hin)
      as [(-> & Hf & Hr)|(-> & Hf & Hr)]; rewrite Hf, Hr.
    + split; [reflexivity|]. split; split; intros H; try exact Hin;
        try reflexivity; try discriminate.
      apply Huniq in H. discriminate.
    + split; [reflexivity|]. split; split; intros H; try exact Hin;
        try reflexivity; try discriminate.
      apply Huniq in H. discriminate.
Qed.

Example race_outcome :
  let c := interleave completed race (initial [1; 2; 3]) in
  quiescent c = true
  /\ registrants c = [(1, Registered); (2, RanInline); (3, RanInline)]
  /\ invoked c = [(ByFlush, 1); (ByRegistrant, 2); (ByRegistrant, 3)].
Proof. cbn. repeat split. Qed.

Lemma continuation_scheduled_exactly_once_witness :
  NoDup [1; 2; 3]
  /\ quiescent (interleave completed race (initial [1; 2; 3])) = true
  /\ forall cont, In cont [1; 2; 3] ->
       invocations ByFlush cont (interleave completed race (initial [1; 2; 3]))
       + invocations ByRegistrant cont (interleave completed race (initial [1; 2; 3]))
       = 1.
Proof.
  assert (Hnd : NoDup [1; 2; 3]).
  { repeat constructor; cbn; intuition discriminate. }
  split; [exact Hnd|]. split; [reflexivity|].
  intros cont Hin.
  destruct (continuation_scheduled_exactly_once completed [1; 2; 3] race Hnd)
    as (_ & _ & Hdone).
  exact (proj1 (Hdone eq_refl cont Hin)).
Defined.

End RegistrationFacts.

(* ================================================================== *)
(** ** More on the wait event: signalling, waiting, polling together *)
(* ================================================================== *)

Module WaitEventMore.
Import WaitEvent.
Local Open Scope Z_scope.

(** Equalities between masks, bit by bit. *)
Ltac bitwise :=
  apply Z.bits_inj'; intros i Hi;
  repeat first [ rewrite Z.land_spec | rewrite Z.lor_spec
               | rewrite Z.lnot_spec by exact Hi | rewrite Z.bits_0 ];
  repeat match goal with
         | |- context [Z.testbit ?x i] => destruct (Z.testbit x i)
         end;
  reflexivity.

Lemma land_lnot_land m e : Z.land (Z.land m (Z.lnot e)) e = 0.
Proof. bitwise. Qed.

Lemma land_lnot_twice m e :
  Z.land (Z.land m (Z.lnot e)) (Z.lnot e) = Z.land m (Z.lnot e).
Proof. bitwise. Qed.

Lemma claimed_or_left m e : Z.lor (Z.land m e) (Z.land m (Z.lnot e)) = m.
Proof. bitwise. Qed.

Lemma claimed_and_left m e : Z.land (Z.land m e) (Z.land m (Z.lnot e)) = 0.
Proof. bitwise. Qed.

Lemma fold_signal_mask es : forall w,
  fold_left signal es w
  = mk_event (fold_left Z.lor es (event_mask w)) (initialized w).
Proof.
  induction es as [|e es IH]; intros w.
  - destruct w; reflexivity.
  - cbn [fold_left]. rewrite IH. reflexivity.
Qed.

(** [wait] hands over everything signalled since the mask was last
    cleared, in one go: after any series of [signal] calls it returns
    the union of the mask and of all the signalled bits and leaves the
    mask at zero; it blocks exactly when that union is zero.  Right after
    a [wait] that returned, a second [wait] blocks and [try_wait] finds
    nothing, whatever is asked for. *)
Theorem wait_returns_everything_signalled (w : task_wait_event) (es : list Z) :
  let pending := fold_left Z.lor es (event_mask w) in
  let w' := fold_left signal es w in
  (pending = 0 -> wait w' = None)
  /\ (pending <> 0 ->
      wait w' = Some (pending, mk_event 0 (initialized w))
      /\ wait (mk_event 0 (initialized w)) = None
      /\ forall e, try_wait (mk_event 0 (initialized w)) e
                   = (false, mk_event 0 (initialized w))).
Proof.
  cbn zeta. rewrite fold_signal_mask. unfold wait. cbn [event_mask initialized].
  split.
  - intros ->. reflexivity.
  - intros Hp. apply Z.eqb_neq in Hp. rewrite Hp.
    split; [reflexivity|]. split; [reflexivity|].
    intros e. unfold try_wait. cbn [event_mask initialized].
    rewrite !Z.land_0_l. reflexivity.
Qed.

(** Signals do not count and do not queue: signalling an event kind that
    is already pending changes nothing, two signals can be swapped, and
    two signals amount to one signal of the union. *)
Theorem signals_coalesce (w : task_wait_event) (a b : Z) :
  signal (signal w a) a = signal w a
  /\ signal (signal w a) b = signal (signal w b) a
  /\ signal (signal w a) b = signal w (Z.lor a b).
Proof.
  unfold signal. cbn [event_mask initialized]. repeat split; f_equal.
  - rewrite <- Z.lor_assoc, Z.lor_diag. reflexivity.
  - rewrite <- !Z.lor_assoc, (Z.lor_comm a b). reflexivity.
  - rewrite Z.lor_assoc. reflexivity.
Qed.

(** [try_wait] and the [wait] that follows share the pending events
    without loss or duplication: every pending bit is either among those
    [try_wait] reported (the bits of [m & e]) or among those the next
    [wait] returns, never both; [wait] blocks when [try_wait] took all. *)
Theorem try_wait_then_wait_share_the_mask (w : task_wait_event) (e : Z) :
  let m := event_mask w in
  let claimed := Z.land m e in
  let w1 := snd (try_wait w e) in
  Z.lor claimed (event_mask w1) = m
  /\ Z.land claimed (event_mask w1) = 0
  /\ (event_mask w1 <> 0 ->
      wait w1 = Some (event_mask w1, mk_event 0 (initialized w)))
  /\ (event_mask w1 = 0 -> wait w1 = None).
Proof.
  cbn zeta. unfold try_wait, wait. cbn [snd event_mask initialized].
  split; [apply claimed_or_left|]. split; [apply claimed_and_left|].
  split.
  - intros Hne. apply Z.eqb_neq in Hne. rewrite Hne. reflexivity.
  - intros ->. reflexivity.
Qed.

(** Polling again for the same events finds nothing and changes
    nothing: an event reported by [try_wait] is reported once. *)
Theorem try_wait_reports_once (w : task_wait_event) (e : Z) :
  let w1 := snd (try_wait w e) in
  try_wait w1 e = (false, w1).
Proof.
  cbn zeta. unfold try_wait. cbn [snd event_mask initialized].
  rewrite land_lnot_land, land_lnot_twice. reflexivity.
Qed.

(** [init] may be called any number of times: the second call does
    nothing, and no call touches the pending events. *)
Theorem init_is_idempotent (w : task_wait_event) :
  init (init w) = init w
  /\ event_mask (init w) = event_mask w
  /\ initialized (init w) = true.
Proof. destruct w as [m []]; repeat split. Qed.

End WaitEventMore.

(* ================================================================== *)
(** ** More on the aligned array: construction that succeeds or fails *)
(* ================================================================== *)

Module AlignedArrayMore.
Import AlignedArray AlignedArrayFacts.

Section AnyConstructor.
Variable throws : nat -> bool.

(** The loop runs up to the first index at which the constructor throws. *)
Lemma construct_loop_first_throw k :
  forall todo i, i <= k -> k < i + todo ->
    (forall j, i <= j < k -> throws j = false) -> throws k = true ->
    construct_loop throws i todo = (k, true, map EvConstruct (seq i (k - i))).
Proof.
  induction todo as [|todo IH]; intros i Hik Hk Hbefore Hat; [lia|].
  cbn [construct_loop].
  destruct (Nat.eq_dec i k) as [->|Hne].
  - rewrite Hat, Nat.sub_diag. reflexivity.
  - rewrite (Hbefore i) by lia.
    rewrite IH by (try lia; try assumption; intros j Hj; apply Hbefore; lia).
    replace (k - i) with (S (k - S i)) by lia. reflexivity.
Qed.

Lemma construct_loop_no_throw :
  forall todo i,
    (forall j, i <= j < i + todo -> throws j = false) ->
    construct_loop throws i todo
    = (i + todo, false, map EvConstruct (seq i todo)).
Proof.
  induction todo as [|todo IH]; intros i Hno.
  - cbn. rewrite Nat.add_0_r. reflexivity.
  - cbn [construct_loop]. rewrite (Hno i) by lia.
    rewrite IH by (intros j Hj; apply Hno; lia).
    replace (S i + todo) with (i + S todo) by lia. reflexivity.
Qed.

(** When no element constructor throws, [aligned_array(n)] allocates
    once and constructs the elements 0 to n-1 in ascending order; the
    destructor of the array then destroys each element exactly once, in
    ascending order too, and frees the block once. *)
Theorem construct_then_destruct (n : nat) :
  (forall i, i < n -> throws i = false) ->
  exists a,
    construct throws n = (inl a, EvAlloc n :: map EvConstruct (seq 0 n))
    /\ length a = n /\ has_ptr a = true
    /\ destruct a = map EvDestroy (seq 0 n) ++ [EvFree]
    /\ forall j, destroyed (snd (construct throws n) ++ destruct a) j
                 = if j <? n then 1 else 0.
Proof.
  intros Hno. exists (mk_array n true).
  assert (Hc : construct throws n
               = (inl (mk_array n true), EvAlloc n :: map EvConstruct (seq 0 n))).
  { unfold construct.
    rewrite construct_loop_no_throw by (intros j Hj; apply Hno; lia).
    reflexivity. }
  split; [exact Hc|]. split; [reflexivity|]. split; [reflexivity|].
  split; [reflexivity|].
  intros j. rewrite Hc. cbn [snd].
  change (EvAlloc n :: map EvConstruct (seq 0 n))
    with ([EvAlloc n] ++ map EvConstruct (seq 0 n)).
  rewrite !destroyed_app, destroyed_constructs, destruct_each_once.
  reflexivity.
Qed.

(** When the constructor of element [k] is the first to throw, the
    elements before [k] and no other have been constructed, the block is
    freed exactly once, the exception leaves the constructor of the array
    (no array object comes to exist), and the event sequence is the one
    below: [~T()] runs [k] times, each time on the element at index [k]. *)
Theorem construct_first_throw (n k : nat) :
  k < n -> (forall j, j < k -> throws j = false) -> throws k = true ->
  construct throws n
  = (inr tt,
     EvAlloc n :: map EvConstruct (seq 0 k)
       ++ repeat (EvDestroy k) k ++ [EvFree; EvRethrow])
  /\ count_occ array_event_eq_dec (snd (construct throws n)) EvFree = 1
  /\ (forall j, In (EvConstruct j) (snd (construct throws n)) <-> j < k)
  /\ (forall j, destroyed (snd (construct throws n)) j
                = if j =? k then k else 0).
Proof.
  intros Hk Hbefore Hat.
  assert (Hc : construct throws n
               = (inr tt,
                  EvAlloc n :: map EvConstruct (seq 0 k)
                    ++ repeat (EvDestroy k) k ++ [EvFree; EvRethrow])).
  { unfold construct.
    rewrite (construct_loop_first_throw k) by
      (try lia; try assumption; intros j Hj; apply Hbefore; lia).
    rewrite Nat.sub_0_r, cleanup_loop_repeat. reflexivity. }
  split; [exact Hc|]. rewrite Hc. cbn [snd].
  split; [|split].
  - change (EvAlloc n :: ?l) with ([EvAlloc n] ++ l).
    rewrite !count_occ_app.
    assert (H0 : count_occ array_event_eq_dec
                   (map EvConstruct (seq 0 k)) EvFree = 0).
    { apply count_occ_not_In. intros Hin. apply in_map_iff in Hin.
      destruct Hin as (x & Hx & _). discriminate. }
    rewrite H0, count_occ_repeat_neq by discriminate. reflexivity.
  - intros j. split.
    + intros [Hin|Hin]; [discriminate|].
      apply in_app_or in Hin. destruct Hin as [Hin|Hin].
      * apply in_map_iff in Hin. destruct Hin as (x & Hx & Hin).
        injection Hx as <-. apply in_seq in Hin. lia.
      * apply in_app_or in Hin. destruct Hin as [Hin|Hin].
        -- apply repeat_spec in Hin. discriminate.
        -- cbn in Hin. intuition discriminate.
    + intros Hj. right. apply in_or_app. left.
      apply in_map. apply in_seq. lia.
  - intros j. change (EvAlloc n :: ?l) with ([EvAlloc n] ++ l).
    rewrite !destroyed_app, destroyed_constructs, destroyed_repeat.
    unfold destroyed. cbn. lia.
Qed.

End AnyConstructor.

Lemma construct_then_destruct_witness :
  exists a,
    construct (fun _ => false) 3
    = (inl a, [EvAlloc 3; EvConstruct 0; EvConstruct 1; EvConstruct 2])
    /\ destruct a = [EvDestroy 0; EvDestroy 1; EvDestroy 2; EvFree].
Proof.
  destruct (construct_then_destruct (fun _ => false) 3 (fun _ _ => eq_refl))
    as (a & Hc & _ & _ & Hd & _).
  exists a. split; [exact Hc | exact Hd].
Defined.

Lemma construct_first_throw_witness :
  construct (throws_at 2) 4
  = (inr tt, [EvAlloc 4; EvConstruct 0; EvConstruct 1;
              EvDestroy 2; EvDestroy 2; EvFree; EvRethrow]).
Proof.
  refine (proj1 (construct_first_throw (throws_at 2) 4 2 _ _ eq_refl)).
  - lia.
  - intros j Hj. unfold throws_at. apply Nat.eqb_neq. lia.
Defined.

End AlignedArrayMore.

(* ================================================================== *)
(** ** Moving aligned arrays: ownership of the blocks *)
(* ================================================================== *)

Module AlignedMovesFacts.
Import AlignedMoves.
Import Registration (update).

Section Update.
Context {A : Type}.

Lemma length_update (l : list A) i a : length (update l i a) = length l.
Proof.
  revert i. induction l as [|x l IH]; intros [|i]; cbn; try reflexivity.
  rewrite IH. reflexivity.
Qed.

Lemma nth_error_update_same (l : list A) i a x :
  nth_error l i = Some x -> nth_error (update l i a) i = Some a.
Proof.
  revert i. induction l as [|y l IH]; intros [|i] Hn; try discriminate.
  - reflexivity.
  - cbn. apply IH. exact Hn.
Qed.

Lemma nth_error_update_other (l : list A) i j a :
  i <> j -> nth_error (update l i a) j = nth_error l j.
Proof.
  revert i j. induction l as [|y l IH]; intros [|i] [|j] Hne;
    try reflexivity; try congruence.
  cbn. apply IH. congruence.
Qed.

(** Replacing an entry changes a sum over the list by the difference of
    the two entries. *)
Lemma sum_update (g : A -> nat) (l : list A) i a x :
  nth_error l i = Some x ->
  list_sum (map g (update l i a)) + g x = list_sum (map g l) + g a.
Proof.
  revert i. induction l as [|y l IH]; intros [|i] Hn; try discriminate.
  - injection Hn as ->. cbn. lia.
  - cbn. specialize (IH i Hn). unfold list_sum in IH. lia.
Qed.

Lemma Forall_update (Q : A -> Prop) (l : list A) i a :
  Forall Q l -> Q a -> Forall Q (update l i a).
Proof.
  intros Hl Ha. revert i. induction Hl as [|y l Hy Hl IH]; intros [|i]; cbn;
    constructor; auto.
Qed.

End Update.

Lemma freed_app p l1 l2 : freed p (l1 ++ l2) = freed p l1 + freed p l2.
Proof. apply count_occ_app. Qed.
Lemma destroyed_at_app p i l1 l2 :
  destroyed_at p i (l1 ++ l2) = destroyed_at p i l1 + destroyed_at p i l2.
Proof. apply count_occ_app. Qed.

Lemma count_seq i n :
  count_occ Nat.eq_dec (seq 0 n) i = if i <? n then 1 else 0.
Proof.
  destruct (Nat.ltb_spec i n) as [Hlt|Hge].
  - apply NoDup_count_occ'; [apply seq_NoDup | apply in_seq; lia].
  - apply count_occ_not_In. rewrite in_seq. lia.
Qed.

Lemma count_destroys ptr q i l :
  count_occ mem_event_eq_dec (map (MDestroy ptr) l) (MDestroy q i)
  = match ptr, q with
    | Some a, Some b => if a =? b then count_occ Nat.eq_dec l i else 0
    | None, None => count_occ Nat.eq_dec l i
    | _, _ => 0
    end.
Proof.
  induction l as [|x l IH].
  - destruct ptr as [a|], q as [b|]; try reflexivity.
    destruct (a =? b); reflexivity.
  - cbn [map count_occ].
    destruct (mem_event_eq_dec (MDestroy ptr x) (MDestroy q i)) as [Heq|Hne];
      destruct (Nat.eq_dec x i) as [Hx|Hx]; rewrite IH.
    + injection Heq as -> _. destruct q as [b|]; [rewrite Nat.eqb_refl|];
        reflexivity.
    + injection Heq as _ Hxi. contradiction.
    + subst x. destruct ptr as [a|], q as [b|]; try reflexivity;
        [destruct (Nat.eqb_spec a b) as [->|]; [congruence|reflexivity]
        | congruence].
    + destruct ptr as [a|], q as [b|]; reflexivity.
Qed.

Lemma count_free_in_destroys ptr q l :
  count_occ mem_event_eq_dec (map (MDestroy ptr) l) (MFree q) = 0.
Proof.
  apply count_occ_not_In. intros Hin. apply in_map_iff in Hin.
  destruct Hin as (x & Hx & _). discriminate.
Qed.

Lemma freed_destroy_array p a :
  freed p (destroy_array a) = points_to (own_ptr a) p.
Proof.
  unfold freed, destroy_array. rewrite count_occ_app, count_free_in_destroys.
  cbn [count_occ].
  destruct (mem_event_eq_dec (MFree (own_ptr a)) (MFree (Some p))) as [Heq|Hne].
  - injection Heq as ->. cbn [points_to]. rewrite Nat.eqb_refl. reflexivity.
  - unfold points_to. destruct (own_ptr a) as [q|]; [|reflexivity].
    destruct (Nat.eqb_spec q p) as [->|]; [congruence | reflexivity].
Qed.

Lemma destroyed_at_destroy_array p i a :
  destroyed_at p i (destroy_array a)
  = if i <? own_length a then points_to (own_ptr a) p else 0.
Proof.
  unfold destroyed_at, destroy_array. rewrite count_occ_app, count_destroys.
  cbn [count_occ].
  destruct (mem_event_eq_dec (MFree (own_ptr a)) (MDestroy (Some p) i))
    as [Heq|_]; [discriminate Heq|].
  rewrite count_seq. unfold points_to.
  destruct (own_ptr a) as [q|]; [destruct (q =? p)|];
    destruct (i <? own_length a); reflexivity.
Qed.

Lemma null_destroys_destroy_array sizes i a :
  valid sizes a ->
  count_occ mem_event_eq_dec (destroy_array a) (MDestroy None i) = 0.
Proof.
  unfold valid, destroy_array. intros Hv. rewrite count_occ_app, count_destroys.
  cbn [count_occ].
  destruct (mem_event_eq_dec (MFree (own_ptr a)) (MDestroy None i))
    as [Heq|_]; [discriminate Heq|].
  destruct (own_ptr a) as [q|]; [reflexivity|]. rewrite Hv. reflexivity.
Qed.

Lemma valid_null sizes : valid sizes null_array.
Proof. reflexivity. Qed.

Lemma owners_update p l i a x :
  nth_error l i = Some x ->
  owners p (update l i a) + points_to (own_ptr x) p
  = owners p l + points_to (own_ptr a) p.
Proof.
  intros Hn. unfold owners.
  exact (sum_update (fun x => points_to (own_ptr x) p) l i a x Hn).
Qed.

Lemma owners_cons p x l :
  owners p (x :: l) = points_to (own_ptr x) p + owners p l.
Proof. reflexivity. Qed.

Lemma owners_one p x : owners p [x] = points_to (own_ptr x) p.
Proof. unfold owners. cbn. lia. Qed.

Lemma owners_app p l1 l2 : owners p (l1 ++ l2) = owners p l1 + owners p l2.
Proof. unfold owners. rewrite map_app, list_sum_app. reflexivity. Qed.

Lemma ok_empty : ok empty_store.
Proof.
  split; cbn [empty_store vars sizes mlog].
  - constructor.
  - intros p. reflexivity.
  - intros p i. destruct (i <? nth p [] 0); reflexivity.
  - intros i. reflexivity.
Qed.

(** A destructor run on a valid object keeps the element counts in step
    with the frees. *)
Lemma elems_after_destroy s this p i :
  ok s -> valid (sizes s) this ->
  destroyed_at p i (mlog s ++ destroy_array this)
  = if i <? nth p (sizes s) 0
    then freed p (mlog s ++ destroy_array this) else 0.
Proof.
  intros Hok Hv.
  rewrite destroyed_at_app, freed_app, (ok_elems s Hok),
    destroyed_at_destroy_array, freed_destroy_array.
  unfold valid in Hv. unfold points_to.
  destruct (own_ptr this) as [q|].
  - destruct (Nat.eqb_spec q p) as [->|Hne].
    + rewrite (nth_error_nth _ _ 0 Hv).
      destruct (i <? own_length this); lia.
    + destruct (i <? own_length this), (i <? nth p (sizes s) 0); lia.
  - destruct (i <? own_length this), (i <? nth p (sizes s) 0); lia.
Qed.

Lemma exec_ok st s : ok s -> ok (exec st s).
Proof.
  intros Hok. pose proof Hok as [Hv Ho He Hn].
  destruct st as [n|j|i j|i]; cbn [exec].
  - (* a new array *)
    unfold new_array. split; cbn [vars sizes mlog].
    + apply Forall_app. split.
      * eapply Forall_impl; [|exact Hv]. intros x Hx. unfold valid in *.
        destruct (own_ptr x) as [q|]; [|exact Hx].
        rewrite nth_error_app1; [exact Hx|].
        apply nth_error_Some. congruence.
      * constructor; [|constructor]. unfold valid. cbn [own_ptr own_length].
        rewrite nth_error_app2, Nat.sub_diag by lia. reflexivity.
    + intros p. rewrite owners_app, owners_one, length_app. cbn [length].
      cbn [own_ptr points_to]. specialize (Ho p).
      destruct (Nat.eqb_spec (length (sizes s)) p) as [Heq|Hne];
        destruct (Nat.ltb_spec p (length (sizes s)));
        destruct (Nat.ltb_spec p (length (sizes s) + 1)); lia.
    + intros p i. rewrite He.
      destruct (Nat.lt_ge_cases p (length (sizes s))) as [Hlt|Hge].
      * rewrite app_nth1 by exact Hlt. reflexivity.
      * assert (Hf : freed p (mlog s) = 0).
        { specialize (Ho p). destruct (Nat.ltb_spec p (length (sizes s))); lia. }
        rewrite Hf, (nth_overflow (sizes s)) by exact Hge.
        destruct (i <? nth p (sizes s ++ [n]) 0); reflexivity.
    + exact Hn.
  - (* move construction *)
    unfold move_construct.
    destruct (nth_error (vars s) j) as [other|] eqn:Hj; [|exact Hok].
    assert (Hvo : valid (sizes s) other).
    { rewrite Forall_forall in Hv. apply Hv. eapply nth_error_In. exact Hj. }
    split; cbn [vars sizes mlog].
    + apply Forall_app. split.
      * apply Forall_update; [exact Hv | apply valid_null].
      * constructor; [exact Hvo | constructor].
    + intros p. rewrite owners_app, owners_one. cbn [own_ptr].
      pose proof (owners_update p (vars s) j null_array other Hj) as Hu.
      cbn [null_array own_ptr points_to] in Hu. specialize (Ho p). lia.
    + exact He.
    + exact Hn.
  - (* move assignment *)
    unfold move_assign.
    destruct (nth_error (vars s) i) as [this|] eqn:Hi; [|exact Hok].
    destruct (nth_error (update (vars s) i null_array) j) as [other|] eqn:Hj;
      [|exact Hok].
    assert (Hvt : valid (sizes s) this).
    { rewrite Forall_forall in Hv. apply Hv. eapply nth_error_In. exact Hi. }
    assert (Hv1 : Forall (valid (sizes s)) (update (vars s) i null_array))
      by (apply Forall_update; [exact Hv | apply valid_null]).
    assert (Hvo : valid (sizes s) other).
    { rewrite Forall_forall in Hv1. apply Hv1. eapply nth_error_In. exact Hj. }
    pose proof (nth_error_update_same (vars s) i null_array this Hi) as Hi1.
    assert (Hj2 : nth_error (update (update (vars s) i null_array) i other) j
                  = Some other).
    { destruct (Nat.eq_dec i j) as [<-|Hne].
      - apply (nth_error_update_same _ _ _ _ Hi1).
      - rewrite nth_error_update_other by exact Hne. exact Hj. }
    split; cbn [vars sizes mlog].
    + apply Forall_update; [|apply valid_null].
      apply Forall_update; [exact Hv1 | exact Hvo].
    + intros p. rewrite freed_app, freed_destroy_array.
      pose proof (owners_update p _ i null_array this Hi) as H1.
      pose proof (owners_update p _ i other null_array Hi1) as H2.
      pose proof (owners_update p _ j null_array other Hj2) as H3.
      cbn [null_array own_ptr points_to] in H1, H2, H3.
      specialize (Ho p). lia.
    + intros p k. apply elems_after_destroy; assumption.
    + intros k. rewrite count_occ_app, Hn.
      rewrite (null_destroys_destroy_array (sizes s)) by exact Hvt. reflexivity.
  - (* assignment of nullptr *)
    unfold assign_null.
    destruct (nth_error (vars s) i) as [this|] eqn:Hi; [|exact Hok].
    assert (Hvt : valid (sizes s) this).
    { rewrite Forall_forall in Hv. apply Hv. eapply nth_error_In. exact Hi. }
    split; cbn [vars sizes mlog].
    + apply Forall_update; [exact Hv | apply valid_null].
    + intros p. rewrite !freed_app, !freed_destroy_array.
      pose proof (owners_update p _ i null_array this Hi) as H1.
      cbn [null_array own_ptr points_to] in *. specialize (Ho p). lia.
    + intros p k. rewrite app_assoc.
      rewrite destroyed_at_app, freed_app.
      rewrite (elems_after_destroy s this p k Hok Hvt).
      change (destroyed_at p k (destroy_array null_array)) with 0.
      change (freed p (destroy_array null_array)) with 0.
      rewrite !Nat.add_0_r. reflexivity.
    + intros k. rewrite !count_occ_app, Hn.
      rewrite (null_destroys_destroy_array (sizes s)) by exact Hvt. reflexivity.
Qed.

Lemma fold_exec_ok prog : forall s,
  ok s -> ok (fold_left (fun s st => exec st s) prog s).
Proof.
  induction prog as [|st prog IH]; intros s Hok; [exact Hok|].
  cbn [fold_left]. apply IH, exec_ok, Hok.
Qed.

(** The destructors of the objects still alive free what they own. *)
Lemma destroy_all_counts sizes (l : list owned_array) :
  Forall (valid sizes) l ->
  (forall p, freed p (flat_map destroy_array l) = owners p l)
  /\ (forall p i, destroyed_at p i (flat_map destroy_array l)
                  = if i <? nth p sizes 0 then owners p l else 0)
  /\ (forall i, count_occ mem_event_eq_dec (flat_map destroy_array l)
                  (MDestroy None i) = 0).
Proof.
  induction 1 as [|x l Hx Hl (IH1 & IH2 & IH3)].
  - split; [|split]; intros; cbn [flat_map]; try reflexivity.
    destruct (i <? nth p sizes 0); reflexivity.
  - split; [|split].
    + intros p. cbn [flat_map].
      rewrite freed_app, freed_destroy_array, IH1, owners_cons. reflexivity.
    + intros p i. cbn [flat_map].
      rewrite destroyed_at_app, destroyed_at_destroy_array, IH2.
      rewrite owners_cons.
      unfold valid in Hx. unfold points_to.
      destruct (own_ptr x) as [q|].
      * destruct (Nat.eqb_spec q p) as [->|Hne].
        -- rewrite (nth_error_nth _ _ 0 Hx).
           destruct (i <? own_length x); lia.
        -- destruct (i <? own_length x), (i <? nth p sizes 0); lia.
      * destruct (i <? own_length x), (i <? nth p sizes 0); lia.
    + intros i. cbn [flat_map]. rewrite count_occ_app, IH3.
      rewrite (null_destroys_destroy_array sizes) by exact Hx. reflexivity.
Qed.

Lemma owners_rev p l : owners p (rev l) = owners p l.
Proof.
  unfold owners. rewrite map_rev.
  induction (map (fun x => points_to (own_ptr x) p) l) as [|a m IH];
    [reflexivity|].
  cbn [rev]. rewrite list_sum_app, IH. unfold list_sum. cbn. lia.
Qed.

(** At no point of any program is a block freed twice, or an element
    destroyed more often than its block is freed. *)
Theorem never_freed_twice (prog : list statement) :
  let s := fold_left (fun s st => exec st s) prog empty_store in
  forall p, freed p (mlog s) <= 1
            /\ forall i, destroyed_at p i (mlog s) <= freed p (mlog s).
Proof.
  cbn zeta. intros p.
  pose proof (fold_exec_ok prog empty_store ok_empty) as Hok.
  split.
  - pose proof (ok_owner _ Hok p) as Ho. destruct (_ <? _); lia.
  - intros i. rewrite (ok_elems _ Hok). destruct (_ <? _); lia.
Qed.

(** Whatever a program does with its arrays (creating them, move
    constructing, move assigning, also onto themselves, assigning
    [nullptr]), once all its objects are out of scope every block it
    allocated has been freed exactly once, every element of every block
    has been destroyed exactly once, and no destructor was ever run
    through a null pointer. *)
Theorem every_block_released_once (prog : list statement) :
  let s := run_program prog in
  (forall p, freed p (mlog s) = if p <? length (sizes s) then 1 else 0)
  /\ (forall p i, destroyed_at p i (mlog s)
                  = if (p <? length (sizes s)) && (i <? nth p (sizes s) 0)
                    then 1 else 0)
  /\ (forall i, count_occ mem_event_eq_dec (mlog s) (MDestroy None i) = 0).
Proof.
  cbn zeta. unfold run_program.
  pose proof (fold_exec_ok prog empty_store ok_empty) as Hok.
  set (s := fold_left (fun s st => exec st s) prog empty_store) in *.
  cbn [mlog sizes].
  assert (Hv : Forall (valid (sizes s)) (rev (vars s)))
    by (apply Forall_rev, (ok_valid s Hok)).
  destruct (destroy_all_counts (sizes s) (rev (vars s)) Hv) as (H1 & H2 & H3).
  split; [|split].
  - intros p. rewrite freed_app, H1, owners_rev.
    pose proof (ok_owner s Hok p). lia.
  - intros p i. rewrite destroyed_at_app, H2, owners_rev, (ok_elems s Hok).
    pose proof (ok_owner s Hok p) as Ho.
    destruct (p <? length (sizes s)), (i <? nth p (sizes s) 0); cbn; lia.
  - intros i. rewrite count_occ_app, H3, (ok_null s Hok). reflexivity.
Qed.

(** Move assignment between two different objects: what the target held
    is destroyed and freed, the target takes over what the source held,
    and the source is left null with length zero.  Nothing else
    changes. *)
Theorem move_assign_transfers (s : store) (i j : nat) this other :
  i <> j ->
  nth_error (vars s) i = Some this -> nth_error (vars s) j = Some other ->
  let s' := move_assign i j s in
  nth_error (vars s') i = Some other
  /\ nth_error (vars s') j = Some null_array
  /\ (forall k, k <> i -> k <> j ->
        nth_error (vars s') k = nth_error (vars s) k)
  /\ mlog s' = mlog s ++ destroy_array this.
Proof.
  intros Hne Hi Hj. cbn zeta. unfold move_assign. rewrite Hi.
  rewrite (nth_error_update_other _ i j) by exact Hne. rewrite Hj.
  cbn [vars mlog].
  pose proof (nth_error_update_same (vars s) i null_array this Hi) as Hi1.
  split; [|split; [|split]].
  - rewrite nth_error_update_other by congruence.
    apply (nth_error_update_same _ _ _ _ Hi1).
  - eapply nth_error_update_same.
    rewrite !nth_error_update_other by exact Hne. exact Hj.
  - intros k Hki Hkj.
    rewrite !nth_error_update_other by congruence. reflexivity.
  - reflexivity.
Qed.

(** Move assignment of an object onto itself does not keep it: its
    elements are destroyed, its block is freed, and the object is left
    null with length zero. *)
Theorem self_move_assign_empties (s : store) (i : nat) this :
  nth_error (vars s) i = Some this ->
  let s' := move_assign i i s in
  nth_error (vars s') i = Some null_array
  /\ (forall k, k <> i -> nth_error (vars s') k = nth_error (vars s) k)
  /\ mlog s' = mlog s ++ destroy_array this.
Proof.
  intros Hi. cbn zeta. unfold move_assign. rewrite Hi.
  pose proof (nth_error_update_same (vars s) i null_array this Hi) as Hi1.
  rewrite Hi1. cbn [vars mlog].
  pose proof (nth_error_update_same _ i null_array null_array Hi1) as Hi2.
  split; [|split].
  - apply (nth_error_update_same _ _ _ _ Hi2).
  - intros k Hk. rewrite !nth_error_update_other by congruence. reflexivity.
  - reflexivity.
Qed.

(** Move construction runs no destructor and frees nothing: the new
    object holds what the source held and the source is left null. *)
Theorem move_construct_transfers (s : store) (j : nat) other :
  nth_error (vars s) j = Some other ->
  let s' := move_construct j s in
  nth_error (vars s') (length (vars s)) = Some other
  /\ nth_error (vars s') j = Some null_array
  /\ (forall k, k <> j -> k < length (vars s) ->
        nth_error (vars s') k = nth_error (vars s) k)
  /\ mlog s' = mlog s.
Proof.
  intros Hj. cbn zeta. unfold move_construct. rewrite Hj. cbn [vars mlog].
  assert (Hlen : j < length (vars s)) by (apply nth_error_Some; congruence).
  split; [|split; [|split]].
  - rewrite nth_error_app2 by (rewrite length_update; lia).
    rewrite length_update, Nat.sub_diag. destruct other; reflexivity.
  - rewrite nth_error_app1 by (rewrite length_update; exact Hlen).
    apply (nth_error_update_same _ _ _ _ Hj).
  - intros k Hk Hlt.
    rewrite nth_error_app1 by (rewrite length_update; exact Hlt).
    apply nth_error_update_other. congruence.
  - reflexivity.
Qed.

(** Self move assignment of the first of [two_arrays]. *)
Lemma self_move_assign_empties_witness :
  nth_error (vars two_arrays) 0 = Some (mk_owned 3 (Some 0))
  /\ nth_error (vars (move_assign 0 0 two_arrays)) 0 = Some null_array.
Proof.
  split; [reflexivity|].
  apply (self_move_assign_empties two_arrays 0 (mk_owned 3 (Some 0))).
  reflexivity.
Defined.

End AlignedMovesFacts.
(* ================================================================== *)
(** ** Running, cancelling and observing tasks *)
(* ================================================================== *)

Module TaskMore.
Import Task Worlds Lifetime Protocol Scenarios TaskFacts LifetimeFacts.
Local Open Scope task_scope.

Ltac exec_more :=
  cbv [shared_get stored_outcome observed canceled_with flushed
       completed_with parent_of_cont];
  exec_ops.
Ltac exec_pair :=
  exec_more;
  repeat (first
    [ rewrite (for_each_drain self self_lens) by (intros; reflexivity)
    | rewrite (for_each_drain peer peer_lens) by (intros; reflexivity)
    | rewrite (for_each_drain solo solo_lens) by (intros; reflexivity) ];
    exec_more).


Section Root.
Context {R E : Type}.
Variable ctor_throws : R -> option E.
Implicit Types n : task_func R E (callable unit R E).


(** A task that is run while the caller of [get()] waits for it: the
    caller observes the outcome of that run. *)
Theorem get_observes_run_during_wait n f :
  func n = Some f -> is_finished (state n) = false ->
  fst (shared_get (run (root_exec_func ctor_throws) solo) solo n)
  = observed (stored_outcome ctor_throws (f tt)).
Proof.
  intros Hf Hs. destruct n as [s [its sl] st fo l]. cbn in Hf, Hs. subst fo.
  destruct s; try discriminate Hs; exec_pair;
    (destruct (f tt) as [v|e]; [destruct (ctor_throws v) as [e|]|]);
    exec_pair; reflexivity.
Qed.

End Root.

Section Continuations.
Context {P R E : Type}.
Variable parent_ctor_throws : P -> option E.
Variable ctor_throws : R -> option E.
Variable parent_moved_from : P -> P.
Variable parent_shared : bool.

(** A root task followed by a value continuation: [get()] on the
    continuation returns what its callable makes of the value the root
    callable returned; an exception thrown by the root callable, by the
    continuation's callable or by the construction of either result is
    what [get()] rethrows.  The continuation's callable is called once
    when the root task completed and not at all when it was canceled. *)
Theorem value_continuation_composes
    (p : task_func P E (callable unit P E))
    (c : task_func R E (callable P R E)) f g wft :
  func p = Some f -> func c = Some g ->
  let after :=
    (run (root_exec_func parent_ctor_throws) peer ;;
     run (continuation_exec_func_value ctor_throws parent_moved_from
            parent_shared peer) self) (p, c) in
  fst after = Ok tt
  /\ fst (shared_get wft self (snd after))
     = observed (continued ctor_throws g (stored_outcome parent_ctor_throws (f tt)))
  /\ count is_invoke (events (snd (snd after)))
     = count is_invoke (events c)
       + match stored_outcome parent_ctor_throws (f tt) with
         | inl _ => 1 | inr _ => 0 end.
Proof.
  intros Hf Hg. cbn zeta.
  destruct p as [ps [pits psl] pst pfo pl]. cbn in Hf. subst pfo.
  destruct c as [cs [cits csl] cst cfo cl]. cbn in Hg. subst cfo.
  unfold continued. exec_pair.
  destruct (f tt) as [v|e]; [destruct (parent_ctor_throws v) as [e|]|];
    exec_pair;
    try (destruct parent_shared; exec_pair;
         (destruct (g v) as [r|e]; [destruct (ctor_throws r) as [e|]|]);
         exec_pair);
    (split; [reflexivity|]); (split; [reflexivity|]);
    cbv [events log]; rewrite ?map_app, ?map_map; cbn [map fst];
    rewrite ?count_app, ?count_schedules by reflexivity;
    cbn; lia.
Qed.

End Continuations.

Section Propagation.
Context {P R E Fp : Type}.
Variable ctor_throws : R -> option E.
Variable parent_moved_from : P -> P.
Variable parent_shared : bool.


End Propagation.

Section SchedulerFailure.
Context {P R E Fp F : Type}.
Variable cont_ptr : task_ptr.



End SchedulerFailure.

Section Ordering.
Context {R E F : Type}.


End Ordering.

Section Shape.
Context {R E : Type}.
Variable ctor_throws : R -> option E.
Variable moved_from : R -> R.

Lemma kinds_app (l1 l2 : list (event R E)) :
  kinds (l1 ++ l2) = kinds l1 ++ kinds l2.
Proof. apply flat_map_app. Qed.

Lemma kinds_tail (v : view R E) cs :
  flat_map kind_of
    (map fst (map (fun c : task_ptr => (EvSchedule (R:=R) (E:=E) c, v)) cs))
  = [].
Proof.
  rewrite map_map. cbn [fst]. induction cs as [|c cs IH]; [reflexivity|exact IH].
Qed.

Lemma shape_new {F} (f : F) : shape (new_task (R:=R) (E:=E) f).
Proof.
  split; [left; reflexivity|]. split; [reflexivity|discriminate].
Qed.

Lemma shape_extend {F F'} (n : task_func R E F) s cv st (fo : option F') ext k :
  kinds (events n) = k ->
  In (k ++ kinds (map fst ext), s) lives ->
  list_matches_state cv s ->
  shape (mk_task s cv st fo (log n ++ ext)).
Proof.
  intros Hk Hin Hl. split; [|exact Hl].
  unfold events. cbn [log state]. rewrite map_app, kinds_app.
  change (map fst (log n)) with (events n). rewrite Hk. exact Hin.
Qed.

Lemma pending_kinds {F} (n : task_func R E F) :
  shape n -> state n = pending ->
  kinds (events n) = [] /\ sealed (continuations n) = false.
Proof.
  intros [Hl [Hs _]] Hp. rewrite Hp in Hl, Hs. split; [|exact Hs].
  destruct Hl as [H|[H|[H|[H|[H|[H|[H|[]]]]]]]]; inversion H; reflexivity.
Qed.

Lemma unwrapped_kinds {F} (n : task_func R E F) :
  shape n -> state n = unwrapped ->
  kinds (events n) = [KInvoke; KStore unwrapped; KDestroyFunc]
  /\ sealed (continuations n) = false.
Proof.
  intros [Hl [Hs _]] Hp. rewrite Hp in Hl, Hs. split; [|exact Hs].
  destruct Hl as [H|[H|[H|[H|[H|[H|[H|[]]]]]]]]; inversion H; reflexivity.
Qed.

Lemma shape_add_continuation {F} (n : task_func R E F) c :
  shape n -> shape (snd (add_continuation solo (ret tt) c n)).
Proof.
  intros [Hl [Hs He]]. destruct n as [s [its sl] st fo l].
  cbn in Hs, He. exec_ops.
  destruct s, sl; cbn [fst snd]; try discriminate Hs;
    (split; [exact Hl|split; [reflexivity|]]);
    try exact He; discriminate.
Qed.

End Shape.

Ltac in_lives :=
  cbn [map fst]; unfold kinds; cbn [flat_map kind_of app];
  rewrite ?kinds_tail; cbn [app];
  cbv [lives In]; repeat (first [left; reflexivity | right]).
Ltac list_fits :=
  split; [reflexivity|first [reflexivity|discriminate|intros _; reflexivity]].
Ltac shape_from n Hk :=
  cbv [scheduled record set_state set_store set_func set_continuations
       state continuations store func log view_of snd fst];
  rewrite <- ?app_assoc; cbn [app];
  apply (shape_extend n _ _ _ _ _ _ Hk); [in_lives|list_fits].

Section Lives.
Context {R E : Type}.
Variable ctor_throws : R -> option E.
Variable moved_from : R -> R.

Ltac begin_pending n Hl IH Hs its f l Hk :=
  let Hsl := fresh "Hsl" in
  let Hinv := fresh "Hinv" in
  let cv := fresh "cv" in
  let sl := fresh "sl" in
  pose proof (life_inv ctor_throws moved_from n Hl) as Hinv;
  destruct (pending_kinds n IH Hs) as [Hk Hsl];
  destruct (inv_pending n Hinv Hs) as (cv & f & l & ->);
  destruct cv as [its sl]; cbn in Hsl; subst sl; clear Hinv.
Ltac peer_cases p Hfin Hm :=
  let cv := fresh "pcv" in let v := fresh "pv" in let e := fresh "pe" in
  let fo := fresh "pfo" in let l := fresh "pl" in
  destruct (finished_cases p Hfin Hm)
    as [(cv & v & fo & l & ->)|(cv & e & fo & l & ->)].

(** Every node in the life of a task has gone through one of the seven
    protocols, and its continuation list matches its state. *)
Lemma life_shape {F} (n : task_func R E F) :
  life ctor_throws moved_from n -> shape n.
Proof.
  induction 1 as
    [ F f
    | F n c Hl IH
    | F n e Hl IH Hs
    | n Hl IH Hs
    | n r Hl IH Hs
    | P n p Hl IH Hs
    | P Fp pm sh p n Hl IH Hs Hfin Hm
    | P Fp p n Hl IH Hs Hfin Hm
    | P n p r Hl IH Hs
    | P Fp pm sh p n r Hl IH Hs Hfin Hm
    | P Fp p n r Hl IH Hs Hfin Hm
    | F Fc sh child n Hl IH Hs Hfin Hm
    | F n Hl IH Hs ].
  - apply shape_new.
  - apply shape_add_continuation, IH.
  - begin_pending n Hl IH Hs its f l Hk. exec_solo.
    shape_from (mk_task (R:=R) (E:=E) pending (mk_cv its false) HoldsSched (Some f) l) Hk.
  - begin_pending n Hl IH Hs its f l Hk. exec_solo.
    destruct (f tt) as [v|e]; [destruct (ctor_throws v) as [e|]|];
      exec_solo;
      shape_from (mk_task (R:=R) (E:=E) pending (mk_cv its false) HoldsSched (Some f) l) Hk.
  - begin_pending n Hl IH Hs its f l Hk. exec_solo.
    destruct (f tt) as [[]|e]; [destruct r as [e|]|];
      exec_solo;
      shape_from (mk_task (R:=R) (E:=E) pending (mk_cv its false) HoldsSched (Some f) l) Hk.
  - begin_pending n Hl IH Hs its f l Hk. exec_solo.
    destruct (f p) as [v|e]; [destruct (ctor_throws v) as [e|]|];
      exec_solo;
      shape_from (mk_task (R:=R) (E:=E) pending (mk_cv its false) HoldsSched (Some f) l) Hk.
  - begin_pending n Hl IH Hs its f l Hk. peer_cases p Hfin Hm.
    + exec_self. destruct sh; exec_self;
        (destruct (f pv) as [v|e]; [destruct (ctor_throws v) as [e|]|]);
        exec_self;
        shape_from (mk_task (R:=R) (E:=E) pending (mk_cv its false) HoldsSched (Some f) l) Hk.
    + exec_self.
      shape_from (mk_task (R:=R) (E:=E) pending (mk_cv its false) HoldsSched (Some f) l) Hk.
  - begin_pending n Hl IH Hs its f l Hk. peer_cases p Hfin Hm.
    + exec_self.
      destruct (f tt) as [v|e]; [destruct (ctor_throws v) as [e|]|];
        exec_self;
        shape_from (mk_task (R:=R) (E:=E) pending (mk_cv its false) HoldsSched (Some f) l) Hk.
    + exec_self.
      shape_from (mk_task (R:=R) (E:=E) pending (mk_cv its false) HoldsSched (Some f) l) Hk.
  - begin_pending n Hl IH Hs its f l Hk. exec_solo.
    destruct (f p) as [[]|e]; [destruct r as [e|]|];
      exec_solo;
      shape_from (mk_task (R:=R) (E:=E) pending (mk_cv its false) HoldsSched (Some f) l) Hk.
  - begin_pending n Hl IH Hs its f l Hk. peer_cases p Hfin Hm.
    + exec_self. destruct sh; exec_self;
        (destruct (f pv) as [[]|e]; [destruct r as [e|]|]);
        exec_self;
        shape_from (mk_task (R:=R) (E:=E) pending (mk_cv its false) HoldsSched (Some f) l) Hk.
    + exec_self.
      shape_from (mk_task (R:=R) (E:=E) pending (mk_cv its false) HoldsSched (Some f) l) Hk.
  - begin_pending n Hl IH Hs its f l Hk. peer_cases p Hfin Hm.
    + exec_self.
      destruct (f tt) as [[]|e]; [destruct r as [e|]|];
        exec_self;
        shape_from (mk_task (R:=R) (E:=E) pending (mk_cv its false) HoldsSched (Some f) l) Hk.
    + exec_self.
      shape_from (mk_task (R:=R) (E:=E) pending (mk_cv its false) HoldsSched (Some f) l) Hk.
  - pose proof (life_inv ctor_throws moved_from n Hl) as Hinv.
    destruct (unwrapped_kinds n IH Hs) as [Hk Hsl].
    destruct (inv_unwrapped n Hinv Hs) as (cv & l & ->).
    destruct cv as [its sl]. cbn in Hsl. subst sl. clear Hinv.
    peer_cases child Hfin Hm.
    + exec_self. destruct sh; exec_self;
        (destruct (ctor_throws pv) as [e|]); exec_self;
        shape_from (mk_task (R:=R) (E:=E) (F:=F) unwrapped (mk_cv its false) HoldsSched None l) Hk.
    + exec_self.
      shape_from (mk_task (R:=R) (E:=E) (F:=F) unwrapped (mk_cv its false) HoldsSched None l) Hk.
  - pose proof (life_inv ctor_throws moved_from n Hl) as Hinv.
    destruct (inv_completed n Hinv Hs) as (cv & v & l & ->).
    destruct IH as [Hk Hlist]. exec_solo.
    cbv [scheduled record set_state set_store set_func set_continuations
         state continuations store func log view_of snd fst].
    apply (shape_extend
             (mk_task (R:=R) (E:=E) (F:=F) completed cv (HoldsResult v) None l)
             _ _ _ _ _ _ eq_refl); [|exact Hlist].
    cbn [map fst]. unfold kinds at 2. cbn [flat_map kind_of app].
    rewrite app_nil_r. exact Hk.
Qed.

Lemma in_kinds_invoke (l : list (event R E)) :
  In EvInvoke l <-> In KInvoke (kinds l).
Proof.
  unfold kinds. rewrite in_flat_map. split.
  - intros H. exists EvInvoke. split; [exact H|left; reflexivity].
  - intros (ev & Hin & Hk). destruct ev; cbn in Hk;
      try (destruct Hk as [Hk|[]]; discriminate Hk); try contradiction.
    exact Hin.
Qed.

Lemma in_kinds_destroy (l : list (event R E)) :
  In EvDestroyFunc l <-> In KDestroyFunc (kinds l).
Proof.
  unfold kinds. rewrite in_flat_map. split.
  - intros H. exists EvDestroyFunc. split; [exact H|left; reflexivity].
  - intros (ev & Hin & Hk). destruct ev; cbn in Hk;
      try (destruct Hk as [Hk|[]]; discriminate Hk); try contradiction.
    exact Hin.
Qed.

Lemma in_kinds_store (l : list (event R E)) s :
  In (EvStore s) l <-> In (KStore s) (kinds l).
Proof.
  unfold kinds. rewrite in_flat_map. split.
  - intros H. exists (EvStore s). split; [exact H|left; reflexivity].
  - intros (ev & Hin & Hk). destruct ev; cbn in Hk;
      try (destruct Hk as [Hk|[]]; try discriminate Hk); try contradiction.
    injection Hk as <-. exact Hin.
Qed.

(** Over its whole life, whatever is done to it, a task node goes
    through one of seven sequences of member calls: none yet (pending);
    canceled before it ran; called, result stored, function destroyed,
    [completed] published; called, function destroyed, exception stored,
    [canceled] published; called, [unwrapped] published, function
    destroyed, then possibly the child's result or exception stored and
    the final state published.  In particular state [locked] is never
    stored, a finished task never changes state again, and the result
    or the exception is in its slot before the final state is
    published. *)
Theorem task_follows_one_of_seven_protocols {F} (n : task_func R E F) :
  life ctor_throws moved_from n ->
  In (kinds (events n), state n) lives
  /\ (forall s, In (EvStore s) (events n) ->
        s = state n \/ (s = unwrapped /\ is_finished (state n) = true)).
Proof.
  intros Hl. pose proof (shape_life n (life_shape n Hl)) as Hin.
  split; [exact Hin|]. intros s Hs. apply in_kinds_store in Hs.
  destruct Hin as [H|[H|[H|[H|[H|[H|[H|[]]]]]]]];
    injection H as Hk Hst; rewrite <- Hk in Hs; rewrite <- Hst;
    cbn in Hs; intuition (try discriminate);
    match goal with
    | H : KStore _ = KStore _ |- _ => injection H as <-
    end; auto.
Qed.

(** The callable of a task is called at most once, never after the
    function object that holds it was destroyed, and once it has been
    called the function object is destroyed before the member call
    returns. *)
Theorem callable_called_once_before_destruction {F} (n : task_func R E F) :
  life ctor_throws moved_from n ->
  forall l1 l2, events n = l1 ++ EvInvoke :: l2 ->
    ~ In EvInvoke l1 /\ ~ In EvInvoke l2
    /\ ~ In EvDestroyFunc l1 /\ In EvDestroyFunc l2.
Proof.
  intros Hl l1 l2 Hev.
  pose proof (shape_life n (life_shape n Hl)) as Hin.
  rewrite Hev, kinds_app in Hin.
  change (kinds (EvInvoke :: l2)) with (KInvoke :: kinds l2) in Hin.
  rewrite !in_kinds_invoke, !in_kinds_destroy.
  generalize dependent (kinds l2). generalize (kinds l1).
  intros a b Hin.
  destruct Hin as [H|[H|[H|[H|[H|[H|[H|[]]]]]]]];
    injection H as H _; symmetry in H;
    (destruct a as [|x a]; cbn [app] in H;
     [ try discriminate H; injection H as ->; cbn; intuition discriminate
     | exfalso; try discriminate H; injection H as _ H;
       repeat (destruct a as [|? a]; cbn [app] in H;
               [discriminate H|try discriminate H; injection H as _ H]);
       destruct a; discriminate H ]).
Qed.

(** The continuation list is sealed exactly when the task is finished;
    a sealed list is empty (nothing registered is left behind); and as
    long as the task is not finished its storage holds neither a result
    nor an exception (it still holds the scheduler pointer that
    [schedule] reads). *)
Theorem list_sealed_iff_finished {F} (n : task_func R E F) :
  life ctor_throws moved_from n ->
  sealed (continuations n) = is_finished (state n)
  /\ (is_finished (state n) = true -> items (continuations n) = [])
  /\ (is_finished (state n) = false -> store n = HoldsSched).
Proof.
  intros Hl. destruct (shape_list n (life_shape n Hl)) as [Hs He].
  split; [exact Hs|]. split.
  - intros Hf. apply He. rewrite Hs. exact Hf.
  - intros Hf. pose proof (inv_rest n (life_inv _ _ n Hl)) as Hr.
    destruct n as [s cv st fo l]. cbn in Hf, Hr |- *.
    destruct s; try discriminate Hf; destruct st; try discriminate Hr;
      reflexivity.
Qed.


End Lives.

(** *** The theorems at work on the scenarios *)


Lemma get_observes_run_during_wait_witness :
  fst (shared_get (run (root_exec_func (fun _ => None)) solo) solo root_42)
  = Ok 42.
Proof.
  exact (get_observes_run_during_wait (fun _ => None) root_42
           (fun _ => inl 42) eq_refl eq_refl).
Defined.

Lemma value_continuation_composes_witness :
  fst (shared_get (ret tt) self
         (snd ((run (root_exec_func (fun _ => None)) peer ;;
                run (continuation_exec_func_value (fun _ => None)
                       (fun x => x) true peer) self)
                 (root_1, adding_cont))))
  = Ok 3.
Proof.
  exact (proj1 (proj2
    (value_continuation_composes (fun _ => None) (fun _ => None)
       (fun x => x) true root_1 adding_cont (fun _ => inl 1)
       (fun x => inl (x + 2)) (ret tt) eq_refl eq_refl))).
Defined.




Lemma task_follows_one_of_seven_protocols_witness :
  In (kinds (events ran_42), state ran_42) lives.
Proof.
  exact (proj1 (task_follows_one_of_seven_protocols (fun _ => None)
                  (fun x => x) ran_42 life_ran_42)).
Defined.

Lemma callable_called_once_before_destruction_witness :
  ~ In EvInvoke [EvSetResult 42; EvDestroyFunc; EvStore (R:=nat) (E:=nat) completed]
  /\ In EvDestroyFunc
        [EvSetResult 42; EvDestroyFunc; EvStore (R:=nat) (E:=nat) completed].
Proof.
  destruct (callable_called_once_before_destruction (fun _ => None)
              (fun x => x) ran_42 life_ran_42 []
              [EvSetResult 42; EvDestroyFunc; EvStore completed] eq_refl)
    as (_ & Hafter & _ & Hdestroyed).
  split; [exact Hafter | exact Hdestroyed].
Defined.

Lemma list_sealed_iff_finished_witness :
  sealed (continuations ran_42) = true /\ items (continuations ran_42) = [].
Proof.
  destruct (list_sealed_iff_finished (fun _ => None) (fun x => x)
              ran_42 life_ran_42) as (Hsealed & Hempty & _).
  split; [exact Hsealed | exact (Hempty eq_refl)].
Defined.


End TaskMore.
(* ================================================================== *)
(** ** Unwrapping when [then] fails *)
(* ================================================================== *)

Module UnwrapMore.
Import Task Worlds Unwrap Scenarios UnwrapFacts.

(** Allocating the forwarding continuation throws 8: the unwrapping
    task, already [unwrapped], ends canceled with 8 and hands over its
    own continuation. *)
Lemma unwrap_then_throws_witness :
  exists w',
    unwrapped_finish parent_h
      (child_then (fun _ => None) (fun _ => 0) false 100 (Some 8))
      (mk_world unwrapping_parent child_pending (new_task Forwarding))
    = (Ok tt, w')
    /\ state (parent w') = canceled /\ store (parent w') = HoldsExcept 8
    /\ events (parent w')
       = [EvStore unwrapped; EvDestroyFunc; EvSetException 8;
          EvStore canceled; EvSchedule 41].
Proof.
  destruct (unwrap_then_throws (fun _ => None) (fun _ => 0) false 100
              (mk_world unwrapping_parent child_pending (new_task Forwarding))
              (fun _ => inl tt) 8 eq_refl)
    as (w' & Hrun & Hst & Hsto & Hev).
  exists w'. split; [exact Hrun|]. split; [exact Hst|].
  split; [exact Hsto | exact Hev].
Defined.

End UnwrapMore.
(* ================================================================== *)
(** ** The partitioner driver on any range *)
(* ================================================================== *)

Module ParallelForMore.
Import ParallelFor ParallelForCost Scenarios ParallelForFacts.

Section AnyRange.
Context {P T : Type} `{PartitionerLaws P T}.

(** Whatever the elements are (of any type, with repetitions), for a
    partitioner that abides by the laws the driver returns, and every
    sequence of applications of [func] it can produce is a permutation
    of the elements of the range: as many applications as elements, each
    element as often as it occurs in the range, and no application at
    all on an empty range. *)
Theorem parallel_for_applies_func_to_a_permutation (p : P) :
  (exists tr, internal_parallel_for (S (length (elements p))) p = Some tr
              /\ visits p tr)
  /\ (forall tr, visits p tr ->
        Permutation tr (elements p)
        /\ length tr = length (elements p)
        /\ (elements p = [] -> tr = [])).
Proof.
  split.
  - apply internal_parallel_for_returns. lia.
  - intros tr Hv. pose proof (visits_perm p tr Hv) as Hp.
    split; [exact Hp|]. split; [apply Permutation_length, Hp|].
    intros He. rewrite He in Hp. apply Permutation_nil. symmetry. exact Hp.
Qed.

Lemma spawned_tasks_bound fuel : forall p : P,
  length (elements p) < fuel ->
  exists k, spawned_tasks fuel p = Some k
            /\ k + 1 <= Nat.max 1 (length (elements p))
            /\ (k = 0 <-> is_empty (fst (split p)) = true).
Proof.
  induction fuel as [|fuel IH]; intros p Hf; [lia|].
  cbn [spawned_tasks].
  destruct (split p) as [sub rest] eqn:Hs. cbn [fst].
  destruct (is_empty sub) eqn:He.
  - exists 0. split; [reflexivity|]. split; [lia|]. split; reflexivity.
  - assert (He' : is_empty (fst (split p)) = false) by (rewrite Hs; exact He).
    destruct (split_smaller p He') as [H1 H2].
    pose proof (Permutation_length (split_elements p)) as Hl.
    rewrite length_app, Hs in Hl. rewrite Hs in H1, H2. cbn [fst snd] in *.
    destruct (IH rest ltac:(lia)) as (a & Ha & Hba & _).
    destruct (IH sub ltac:(lia)) as (b & Hb & Hbb & _).
    rewrite Ha, Hb. exists (1 + a + b). split; [reflexivity|].
    split; [lia|]. split; [lia|discriminate].
Qed.

(** The driver spawns at most one task less than there are elements,
    and none when the range is empty or has a single element; it spawns
    none exactly when the first split hands out nothing. *)
Theorem parallel_for_spawns_fewer_tasks_than_elements (p : P) :
  exists k,
    spawned_tasks (S (length (elements p))) p = Some k
    /\ k <= length (elements p) - 1
    /\ (k = 0 <-> is_empty (fst (split p)) = true).
Proof.
  destruct (spawned_tasks_bound (S (length (elements p))) p ltac:(lia))
    as (k & Hk & Hb & Hz).
  exists k. split; [exact Hk|]. split; [lia|exact Hz].
Qed.

End AnyRange.

Lemma parallel_for_applies_func_to_a_permutation_witness :
  internal_parallel_for 5 range_3_7 = Some [3; 4; 5; 6]
  /\ forall tr, visits range_3_7 tr -> Permutation tr [3; 4; 5; 6].
Proof.
  split; [reflexivity|]. intros tr Hv.
  exact (proj1 (proj2 (parallel_for_applies_func_to_a_permutation range_3_7)
                  tr Hv)).
Defined.

Lemma parallel_for_spawns_fewer_tasks_than_elements_witness :
  exists k, spawned_tasks 5 range_3_7 = Some k /\ k <= 3.
Proof.
  destruct (parallel_for_spawns_fewer_tasks_than_elements range_3_7)
    as (k & Hk & Hb & _).
  exists k. split; [exact Hk | exact Hb].
Defined.

End ParallelForMore.
(* ================================================================== *)
(** ** Registration after the list was sealed *)
(* ================================================================== *)

Module RegistrationMore.
Import Task Registration Scenarios.

Section Late.
Variable terminal : task_state.

Lemma step_at_load i stale (c : config) cont :
  nth_error (registrants c) i = Some (cont, AtLoad) ->
  registrant_step i stale c
  = Some (mk_config (shared_state c) (shared_list c) (finisher c)
            (update (registrants c) i
               (cont, if negb (is_finished
                                 (if stale then pending else shared_state c))
                      then AtTryAdd else AtRunInline))
            (invoked c)).
Proof. intros Hi. unfold registrant_step. rewrite Hi. reflexivity. Qed.

Lemma step_at_try_add_sealed i stale (c : config) cont :
  nth_error (registrants c) i = Some (cont, AtTryAdd) ->
  sealed (shared_list c) = true ->
  registrant_step i stale c
  = Some (mk_config (shared_state c) (shared_list c) (finisher c)
            (update (registrants c) i (cont, AtRunInline)) (invoked c)).
Proof.
  intros Hi Hs. unfold registrant_step, try_add. rewrite Hi, Hs. reflexivity.
Qed.

Lemma step_at_run_inline i stale (c : config) cont :
  nth_error (registrants c) i = Some (cont, AtRunInline) ->
  registrant_step i stale c
  = Some (mk_config (shared_state c) (shared_list c) (finisher c)
            (update (registrants c) i (cont, RanInline))
            (invoked c ++ [(ByRegistrant, cont)])).
Proof. intros Hi. unfold registrant_step. rewrite Hi. reflexivity. Qed.

Lemma step_after_return i stale (c : config) cont :
  nth_error (registrants c) i = Some (cont, RanInline) ->
  registrant_step i stale c = None.
Proof. intros Hi. unfold registrant_step. rewrite Hi. reflexivity. Qed.

(** A registrant that starts after the list was sealed runs its
    continuation itself, once, whatever its relaxed load of the state
    returns: a stale [pending] sends it to [try_add], which refuses.
    The list stays as it is and no other registrant is affected. *)
Theorem late_registrant_runs_inline (c : config) (i : nat) (cont : task_ptr)
    (stale1 stale2 stale3 : bool) :
  sealed (shared_list c) = true ->
  nth_error (registrants c) i = Some (cont, AtLoad) ->
  let c' := interleave terminal
              [Registrant i stale1; Registrant i stale2; Registrant i stale3]
              c in
  nth_error (registrants c') i = Some (cont, RanInline)
  /\ invoked c' = invoked c ++ [(ByRegistrant, cont)]
  /\ shared_list c' = shared_list c
  /\ (forall j, j <> i ->
        nth_error (registrants c') j = nth_error (registrants c) j).
Proof.
  intros Hsealed Hi. cbv zeta.
  cbn [interleave take_step]. rewrite (step_at_load i stale1 c cont Hi).
  set (pc1 := if negb (is_finished (if stale1 then pending else shared_state c))
              then AtTryAdd else AtRunInline).
  pose proof (AlignedMovesFacts.nth_error_update_same
                (registrants c) i (cont, pc1) _ Hi) as H1.
  destruct (negb (is_finished (if stale1 then pending else shared_state c)));
    subst pc1.
  - match goal with |- context [registrant_step i stale2 ?c1] =>
      rewrite (step_at_try_add_sealed i stale2 c1 cont H1 Hsealed) end.
    cbn [shared_state shared_list finisher registrants invoked].
    pose proof (AlignedMovesFacts.nth_error_update_same _ i
                  (cont, AtRunInline) _ H1) as H2.
    match goal with |- context [registrant_step i stale3 ?c1] =>
      rewrite (step_at_run_inline i stale3 c1 cont H2) end.
    cbn [shared_state shared_list finisher registrants invoked].
    split; [apply (AlignedMovesFacts.nth_error_update_same _ _ _ _ H2)|].
    split; [reflexivity|]. split; [reflexivity|].
    intros j Hj.
    rewrite !AlignedMovesFacts.nth_error_update_other by congruence.
    reflexivity.
  - match goal with |- context [registrant_step i stale2 ?c1] =>
      rewrite (step_at_run_inline i stale2 c1 cont H1) end.
    cbn [shared_state shared_list finisher registrants invoked].
    pose proof (AlignedMovesFacts.nth_error_update_same _ i
                  (cont, RanInline) _ H1) as H2.
    match goal with |- context [registrant_step i stale3 ?c1] =>
      rewrite (step_after_return i stale3 c1 cont H2) end.
    cbn [shared_state shared_list finisher registrants invoked].
    split; [exact H2|]. split; [reflexivity|]. split; [reflexivity|].
    intros j Hj.
    rewrite !AlignedMovesFacts.nth_error_update_other by congruence.
    reflexivity.
Qed.

End Late.

Lemma late_registrant_runs_inline_witness :
  invoked (interleave completed
             [Registrant 0 true; Registrant 0 false; Registrant 0 false]
             sealed_config)
  = [(ByFlush, 4); (ByRegistrant, 5)].
Proof.
  exact (proj1 (proj2
    (late_registrant_runs_inline completed sealed_config 0 5 true false false
       eq_refl eq_refl))).
Defined.

End RegistrationMore.
